(** * ddu-source-tri_source: the streaming three-source aggregator

    A shallow embedding of [denops/@ddu-sources/tri_source.ts] and the
    properties of its deduplication, ordering, walking, chunking and
    failure handling.

    The host (denops, Deno's filesystem, the stream consumer) is modelled by
    the answers it gives: every external call of the source appears here as a
    field of a record, or as a node of the directory listing, holding the
    value or the exception the call produced. *)

From Stdlib Require Import ZArith String Ascii List DecimalString Lia.
From stdpp Require Import gmap strings list sorting.

Open Scope Z_scope.
Set Warnings "-register-all".

(** ** JavaScript values and exceptions *)

(** The values of type [unknown] that the code inspects. *)
Inductive JsValue :=
| JUndefined
| JNull
| JBoolean (b : bool)
| JNumber (z : Z)
| JString (s : string)
| JArray (l : list JsValue)
| JObject.

(** What a [catch (e: unknown)] clause can receive. The code tests [e] with
    [instanceof Deno.errors.PermissionDenied], [instanceof DOMException] and
    [instanceof Error], and reads [e.name]. *)
Inductive Thrown :=
| PermissionDenied
| DOMException (name : string)
| ErrorObject (name : string)
| NonError (v : JsValue).

Definition instanceof_PermissionDenied (e : Thrown) : bool :=
  match e with PermissionDenied => true | _ => false end.

Definition instanceof_DOMException (e : Thrown) : bool :=
  match e with DOMException _ => true | _ => false end.

Definition instanceof_Error (e : Thrown) : bool :=
  match e with NonError _ => false | _ => true end.

Definition error_name (e : Thrown) : string :=
  match e with
  | PermissionDenied => "PermissionDenied"
  | DOMException n => n
  | ErrorObject n => n
  | NonError _ => ""
  end.

(** The outcome of an [await]ed call: a value, or a thrown exception. *)
Inductive Completion (A : Type) :=
| Normal (a : A)
| Throw (e : Thrown).
Arguments Normal {A} a.
Arguments Throw {A} e.

(** [s.includes(sub)]. *)
Fixpoint includes (s sub : string) : bool :=
  if String.prefix sub s then true
  else match s with
       | EmptyString => false
       | String _ s' => includes s' sub
       end.

(** [s.startsWith(p)]. *)
Definition startsWith (s p : string) : bool := String.prefix p s.

(** [String(n)] for an integral number. *)
Definition String_of_number (n : Z) : string :=
  NilZero.string_of_int (Z.to_int n).

Fixpoint repeat_string (n : nat) (fill : string) : string :=
  match n with
  | O => ""
  | S n' => fill +:+ repeat_string n' fill
  end.

(** [s.padStart(n, " ")]. *)
Definition padStart (s : string) (n : nat) : string :=
  repeat_string (n - String.length s) " " +:+ s.

(** [Array.prototype.sort(cmp)]: a stable sort; [cmp a b > 0] puts [a]
    after [b]. *)
Section Sort.
Context {A : Type} (cmp : A -> A -> Z).

Fixpoint sort_insert (x : A) (l : list A) : list A :=
  match l with
  | [] => [x]
  | y :: l' => if cmp x y <=? 0 then x :: y :: l' else y :: sort_insert x l'
  end.

Definition js_sort (l : list A) : list A := foldr sort_insert [] l.
End Sort.

(** ** Types of the source *)

Inductive TreePath :=
| TreePathString (s : string)
| TreePathArray (l : list string).

(** [chunkSize] is a number in the source; the model takes the integers
    among the numbers, of any sign. *)
Record Params := {
  enableBuffer : bool;
  enableMr : bool;
  enableFileRec : bool;
  ignoredDirectories : list string;
  chunkSize : Z;
  expandSymbolicLink : bool;
  mrKind : string;
  bufferOrderby : string;
  dedup : bool;
  showSourcePrefix : bool
}.

Module BufInfo.
Record t := mk {
  bufnr : Z;
  changed : bool;
  lastused : Z;
  listed : bool;
  name : string
}.
End BufInfo.

Record GetBufInfoReturn := {
  currentDir : string;
  alternateBufNr : Z;
  buffers : list BufInfo.t
}.

Module ItemHighlight.
Record t := mk {
  name : string;
  hl_group : string;
  col : Z;
  width : Z
}.
End ItemHighlight.

Record ActionData := { path : string; isDirectory : bool }.

Record Item := {
  word : string;
  display : option string;
  highlights : option (list ItemHighlight.t);
  action : ActionData
}.

Module FileInfo.
Record t := mk {
  isFile : bool;
  isDirectory : bool;
  isSymlink : bool
}.
End FileInfo.

(** ** Helpers *)

Definition makeItem (word path tag : string) (showPrefix isDirectory : bool)
  : Item :=
  let prefix := "[" +:+ tag +:+ "] " in
  {| word := word;
     display := if showPrefix then Some (prefix +:+ word) else None;
     highlights :=
       if showPrefix
       then Some [ItemHighlight.mk ("ddu_tri_source_" +:+ tag)
                                   ("DduTriSource_" +:+ tag)
                                   1
                                   (Z.of_nat (String.length prefix))]
       else None;
     action := {| path := path; isDirectory := isDirectory |} |}.

(** [p.replace(/\/+$/, "")]: the trailing run of slashes is removed. *)
Fixpoint normalizePath (p : string) : string :=
  match p with
  | EmptyString => EmptyString
  | String c p' =>
      match normalizePath p' with
      | EmptyString => if Ascii.eqb c "/" then EmptyString else String c EmptyString
      | r => String c r
      end
  end.

(** The key under which an item takes part in deduplication. *)
Definition dedupKey (i : Item) : string := normalizePath (path (action i)).

(** ** The host, as the answers it gives *)

(** [denops.dispatch] returns a promise; [ms] is the time it takes to settle. *)
Inductive DispatchOutcome :=
| Resolves (ms : Z) (v : JsValue)
| Rejects (ms : Z) (e : Thrown)
| NeverSettles.

Record Denops := {
  (** [denops.call("ddu#source#tri_source#getbufinfo")] *)
  call_getbufinfo : Completion GetBufInfoReturn;
  (** [denops.call("getbufvar", bufnr, "&buftype")] *)
  call_getbufvar : Z -> Completion JsValue;
  (** [denops.dispatch(plugin, method)] *)
  dispatch : string -> string -> DispatchOutcome
}.

(** [deadline(p, ms)] of [@std/async]: the promise's own outcome when it
    settles before the limit, a [DOMException] named [TimeoutError]
    otherwise. *)
Definition timeoutError : Thrown := DOMException "TimeoutError".

Definition deadline (p : DispatchOutcome) (limit : Z) : Completion JsValue :=
  match p with
  | Resolves ms v => if ms <? limit then Normal v else Throw timeoutError
  | Rejects ms e => if ms <? limit then Throw e else Throw timeoutError
  | NeverSettles => Throw timeoutError
  end.

(** [ensure(x, is.ArrayOf(is.String))] of [@core/unknownutil]. *)
Definition assertError : Thrown := ErrorObject "AssertError".

Fixpoint all_strings (l : list JsValue) : option (list string) :=
  match l with
  | [] => Some []
  | JString s :: l' =>
      match all_strings l' with
      | Some r => Some (s :: r)
      | None => None
      end
  | _ => None
  end.

Definition ensure_ArrayOf_String (x : JsValue) : Completion (list string) :=
  match x with
  | JArray l =>
      match all_strings l with
      | Some r => Normal r
      | None => Throw assertError
      end
  | _ => Throw assertError
  end.

(** The filesystem. [lstat], [stat] and [realPath] give the answer of
    [Deno.lstat], [Deno.stat] and [Deno.realPath] for a path ([None]: the call
    throws; the code does not look at that exception). *)
Record Fs := {
  lstat : string -> option FileInfo.t;
  stat : string -> option FileInfo.t;
  realPath : string -> Completion string
}.

(** The reason the consumer hands to [cancel], if it hands one. *)
Definition Reason : Type := option Thrown.

(** What iterating [abortable(Deno.readDir(dir), signal)] delivers, one entry
    after the other, together with the listing of each entry as the walker
    would find it if it descended into it ([sub]). A listing ends when the
    directory is exhausted, when the read throws, or when the consumer cancels
    the stream while the next entry is awaited; [interrupt] tells that the
    consumer cancels while the entry's metadata is awaited. *)
Inductive Listing :=
| EndOfDir
| ReadThrows (e : Thrown)
| CancelDuringRead (reason : Reason)
| NextEntry (name : string) (interrupt : option Reason) (sub rest : Listing).


(** ** The state of one [gather] call

    [seen] is the [Set<string>] shared by the three sub-sources, [queue] the
    batches accepted by [controller.enqueue], [console] the arguments of each
    [console.error] call, [signal] the [AbortSignal] ([Some r] once aborted
    with reason [r]) and [closed] tells that the stream left its readable
    state. Each batch of the queue is kept with the step of [start] whose
    [controller.enqueue] call delivered it. *)

Inductive Origin :=
| FromBuffer
| FromMr
| FromFileRec.

Definition priority (o : Origin) : nat :=
  match o with
  | FromBuffer => 0
  | FromMr => 1
  | FromFileRec => 2
  end.

Inductive LogArg :=
| LStr (s : string)
| LVal (e : Thrown).

Record State := {
  seen : gset string;
  queue : list (Origin * list Item);
  console : list (list LogArg);
  signal : option Thrown;
  closed : bool
}.

Definition initial_state : State :=
  {| seen := ∅; queue := []; console := []; signal := None; closed := false |}.

Definition M (A : Type) : Type := State -> Completion A * State.

Definition ret {A} (a : A) : M A := fun st => (Normal a, st).

Definition bind {A B} (m : M A) (k : A -> M B) : M B :=
  fun st =>
    match m st with
    | (Normal a, st') => k a st'
    | (Throw e, st') => (Throw e, st')
    end.

Definition throw {A} (e : Thrown) : M A := fun st => (Throw e, st).

Definition await {A} (c : Completion A) : M A := fun st => (c, st).

Definition try_catch {A} (m : M A) (handler : Thrown -> M A) : M A :=
  fun st =>
    match m st with
    | (Normal a, st') => (Normal a, st')
    | (Throw e, st') => handler e st'
    end.

Definition finally {A} (m : M A) (f : State -> State) : M A :=
  fun st => let '(r, st') := m st in (r, f st').

Declare Scope js_scope.
Delimit Scope js_scope with js.
Notation "'let*' x ':=' m 'in' k" := (bind m (fun x => k))
  (at level 10, x name, m at level 100, k at level 200) : js_scope.
Notation "m ';;' k" := (bind m (fun _ => k))
  (at level 100, k at level 200, right associativity) : js_scope.
Open Scope js_scope.

(** [seen.has(k)] and [seen.add(k)]. *)
Definition seen_has (k : string) : M bool :=
  fun st => (Normal (bool_decide (k ∈ seen st)), st).

Definition seen_add (k : string) : M unit :=
  fun st =>
    (Normal tt,
     {| seen := {[k]} ∪ seen st; queue := queue st; console := console st;
        signal := signal st; closed := closed st |}).

(** [console.error(...args)]. *)
Definition console_error (args : list LogArg) : M unit :=
  fun st =>
    (Normal tt,
     {| seen := seen st; queue := queue st; console := console st ++ [args];
        signal := signal st; closed := closed st |}).

(** [controller.enqueue(batch)]: a stream that is no longer readable refuses
    the batch with a [TypeError]. *)
Definition typeError : Thrown := ErrorObject "TypeError".

Definition enqueue (o : Origin) (batch : list Item) : M unit :=
  fun st =>
    if closed st then (Throw typeError, st)
    else (Normal tt,
          {| seen := seen st; queue := queue st ++ [(o, batch)];
             console := console st; signal := signal st;
             closed := closed st |}).

(** [controller.close()]. *)
Definition close (st : State) : State :=
  {| seen := seen st; queue := queue st; console := console st;
     signal := signal st; closed := true |}.

(** [abortController.abort(reason)]: the first call sets the reason (a
    [DOMException] named [AbortError] when none is given), later calls change
    nothing. *)
Definition abortError : Thrown := DOMException "AbortError".

Definition abort (reason : option Thrown) (sig : option Thrown)
  : option Thrown :=
  match sig with
  | Some r => Some r
  | None => Some (default abortError reason)
  end.

(** The consumer cancels the stream: the stream is closed and the source's
    [cancel(reason)] callback aborts the controller. *)
Definition cancel (reason : option Thrown) : M unit :=
  fun st =>
    (Normal tt,
     {| seen := seen st; queue := queue st; console := console st;
        signal := abort reason (signal st); closed := true |}).

(** The part of [GatherArguments] that [gather] reads. *)
Record Context := { bufNr : Z; context_path : TreePath }.

Record SourceOptions := { sourceOptions_path : TreePath }.

Record GatherArguments := {
  denops : Denops;
  context : Context;
  sourceOptions : SourceOptions;
  sourceParams : Params
}.

(** [treePath.length]. *)
Definition TreePath_length (treePath : TreePath) : nat :=
  match treePath with
  | TreePathString s => String.length s
  | TreePathArray l => length l
  end.

(** ** The sub-sources

    [join], [relative] and [resolve] of [@std/path] and its [SEPARATOR] are
    taken as they come from the library. *)

Section TriSource.

Variable pathsep : string.
Variable join : string -> string -> string.
Variable relative : string -> string -> string.
Variable resolve : string -> string -> string.

Definition treePath2Filename (treePath : TreePath) : string :=
  match treePath with
  | TreePathString s => s
  | TreePathArray l => String.concat pathsep l
  end.

(** *** Buffer *)

(** The comparator handed to [sort] in [gatherBuffer]. *)
Definition buffer_compare (orderby : string) (bufNr : Z) (a b : BufInfo.t)
  : Z :=
  if String.eqb orderby "desc" then
    if BufInfo.bufnr a =? bufNr then 1
    else if BufInfo.bufnr b =? bufNr then -1
    else BufInfo.lastused b - BufInfo.lastused a
  else BufInfo.lastused a - BufInfo.lastused b.

(** [typeof uBufType === "string" ? uBufType : ""]. *)
Definition bufType_of (u : JsValue) : string :=
  match u with JString s => s | _ => "" end.

(** The text shown for one buffer. *)
Definition buffer_word (bufNr alternateBufNr : Z) (currentDir : string)
    (buf : BufInfo.t) : string :=
  let isCurrent := bufNr =? BufInfo.bufnr buf in
  let isAlternate := alternateBufNr =? BufInfo.bufnr buf in
  let isModified := BufInfo.changed buf in
  let curMarker := if isCurrent then "%" else "" in
  let altMarker := if isAlternate then "#" else "" in
  let modMarker := if isModified then "+" else " " in
  let bufnrStr := padStart (String_of_number (BufInfo.bufnr buf)) 2 in
  let bufMark := padStart (curMarker +:+ altMarker) 2 in
  let relPath := relative currentDir (BufInfo.name buf) in
  let displayName :=
    if startsWith relPath ".." then BufInfo.name buf else relPath in
  bufnrStr +:+ " " +:+ bufMark +:+ " " +:+ modMarker +:+ " " +:+ displayName.

(** The [for (const buf of sorted)] loop of [gatherBuffer]. *)
Fixpoint gatherBuffer_loop (denops : Denops) (bufNr alternateBufNr : Z)
    (currentDir : string) (dedup showPrefix : bool)
    (sorted : list BufInfo.t) : M (list Item) :=
  match sorted with
  | [] => ret []
  | buf :: rest =>
      let continue :=
        gatherBuffer_loop denops bufNr alternateBufNr currentDir dedup
          showPrefix rest in
      let name := BufInfo.name buf in
      if String.eqb name "" then continue
      else
        let* uBufType := await (call_getbufvar denops (BufInfo.bufnr buf)) in
        let bufType := bufType_of uBufType in
        if String.eqb bufType "terminal" then continue
        else
          let absPath := normalizePath name in
          let* skip :=
            (if dedup then
               let* has := seen_has absPath in
               if has then ret true else (seen_add absPath ;; ret false)
             else ret false) in
          if (skip : bool) then continue
          else
            let item :=
              makeItem (buffer_word bufNr alternateBufNr currentDir buf)
                name "buf" showPrefix false in
            let* items := continue in
            ret (item :: items)
  end.

Definition gatherBuffer (denops : Denops) (bufNr : Z) (orderby : string)
    (dedup showPrefix : bool) : M (list Item) :=
  let* info := await (call_getbufinfo denops) in
  let sorted :=
    js_sort (buffer_compare orderby bufNr)
      (List.filter BufInfo.listed (buffers info)) in
  gatherBuffer_loop denops bufNr (alternateBufNr info) (currentDir info)
    dedup showPrefix sorted.

(** *** MRU *)

(** The [for (const path of result)] loop of [gatherMr]. *)
Fixpoint gatherMr_loop (mrKind : string) (isDir : list string)
    (dedup showPrefix : bool) (result : list string) : M (list Item) :=
  match result with
  | [] => ret []
  | path :: rest =>
      let continue := gatherMr_loop mrKind isDir dedup showPrefix rest in
      let norm := normalizePath path in
      let* skip :=
        (if dedup then
           let* has := seen_has norm in
           if has then ret true else (seen_add norm ;; ret false)
         else ret false) in
      if (skip : bool) then continue
      else
        let item :=
          makeItem path path mrKind showPrefix
            (bool_decide (mrKind ∈ isDir)) in
        let* items := continue in
        ret (item :: items)
  end.

Definition mr_unavailable : string :=
  "[ddu-source-tri_source] Failed to call vim-mr. Check 'runtimepath' and plugin version.".

(** The value of the [try] block of [gatherMr]. *)
Definition mr_list (denops : Denops) (mrKind : string)
  : Completion (list string) :=
  match deadline (dispatch denops "mr" (mrKind +:+ ":list")) 1000 with
  | Normal x => ensure_ArrayOf_String x
  | Throw e => Throw e
  end.

Definition gatherMr (denops : Denops) (mrKind : string)
    (dedup showPrefix : bool) : M (list Item) :=
  let isDir := ["mrr"; "mrd"]%string in
  match mr_list denops mrKind with
  | Throw e =>
      (if instanceof_DOMException e
       then console_error [LStr mr_unavailable]
       else console_error [LStr "[ddu-source-tri_source]"; LVal e]) ;;
      ret []
  | Normal result => gatherMr_loop mrKind isDir dedup showPrefix result
  end.

(** *** file_rec *)

Definition readStat (fs : Fs) (path : string) (expandSymbolicLink : bool)
  : option FileInfo.t :=
  match lstat fs path with
  | None => None
  | Some stat_ =>
      if FileInfo.isSymlink stat_ && expandSymbolicLink then
        match stat fs path with
        | None => None
        | Some s =>
            Some (FileInfo.mk (FileInfo.isFile s) (FileInfo.isDirectory s) true)
        end
      else Some stat_
  end.

(** What the body of the [for await] loop of [inner] does with one entry. *)
Inductive EntryAction :=
| Vanished
| EmitFile
| Ignored
| Looped
| Descend
| RealPathThrows (e : Thrown).

Definition entry_action (fs : Fs) (ignoredDirectories : list string)
    (expandSymbolicLink : bool) (abspath name : string) : EntryAction :=
  match readStat fs abspath expandSymbolicLink with
  | None => Vanished
  | Some stat_ =>
      if negb (FileInfo.isDirectory stat_) then EmitFile
      else if bool_decide (name ∈ ignoredDirectories) then Ignored
      else if FileInfo.isSymlink stat_ && FileInfo.isDirectory stat_ then
        match realPath fs abspath with
        | Throw e => RealPathThrows e
        | Normal real => if includes abspath real then Looped else Descend
        end
      else Descend
  end.

(** What the consumer of the generator sees: the chunks it yields, and the
    moments at which the consumer itself cancelled the stream. *)
Inductive Event :=
| EYield (chunk : list Item)
| ECancel (reason : Reason).

(** How a generator ends. *)
Inductive WalkEnd :=
| Returned
| Threw (e : Thrown).

(** The [catch] clause of [inner]. *)
Definition inner_catch (e : Thrown) : WalkEnd :=
  if instanceof_PermissionDenied e then Returned else Threw e.

Definition file_item (root abspath : string) : Item :=
  {| word := relative root abspath;
     display := None;
     highlights := None;
     action := {| path := abspath; isDirectory := false |} |}.

Section Walk.
Variable fs : Fs.
Variable root : string.
Variable ignoredDirectories : list string.
Variable chunkSize : Z.
Variable expandSymbolicLink : bool.

(** The loop of [inner(dir)], entered with the chunk collected so far and
    the state of the signal; it gives the events, the way the generator
    ends and the state of the signal at that point. *)
Fixpoint inner_loop (sig : option Thrown) (dir : string)
    (chunk : list Item) (l : Listing)
  : list Event * WalkEnd * option Thrown :=
  match sig with
  | Some r => ([], inner_catch r, sig)
  | None =>
      match l with
      | EndOfDir =>
          (match chunk with [] => [] | _ => [EYield chunk] end,
           Returned, sig)
      | ReadThrows e => ([], inner_catch e, sig)
      | CancelDuringRead reason =>
          ([ECancel reason], inner_catch (default abortError reason),
           abort reason sig)
      | NextEntry name interrupt sub rest =>
          let abspath := join dir name in
          let sig1 :=
            match interrupt with
            | Some reason => abort reason sig
            | None => sig
            end in
          let cancelled :=
            match interrupt with
            | Some reason => [ECancel reason]
            | None => []
            end in
          match
            entry_action fs ignoredDirectories expandSymbolicLink abspath
              name
          with
          | Vanished | Ignored | Looped =>
              let '(evs, e, s) := inner_loop sig1 dir chunk rest in
              (cancelled ++ evs, e, s)
          | EmitFile =>
              let chunk' := chunk ++ [file_item root abspath] in
              if Z.of_nat (length chunk') >=? chunkSize then
                let '(evs, e, s) := inner_loop sig1 dir [] rest in
                (cancelled ++ EYield chunk' :: evs, e, s)
              else
                let '(evs, e, s) := inner_loop sig1 dir chunk' rest in
                (cancelled ++ evs, e, s)
          | RealPathThrows e => (cancelled, inner_catch e, sig1)
          | Descend =>
              let '(evs1, e1, s1) := inner_loop sig1 abspath [] sub in
              match e1 with
              | Threw e => (cancelled ++ evs1, inner_catch e, s1)
              | Returned =>
                  let '(evs2, e2, s2) := inner_loop s1 dir chunk rest in
                  (cancelled ++ evs1 ++ evs2, e2, s2)
              end
          end
      end
  end.

Definition inner (sig : option Thrown) (dir : string) (l : Listing)
  : list Event * WalkEnd * option Thrown :=
  inner_loop sig dir [] l.

Definition walkFiles (sig : option Thrown) (l : Listing)
  : list Event * WalkEnd * option Thrown :=
  inner sig root l.
End Walk.

(** ** Main source *)

(** The callback of [chunk.filter] in [gather]. *)
Fixpoint dedup_filter (chunk : list Item) : M (list Item) :=
  match chunk with
  | [] => ret []
  | item :: rest =>
      let actionPath := path (action item) in
      let* keep :=
        (if String.eqb actionPath "" then ret true
         else
           let p := normalizePath actionPath in
           let* has := seen_has p in
           if has then ret false else (seen_add p ;; ret true)) in
      let* kept := dedup_filter rest in
      ret (if (keep : bool) then item :: kept else kept)
  end.

(** The [[rec]] prefix that [gather] writes into the items of a chunk. *)
Definition add_rec_prefix (item : Item) : Item :=
  let prefix := "[rec] " in
  {| word := word item;
     display := Some (prefix +:+ word item);
     highlights :=
       Some [ItemHighlight.mk "ddu_tri_source_rec" "DduTriSource_rec" 1
               (Z.of_nat (String.length prefix))];
     action := action item |}.

(** What the loop of [gather] does to a chunk before it appends it to
    [pendingItems]: the filter when [dedup] is set, the prefix when
    [showSourcePrefix] is set. *)
Definition prepare_chunk (params : Params) (chunk : list Item)
  : M (list Item) :=
  let* filtered :=
    (if dedup params then dedup_filter chunk else ret chunk) in
  ret (if showSourcePrefix params then map add_rec_prefix filtered
       else filtered).

(** The [for await (const chunk of walkFiles(...))] loop of [gather], run
    over the events of the walk, and its two variables. *)
Fixpoint for_await (params : Params) (events : list Event)
    (enqueueSize : Z) (pendingItems : list Item) : M (Z * list Item) :=
  match events with
  | [] => ret (enqueueSize, pendingItems)
  | ECancel reason :: events' =>
      cancel reason ;; for_await params events' enqueueSize pendingItems
  | EYield chunk :: events' =>
      let* filtered := prepare_chunk params chunk in
      let pendingItems := pendingItems ++ filtered in
      if Z.of_nat (length pendingItems) >=? enqueueSize then
        enqueue FromFileRec pendingItems ;;
        for_await params events' (10 * chunkSize params) []
      else for_await params events' enqueueSize pendingItems
  end.

Definition gather_root (args : GatherArguments) : string :=
  let root :=
    treePath2Filename
      (if negb (TreePath_length (sourceOptions_path (sourceOptions args))
                =? 0)%nat
       then sourceOptions_path (sourceOptions args)
       else context_path (context args)) in
  resolve root root.

(** The events of the walk started by [gather] under signal state [sig]. *)
Definition gather_walk (args : GatherArguments) (fs : Fs) (tree : Listing)
    (sig : option Thrown) : list Event * WalkEnd * option Thrown :=
  let params := sourceParams args in
  walkFiles fs (gather_root args) (ignoredDirectories params)
    (chunkSize params) (expandSymbolicLink params) sig tree.

(** 1. Buffer list *)
Definition gather_buffer (args : GatherArguments) : M unit :=
  let params := sourceParams args in
  if enableBuffer params then
    let* bufItems :=
      gatherBuffer (denops args) (bufNr (context args))
        (bufferOrderby params) (dedup params) (showSourcePrefix params) in
    if (0 <? length bufItems)%nat then enqueue FromBuffer bufItems else ret tt
  else ret tt.

(** 2. MRU list *)
Definition gather_mr (args : GatherArguments) : M unit :=
  let params := sourceParams args in
  if enableMr params then
    let* mrItems :=
      gatherMr (denops args) (mrKind params) (dedup params)
        (showSourcePrefix params) in
    if (0 <? length mrItems)%nat then enqueue FromMr mrItems else ret tt
  else ret tt.

(** 3. file_rec (streaming) *)
Definition gather_fileRec (args : GatherArguments) (fs : Fs)
    (tree : Listing) : M unit :=
  let params := sourceParams args in
  if enableFileRec params then
    fun st =>
      let '(events, walk_end, _) := gather_walk args fs tree (signal st) in
      (let* vars := for_await params events (chunkSize params) [] in
       let pendingItems := snd vars in
       match walk_end with
       | Threw e => throw e
       | Returned =>
           if (0 <? length pendingItems)%nat
           then enqueue FromFileRec pendingItems
           else ret tt
       end) st
  else ret tt.

(** The [catch] clause of [start]. *)
Definition is_AbortReason (e : Thrown) : bool :=
  instanceof_Error e && includes (error_name e) "AbortReason".

Definition start_catch (e : Thrown) : M unit :=
  if is_AbortReason e then ret tt else console_error [LVal e].

(** [start(controller)]: the three steps, the [catch] and the [finally]. *)
Definition start (args : GatherArguments) (fs : Fs) (tree : Listing)
  : M unit :=
  finally
    (try_catch
       (gather_buffer args ;; gather_mr args ;; gather_fileRec args fs tree)
       start_catch)
    close.

(** [gather(args)]: the state in which [start] leaves a fresh stream. *)
Definition gather (args : GatherArguments) (fs : Fs) (tree : Listing)
  : State :=
  snd (start args fs tree initial_state).

(** The items delivered to the consumer, in delivery order, each with the
    step that delivered it. *)
Definition delivered (st : State) : list (Origin * Item) :=
  concat (map (fun b => map (pair (fst b)) (snd b)) (queue st)).

(** [Source.params()]. *)
Definition params : Params :=
  {| enableBuffer := true;
     enableMr := true;
     enableFileRec := true;
     ignoredDirectories := [".git"%string];
     chunkSize := 1000;
     expandSymbolicLink := false;
     mrKind := "mru";
     bufferOrderby := "desc";
     dedup := true;
     showSourcePrefix := true |}.

(** ** The consumer cancels before the walk

    [start] awaits [gatherBuffer] and [gatherMr], and the consumer may cancel
    the stream while either is pending. Neither looks at the signal or at
    the stream, so the awaited call runs to its end, on a stream that is
    closed and under a signal that is aborted. [start], above, is the run in
    which the consumer lets both lists arrive; the cancellations during the
    walk are part of its [Listing]. *)

Record Cancels := {
  during_buffer : option Reason;
  during_mr : option Reason
}.

Definition no_cancels : Cancels :=
  {| during_buffer := None; during_mr := None |}.

(** [await m] while the consumer cancels with [reason], if it does. *)
Definition awaiting {A} (c : option Reason) (m : M A) : M A :=
  match c with
  | Some reason => finally m (fun st => (cancel reason st).2)
  | None => m
  end.

Definition gather_buffer_under (c : option Reason) (args : GatherArguments)
  : M unit :=
  let params := sourceParams args in
  if enableBuffer params then
    let* bufItems :=
      awaiting c
        (gatherBuffer (denops args) (bufNr (context args))
           (bufferOrderby params) (dedup params) (showSourcePrefix params)) in
    if (0 <? length bufItems)%nat then enqueue FromBuffer bufItems else ret tt
  else ret tt.

Definition gather_mr_under (c : option Reason) (args : GatherArguments)
  : M unit :=
  let params := sourceParams args in
  if enableMr params then
    let* mrItems :=
      awaiting c
        (gatherMr (denops args) (mrKind params) (dedup params)
           (showSourcePrefix params)) in
    if (0 <? length mrItems)%nat then enqueue FromMr mrItems else ret tt
  else ret tt.

(** [start(controller)] with the cancellations of the consumer. *)
Definition start_under (cs : Cancels) (args : GatherArguments) (fs : Fs)
    (tree : Listing) : M unit :=
  finally
    (try_catch
       (gather_buffer_under (during_buffer cs) args ;;
        gather_mr_under (during_mr cs) args ;;
        gather_fileRec args fs tree)
       start_catch)
    close.

Definition gather_under (cs : Cancels) (args : GatherArguments) (fs : Fs)
    (tree : Listing) : State :=
  snd (start_under cs args fs tree initial_state).

(** ** onInit

    [denops.cmd(command)] is answered by the host; the commands handed to it
    are kept in the order they were sent. *)

Definition Cmd (A : Type) : Type := list string -> Completion A * list string.

Definition cmd_ret {A} (a : A) : Cmd A := fun sent => (Normal a, sent).

Definition cmd_bind {A B} (m : Cmd A) (k : A -> Cmd B) : Cmd B :=
  fun sent =>
    match m sent with
    | (Normal a, sent') => k a sent'
    | (Throw e, sent') => (Throw e, sent')
    end.

Definition denops_cmd (answer : string -> Completion unit) (command : string)
  : Cmd unit :=
  fun sent => (answer command, sent ++ [command]).

(** The [for (const kind of [...])] loop of [onInit]. *)
Fixpoint onInit_kinds (answer : string -> Completion unit)
    (kinds : list string) : Cmd unit :=
  match kinds with
  | [] => cmd_ret tt
  | kind :: rest =>
      cmd_bind
        (denops_cmd answer
           ("highlight default DduTriSource_" +:+ kind
            +:+ " ctermfg=Yellow guifg=#e5c07b"))
        (fun _ => onInit_kinds answer rest)
  end.

Definition onInit (answer : string -> Completion unit) : Cmd unit :=
  cmd_bind
    (denops_cmd answer
       "highlight default DduTriSource_buf ctermfg=Green guifg=#98c379")
    (fun _ =>
       cmd_bind (onInit_kinds answer ["mru"; "mrw"; "mrr"; "mrd"]%string)
         (fun _ =>
            denops_cmd answer
              "highlight default DduTriSource_rec ctermfg=Blue guifg=#61afef")).

(** The values of the type [SourceTag]. *)
Definition source_tags : list string :=
  ["buf"; "mru"; "mrw"; "mrr"; "mrd"; "rec"]%string.

(** ** Vocabulary of the properties *)

Definition set_seen (s : gset string) (st : State) : State :=
  {| seen := s; queue := queue st; console := console st;
     signal := signal st; closed := closed st |}.

(** The item [gatherMr] builds for one path of the list. *)
Definition mr_item (mrKind : string) (showPrefix : bool) (p : string) : Item :=
  makeItem p p mrKind showPrefix
    (bool_decide (mrKind ∈ ["mrr"; "mrd"]%string)).

(** The item [gatherBuffer] builds for one buffer. *)
Definition buffer_item (bufNr alternateBufNr : Z) (currentDir : string)
    (showPrefix : bool) (buf : BufInfo.t) : Item :=
  makeItem (buffer_word bufNr alternateBufNr currentDir buf)
    (BufInfo.name buf) "buf" showPrefix false.

(** The buffers for which [gatherBuffer] builds an item when nothing is
    filtered: named, and not reported as terminals. *)
Definition buffer_candidate (denops : Denops) (buf : BufInfo.t) : bool :=
  negb (String.eqb (BufInfo.name buf) "") &&
  match call_getbufvar denops (BufInfo.bufnr buf) with
  | Normal u => negb (String.eqb (bufType_of u) "terminal")
  | Throw _ => false
  end.

(** The keys each source produces, whatever is filtered afterwards. *)
Definition produces_buffer (denops : Denops) (k : string) : Prop :=
  exists info buf,
    call_getbufinfo denops = Normal info
    /\ buf ∈ buffers info
    /\ BufInfo.listed buf = true
    /\ buffer_candidate denops buf = true
    /\ normalizePath (BufInfo.name buf) = k.

Definition produces_mr (denops : Denops) (mrKind : string) (k : string)
  : Prop :=
  exists result p,
    mr_list denops mrKind = Normal result
    /\ p ∈ result
    /\ normalizePath p = k.

Definition yields (events : list Event) (x : Item) : Prop :=
  exists chunk, EYield chunk ∈ events /\ x ∈ chunk.

Definition produces_fileRec (args : GatherArguments) (fs : Fs)
    (tree : Listing) (k : string) : Prop :=
  exists x, yields (gather_walk args fs tree None).1.1 x /\ dedupKey x = k.

Definition produces (args : GatherArguments) (fs : Fs) (tree : Listing)
    (o : Origin) (k : string) : Prop :=
  match o with
  | FromBuffer =>
      enableBuffer (sourceParams args) = true
      /\ produces_buffer (denops args) k
  | FromMr =>
      enableMr (sourceParams args) = true
      /\ produces_mr (denops args) (mrKind (sourceParams args)) k
  | FromFileRec =>
      enableFileRec (sourceParams args) = true
      /\ produces_fileRec args fs tree k
  end.

(** The items the walker builds. *)
Definition walker_item (root : string) (x : Item) : Prop :=
  exists d n, x = file_item root (join d n).

(** No batch of the queue is empty. *)
Definition batches_nonempty (st : State) : Prop :=
  forall o batch, (o, batch) ∈ queue st -> batch <> [].

(** The priorities of the batches of the queue, in delivery order, and the
    property that they never decrease and stay below a bound. *)
Definition origins (st : State) : list nat :=
  map (fun b => priority b.1) (queue st).

Definition ordered_upto (n : nat) (st : State) : Prop :=
  StronglySorted Nat.le (origins st)
  /\ Forall (fun p => (p <= n)%nat) (origins st).

(** The keys of the delivered items, in delivery order. *)
Definition delivered_keys (st : State) : list string :=
  map (fun ox => dedupKey ox.2) (delivered st).

(** Every delivered item comes from a source that produces its key, and no
    source of higher priority produces that key. *)
Definition earliest_source (args : GatherArguments) (fs : Fs)
    (tree : Listing) (st : State) : Prop :=
  forall o x,
    (o, x) ∈ delivered st ->
    produces args fs tree o (dedupKey x)
    /\ forall o', (priority o' < priority o)%nat ->
                  ~ produces args fs tree o' (dedupKey x).

(** The invariant of a run with [dedup] set. *)
Definition dedup_invariant (args : GatherArguments) (fs : Fs)
    (tree : Listing) (st : State) : Prop :=
  NoDup (delivered_keys st)
  /\ (forall k, k ∈ delivered_keys st -> k ∈ seen st)
  /\ earliest_source args fs tree st.

(** The chunk emitter as the specification words it: the threshold of the
    first emission is the base chunk size, the threshold of every later
    emission is ten times the base; batches are buffered until the threshold
    in force is met, and what is left when the walk ends is flushed whatever
    the threshold. *)
Definition emission_threshold (base : Z) (emitted : nat) : Z :=
  match emitted with
  | O => base
  | S _ => 10 * base
  end.

Fixpoint chunk_emitter_run (base : Z) (emitted : nat)
    (buffered : list Item) (batches : list (list Item))
  : list (list Item) * list Item * nat :=
  match batches with
  | [] => ([], buffered, emitted)
  | batch :: rest =>
      let buffered' := buffered ++ batch in
      if Z.of_nat (length buffered') >=? emission_threshold base emitted then
        let '(out, remaining, n) := chunk_emitter_run base (S emitted) [] rest in
        (buffered' :: out, remaining, n)
      else chunk_emitter_run base emitted buffered' rest
  end.

Definition chunk_emitter (base : Z) (batches : list (list Item))
  : list (list Item) :=
  let '(out, remaining, _) := chunk_emitter_run base 0 [] batches in
  out ++ match remaining with [] => [] | _ => [remaining] end.

(** The chunks of a walk as the loop of [gather] appends them to
    [pendingItems], when the registry holds [S] at the start. *)
Definition prepared (params : Params) (S : gset string) (chunk : list Item)
  : list Item * gset string :=
  match prepare_chunk params chunk (set_seen S initial_state) with
  | (Normal filtered, st) => (filtered, seen st)
  | (Throw _, st) => ([], seen st)
  end.

Fixpoint prepared_chunks (params : Params) (S : gset string)
    (chunks : list (list Item)) : list (list Item) * gset string :=
  match chunks with
  | [] => ([], S)
  | chunk :: rest =>
      let '(filtered, S') := prepared params S chunk in
      let '(more, S'') := prepared_chunks params S' rest in
      (filtered :: more, S'')
  end.

Definition set_queue (q : list (Origin * list Item)) (st : State) : State :=
  {| seen := seen st; queue := q; console := console st;
     signal := signal st; closed := closed st |}.

(** The MRU call fails: the promise settles too late or never, it rejects,
    or it resolves to something else than an array of strings. *)
Definition mr_call_fails (p : DispatchOutcome) : bool :=
  match p with
  | Resolves ms v =>
      (1000 <=? ms)
      || match ensure_ArrayOf_String v with
         | Normal _ => false
         | Throw _ => true
         end
  | Rejects _ _ => true
  | NeverSettles => true
  end.

(** The same arguments with the MRU source switched off. *)
Definition without_mr (args : GatherArguments) : GatherArguments :=
  let p := sourceParams args in
  {| denops := denops args;
     context := context args;
     sourceOptions := sourceOptions args;
     sourceParams :=
       {| enableBuffer := enableBuffer p;
          enableMr := false;
          enableFileRec := enableFileRec p;
          ignoredDirectories := ignoredDirectories p;
          chunkSize := chunkSize p;
          expandSymbolicLink := expandSymbolicLink p;
          mrKind := mrKind p;
          bufferOrderby := bufferOrderby p;
          dedup := dedup p;
          showSourcePrefix := showSourcePrefix p |} |}.

(** [st] with the lines [l] logged before everything else. *)
Definition add_log (l : list (list LogArg)) (st : State) : State :=
  {| seen := seen st; queue := queue st; console := l ++ console st;
     signal := signal st; closed := closed st |}.

(** The line [gatherMr] logs for the exception [e]. *)
Definition mr_diagnostic (e : Thrown) : list LogArg :=
  if instanceof_DOMException e then [LStr mr_unavailable]
  else [LStr "[ddu-source-tri_source]"; LVal e].

(** [m] neither reads the console nor does anything but append to it. *)
Definition log_frame {A} (m : M A) : Prop :=
  forall l st, m (add_log l st) = ((m st).1, add_log l (m st).2).

(** The provenance tag of each step, and what it is for an item to carry
    it: the prefix in [display] and the highlight over it. *)
Definition source_tag (params : Params) (o : Origin) : string :=
  match o with
  | FromBuffer => "buf"
  | FromMr => mrKind params
  | FromFileRec => "rec"
  end.

Definition tagged (params : Params) (o : Origin) (x : Item) : Prop :=
  let tag := source_tag params o in
  display x = Some (("[" +:+ tag +:+ "] ") +:+ word x)
  /\ highlights x
     = Some [ItemHighlight.mk ("ddu_tri_source_" +:+ tag)
               ("DduTriSource_" +:+ tag) 1
               (Z.of_nat (String.length ("[" +:+ tag +:+ "] ")))].

(** What each source produces when nothing is filtered: an item for every
    listed, named buffer that is no terminal, in sorted order; an item for
    every path of the MRU list; the items the walk yields. *)
Definition buffer_items (args : GatherArguments) : list Item :=
  let p := sourceParams args in
  if enableBuffer p then
    match call_getbufinfo (denops args) with
    | Normal info =>
        map (buffer_item (bufNr (context args)) (alternateBufNr info)
               (currentDir info) (showSourcePrefix p))
          (List.filter (buffer_candidate (denops args))
             (js_sort (buffer_compare (bufferOrderby p) (bufNr (context args)))
                (List.filter BufInfo.listed (buffers info))))
    | Throw _ => []
    end
  else [].

Definition mr_items (args : GatherArguments) : list Item :=
  let p := sourceParams args in
  if enableMr p then
    match mr_list (denops args) (mrKind p) with
    | Normal result => map (mr_item (mrKind p) (showSourcePrefix p)) result
    | Throw _ => []
    end
  else [].

Definition fileRec_items (args : GatherArguments) (chunks : list (list Item))
  : list Item :=
  let p := sourceParams args in
  if enableFileRec p then
    if showSourcePrefix p then map add_rec_prefix (concat chunks)
    else concat chunks
  else [].

Definition is_yield (ev : Event) : bool :=
  match ev with
  | EYield _ => true
  | ECancel _ => false
  end.

(** The stream was cancelled with reason [r] when its queue was [q]. *)
Definition cancelled_with (r : Thrown) (q : list (Origin * list Item))
    (st : State) : Prop :=
  queue st = q /\ signal st = Some r /\ closed st = true.

(** The signal and the stream go together: the stream is readable while
    the signal is not aborted, and closed once it is. *)
Definition stream_wf (st : State) : Prop :=
  match signal st with
  | None => closed st = false
  | Some _ => closed st = true
  end.

(** The line the [catch] of [start] logs for the exception [e]. *)
Definition catch_log (e : Thrown) : list (list LogArg) :=
  if is_AbortReason e then [] else [[LVal e]].

(** The items of the chunk that the walker yields after the cancellation,
    if it yields one, as [gather] prepares them when the registry holds
    [S]. *)
Definition tail_items (params : Params) (S : gset string)
    (tail : list Event) : list Item :=
  match tail with
  | EYield chunk :: _ => (prepared params S chunk).1
  | _ => []
  end.

(** What [start] logs when the stream was cancelled before the walk ended:
    the [TypeError] of [controller.enqueue] when the loop or the final flush
    offers the buffered items to the closed stream, and else the exception
    the walker ended with. *)
Definition cancelled_walk_log (offered : bool) (walk_end : WalkEnd)
    (pending : list Item) : list (list LogArg) :=
  if offered then [[LVal typeError]]
  else match walk_end with
       | Threw e => catch_log e
       | Returned =>
           if (0 <? length pending)%nat then [[LVal typeError]] else []
       end.

(** What a walk that the consumer cancelled with [r] ends with: the reason
    of the cancellation, or the failure of [Deno.realPath] on the entry that
    was in progress when the consumer cancelled. *)
Definition ends_cancelled (fs : Fs) (r : Thrown) (e : WalkEnd) : Prop :=
  e = inner_catch r
  \/ exists abspath e', realPath fs abspath = Throw e' /\ e = inner_catch e'.

(** ** Tactics *)

(** Closes the side goals about the shape of a list of events. *)
Ltac close_shape :=
  cbn;
  repeat match goal with |- _ /\ _ => split end;
  try reflexivity; try assumption; repeat constructor; cbn; lia.

(** ** Vocabulary of the further properties *)

(** A run of [n] slashes. *)
Definition slashes (n : nat) : string := repeat_string n "/".

(** [p.endsWith("/")]. *)
Fixpoint endsWith_slash (p : string) : bool :=
  match p with
  | EmptyString => false
  | String c p' =>
      match p' with
      | EmptyString => Ascii.eqb c "/"
      | String _ _ => endsWith_slash p'
      end
  end.

(** The walker comes to the entry [n] of the directory [d] when it reads
    the listing [l] of [dir]: [n] is an entry of [l] itself, or an entry the
    walker comes to in the listing of an entry of [l] that [readStat]
    reports as a directory and whose name is not on the ignore list. *)
Inductive walks_to (fs : Fs) (ignored : list string) (expand : bool)
  : string -> Listing -> string -> string -> Prop :=
| walks_to_here dir name interrupt sub rest :
    walks_to fs ignored expand dir (NextEntry name interrupt sub rest)
      dir name
| walks_to_later dir name interrupt sub rest d n :
    walks_to fs ignored expand dir rest d n ->
    walks_to fs ignored expand dir (NextEntry name interrupt sub rest) d n
| walks_to_below dir name interrupt sub rest info d n :
    readStat fs (join dir name) expand = Some info ->
    FileInfo.isDirectory info = true ->
    name ∉ ignored ->
    walks_to fs ignored expand (join dir name) sub d n ->
    walks_to fs ignored expand dir (NextEntry name interrupt sub rest) d n.

(** The item of an entry which [R] holds of and which [readStat] reports as
    no directory. *)
Definition file_entry (fs : Fs) (root : string) (expand : bool)
    (R : string -> string -> Prop) (x : Item) : Prop :=
  exists d n info,
    R d n
    /\ readStat fs (join d n) expand = Some info
    /\ FileInfo.isDirectory info = false
    /\ x = {| word := relative root (join d n);
              display := None;
              highlights := None;
              action := {| path := join d n; isDirectory := false |} |}.

(** Every chunk yielded among [events] satisfies [P]. *)
Definition each_chunk (P : list Item -> Prop) (events : list Event) : Prop :=
  Forall (fun ev => match ev with EYield c => P c | ECancel _ => True end)
    events.

(** The items of the chunks among [events], in the order they are
    yielded. *)
Definition yielded_items (events : list Event) : list Item :=
  flat_map (fun ev => match ev with EYield c => c | ECancel _ => [] end)
    events.

(** The files of a tree when links are not followed, as the listings and
    [Deno.lstat] give them: an item for every entry that [Deno.lstat]
    reports as no directory, and the files of every entry that it reports
    as a directory and whose name is not on the ignore list. A directory
    that cannot be opened holds no file. *)
Fixpoint tree_files (fs : Fs) (root : string) (ignored : list string)
    (dir : string) (l : Listing) : list Item :=
  match l with
  | NextEntry name _ sub rest =>
      let abspath := join dir name in
      match lstat fs abspath with
      | None => tree_files fs root ignored dir rest
      | Some info =>
          if FileInfo.isDirectory info then
            if bool_decide (name ∈ ignored)
            then tree_files fs root ignored dir rest
            else tree_files fs root ignored abspath sub
                 ++ tree_files fs root ignored dir rest
          else
            {| word := relative root abspath;
               display := None;
               highlights := None;
               action := {| path := abspath; isDirectory := false |} |}
            :: tree_files fs root ignored dir rest
      end
  | _ => []
  end.

(** Nothing disturbs the reading of a tree: the consumer does not cancel,
    and every directory that is read, the root and the directories below
    it whose names are not on the ignore list, is read to its end or, below
    the root, refused with a permission-denied error when it is opened. *)
Fixpoint undisturbed (fs : Fs) (ignored : list string) (dir : string)
    (l : Listing) : bool :=
  match l with
  | EndOfDir => true
  | ReadThrows _ => false
  | CancelDuringRead _ => false
  | NextEntry name interrupt sub rest =>
      match interrupt with
      | Some _ => false
      | None =>
          let abspath := join dir name in
          match lstat fs abspath with
          | None => undisturbed fs ignored dir rest
          | Some info =>
              if FileInfo.isDirectory info
                 && negb (bool_decide (name ∈ ignored))
              then
                match sub with
                | ReadThrows e => instanceof_PermissionDenied e
                | _ => undisturbed fs ignored abspath sub
                end
                && undisturbed fs ignored dir rest
              else undisturbed fs ignored dir rest
          end
      end
  end.

(** The order of the list of [gatherBuffer]. With [desc], the value
    [Source.params()] gives, a buffer stands before another when it is not
    the current one and the other is the current one or was not used
    later; with any other value, when it was not used later. *)
Definition buffer_before (orderby : string) (bufNr : Z) (a b : BufInfo.t)
  : Prop :=
  if String.eqb orderby "desc" then
    BufInfo.bufnr a <> bufNr
    /\ (BufInfo.bufnr b = bufNr \/ BufInfo.lastused b <= BufInfo.lastused a)
  else BufInfo.lastused a <= BufInfo.lastused b.

(** The same arguments with another host. *)
Definition set_denops (d : Denops) (args : GatherArguments)
  : GatherArguments :=
  {| denops := d;
     context := context args;
     sourceOptions := sourceOptions args;
     sourceParams := sourceParams args |}.

(** The item [makeItem] builds for the step [o] from the word and the path
    of [x]; only the MRU kinds [mrr] and [mrd] stand for directories. *)
Definition item_of_source (params : Params) (o : Origin) (x : Item) : Item :=
  makeItem (word x) (path (action x)) (source_tag params o)
    (showSourcePrefix params)
    match o with
    | FromMr => bool_decide (mrKind params ∈ ["mrr"; "mrd"]%string)
    | _ => false
    end.

(** ** Tactics of the further properties *)

(** Goes through the answers of the host to the commands of [onInit]. *)
Ltac answer_cases answer H :=
  repeat match type of H with
         | context [answer ?c] =>
             destruct (answer c) as [[]|?]; cbn in H; try discriminate H
         end.

(** ** Example inputs

    A POSIX instance of the path functions, right on a normalized absolute
    directory and a plain entry name, and a small host: two listed buffers,
    an MRU list of two paths, and a root [/r] holding [a.txt], [.git/c.txt],
    [b.txt] and [sub/d.txt]. *)

Definition ex_join (d n : string) : string := d +:+ "/" +:+ n.

Fixpoint strip_prefix (p s : string) : option string :=
  match p, s with
  | EmptyString, _ => Some s
  | String a p', String b s' =>
      if Ascii.eqb a b then strip_prefix p' s' else None
  | _, _ => None
  end.

Definition ex_relative (from to : string) : string :=
  match strip_prefix (from +:+ "/") to with
  | Some r => r
  | None => to
  end.

Definition ex_resolve (_ p : string) : string := p.

Definition ex_file : FileInfo.t := FileInfo.mk true false false.
Definition ex_dir : FileInfo.t := FileInfo.mk false true false.
Definition ex_symlink : FileInfo.t := FileInfo.mk false false true.

Definition ex_buffers : GetBufInfoReturn :=
  {| currentDir := "/r";
     alternateBufNr := 2;
     buffers := [BufInfo.mk 1 false 10 true "/r/a.txt";
                 BufInfo.mk 2 true 20 true "/x/f.txt"] |}.

Definition ex_denops : Denops :=
  {| call_getbufinfo := Normal ex_buffers;
     call_getbufvar := fun _ => Normal (JString "");
     dispatch := fun _ _ =>
       Resolves 10 (JArray [JString "/x/f.txt"; JString "/r/b.txt"]) |}.

Definition ex_fs : Fs :=
  {| lstat := fun p =>
       if String.eqb p "/r/.git" || String.eqb p "/r/sub" then Some ex_dir
       else Some ex_file;
     stat := fun _ => Some ex_file;
     realPath := fun p => Normal p |}.

Definition ex_tree : Listing :=
  NextEntry "a.txt" None EndOfDir
    (NextEntry ".git" None (NextEntry "c.txt" None EndOfDir EndOfDir)
       (NextEntry "b.txt" None EndOfDir
          (NextEntry "sub" None (NextEntry "d.txt" None EndOfDir EndOfDir)
             EndOfDir))).

Definition ex_params (dedup_ showSourcePrefix_ : bool) : Params :=
  {| enableBuffer := true;
     enableMr := true;
     enableFileRec := true;
     ignoredDirectories := [".git"%string];
     chunkSize := 1;
     expandSymbolicLink := false;
     mrKind := "mru";
     bufferOrderby := "desc";
     dedup := dedup_;
     showSourcePrefix := showSourcePrefix_ |}.

Definition ex_args_on (d : Denops) (p : Params) : GatherArguments :=
  {| denops := d;
     context := {| bufNr := 1; context_path := TreePathString "/r" |};
     sourceOptions := {| sourceOptions_path := TreePathString "" |};
     sourceParams := p |}.

Definition ex_args : GatherArguments :=
  ex_args_on ex_denops (ex_params true true).

(** The chunks the walk of [ex_tree] yields. *)
Definition ex_chunks : list (list Item) :=
  [[{| word := "a.txt"; display := None; highlights := None;
       action := {| path := "/r/a.txt"; isDirectory := false |} |}];
   [{| word := "b.txt"; display := None; highlights := None;
       action := {| path := "/r/b.txt"; isDirectory := false |} |}];
   [{| word := "sub/d.txt"; display := None; highlights := None;
       action := {| path := "/r/sub/d.txt"; isDirectory := false |} |}]].

(** The MRU plugin does not answer. *)
Definition ex_denops_silent : Denops :=
  {| call_getbufinfo := Normal ex_buffers;
     call_getbufvar := fun _ => Normal (JString "");
     dispatch := fun _ _ => NeverSettles |}.

(** [/r/l] is a symbolic link. *)
Definition ex_fs_link : Fs :=
  {| lstat := fun p =>
       if String.eqb p "/r/l" then Some ex_symlink else Some ex_file;
     stat := fun _ => Some ex_dir;
     realPath := fun _ => Normal "/r" |}.

(** The consumer cancels while the walker waits for the entry after
    [a.txt]. *)
Definition ex_tree_cancelled (reason : Reason) : Listing :=
  NextEntry "a.txt" None EndOfDir (CancelDuringRead reason).

(** The reason ddu hands over when the picker is closed. *)
Definition ex_quit : Thrown := ErrorObject "QuitAbortReason".

(** [/a/b/l] is a symbolic link to the directory [/b], which holds
    [x.txt]. *)
Definition ex_fs_outside : Fs :=
  {| lstat := fun p =>
       if String.eqb p "/a/b/l" then Some ex_symlink else Some ex_file;
     stat := fun p =>
       if String.eqb p "/a/b/l" then Some ex_dir else Some ex_file;
     realPath := fun p =>
       if String.eqb p "/a/b/l" then Normal "/b" else Normal p |}.

Definition ex_tree_outside : Listing :=
  NextEntry "l" None (NextEntry "x.txt" None EndOfDir EndOfDir) EndOfDir.

(** Vim does not answer the request for its buffers. *)
Definition ex_denops_failing : Denops :=
  {| call_getbufinfo := Throw (ErrorObject "Error");
     call_getbufvar := fun _ => Normal (JString "");
     dispatch := fun _ _ => NeverSettles |}.

(** [/r/l] is a symbolic link whose target is missing. *)
Definition ex_fs_dangling : Fs :=
  {| lstat := fun p =>
       if String.eqb p "/r/l" then Some ex_symlink else Some ex_file;
     stat := fun p => if String.eqb p "/r/l" then None else Some ex_file;
     realPath := fun p => Normal p |}.

(** [/r/l] is a symbolic link to a directory that may not be resolved. *)
Definition ex_fs_unresolved : Fs :=
  {| lstat := fun p =>
       if String.eqb p "/r/l" then Some ex_symlink else Some ex_file;
     stat := fun p => if String.eqb p "/r/l" then Some ex_dir else Some ex_file;
     realPath := fun _ => Throw PermissionDenied |}.

(** The read of [/r] fails after [a.txt] and [b.txt]. *)
Definition ex_tree_failing : Listing :=
  NextEntry "a.txt" None EndOfDir
    (NextEntry "b.txt" None EndOfDir (ReadThrows (ErrorObject "Interrupted"))).

(** The consumer closes the picker while the walker looks at [c.txt], the
    only entry of [/r]. *)
Definition ex_tree_late_cancel : Listing :=
  NextEntry "c.txt" (Some (Some ex_quit)) EndOfDir EndOfDir.

(** The parameters of the examples with another [chunkSize]. *)
Definition ex_params_sized (size : Z) : Params :=
  {| enableBuffer := true;
     enableMr := true;
     enableFileRec := true;
     ignoredDirectories := [".git"%string];
     chunkSize := size;
     expandSymbolicLink := false;
     mrKind := "mru";
     bufferOrderby := "desc";
     dedup := true;
     showSourcePrefix := true |}.

(** The consumer closes the picker while the buffer list is awaited. *)
Definition ex_cancel_buffer : Cancels :=
  {| during_buffer := Some (Some ex_quit); during_mr := None |}.

(** The consumer closes the picker while the MRU list is awaited. *)
Definition ex_cancel_mr : Cancels :=
  {| during_buffer := None; during_mr := Some (Some ex_quit) |}.

(** [/r] holds [x.txt] and [y.txt]; the consumer closes the picker while the
    walker looks at [y.txt]. *)
Definition ex_tree_cancel_in_entry : Listing :=
  NextEntry "x.txt" None EndOfDir
    (NextEntry "y.txt" (Some (Some ex_quit)) EndOfDir EndOfDir).

(** The read of [/r] fails after [a.txt], [b.txt] and [c.txt]. *)
Definition ex_tree_failing_late : Listing :=
  NextEntry "a.txt" None EndOfDir
    (NextEntry "b.txt" None EndOfDir
       (NextEntry "c.txt" None EndOfDir
          (ReadThrows (ErrorObject "Interrupted")))).

(** * Properties *)

Local Set Warnings "-clear-no-such-hyp".

(** ** The registry and the two list sources *)

Lemma dedupKey_makeItem w p tag sp d :
  dedupKey (makeItem w p tag sp d) = normalizePath p.
Proof. reflexivity. Qed.

Lemma gatherMr_loop_nodedup mrKind sp result st :
  gatherMr_loop mrKind ["mrr"; "mrd"]%string false sp result st
  = (Normal (map (mr_item mrKind sp) result), st).
Proof.
  induction result as [|p result IH]; [reflexivity|].
  cbn [gatherMr_loop]. unfold bind at 1. cbn.
  unfold bind at 1. rewrite IH. reflexivity.
Qed.

Lemma gatherMr_loop_dedup mrKind sp result st :
  exists items,
    gatherMr_loop mrKind ["mrr"; "mrd"]%string true sp result st
    = (Normal items,
       set_seen (seen st ∪ list_to_set (map normalizePath result)) st)
    /\ NoDup (map dedupKey items)
    /\ (forall x, x ∈ items ->
          (dedupKey x ∉ seen st) /\
          exists p, p ∈ result /\ x = mr_item mrKind sp p).
Proof.
  revert st. induction result as [|p result IH]; intros st.
  - exists []. cbn. split; [|split].
    + unfold ret, set_seen. f_equal. destruct st; cbn. f_equal. set_solver.
    + constructor.
    + intros x Hx. inversion Hx.
  - cbn [gatherMr_loop]. unfold bind, seen_has, seen_add, ret. cbn.
    destruct (bool_decide (normalizePath p ∈ seen st)) eqn:Hin.
    + apply bool_decide_eq_true in Hin.
      destruct (IH st) as (items & Hrun & Hnd & Hit).
      exists items. rewrite Hrun. split; [|split].
      * f_equal. unfold set_seen. f_equal. set_solver.
      * exact Hnd.
      * intros x Hx. destruct (Hit x Hx) as (? & q & ? & ?).
        split; [assumption|]. exists q. split; [set_solver|assumption].
    + apply bool_decide_eq_false in Hin.
      destruct (IH (set_seen ({[normalizePath p]} ∪ seen st) st))
        as (items & Hrun & Hnd & Hit).
      unfold set_seen in Hrun at 1. rewrite Hrun.
      exists (mr_item mrKind sp p :: items). split; [|split].
      * f_equal. unfold set_seen. cbn. f_equal. set_solver.
      * cbn. constructor; [|exact Hnd].
        intros Hk. apply list_elem_of_fmap in Hk as (x & Hkx & Hx).
        destruct (Hit x Hx) as (Hfresh & _). apply Hfresh. cbn.
        rewrite <- Hkx. set_solver.
      * intros x Hx. apply elem_of_cons in Hx as [->|Hx].
        -- split; [exact Hin|]. exists p. split; [set_solver|reflexivity].
        -- destruct (Hit x Hx) as (Hfresh & q & ? & ?). split.
           ++ intros Hs. apply Hfresh. cbn. set_solver.
           ++ exists q. split; [set_solver|assumption].
Qed.

Lemma gatherBuffer_loop_dedup denops bufNr alt cd sp sorted st :
  exists r S',
    gatherBuffer_loop denops bufNr alt cd true sp sorted st
    = (r, set_seen S' st)
    /\ seen st ⊆ S'
    /\ match r with
       | Throw _ => True
       | Normal items =>
           NoDup (map dedupKey items)
           /\ (forall x, x ∈ items ->
                 (dedupKey x ∉ seen st) /\
                 exists buf, buf ∈ sorted
                   /\ buffer_candidate denops buf = true
                   /\ x = buffer_item bufNr alt cd sp buf)
           /\ (forall buf, buf ∈ sorted ->
                 buffer_candidate denops buf = true ->
                 normalizePath (BufInfo.name buf) ∈ S')
       end.
Proof.
  revert st. induction sorted as [|buf sorted IH]; intros st.
  - exists (Normal []), (seen st). cbn. split; [|split; [done|]].
    + unfold ret, set_seen. destruct st; reflexivity.
    + split; [constructor|]. split; intros x Hx; inversion Hx.
  - cbn [gatherBuffer_loop]. unfold buffer_candidate.
    destruct (String.eqb (BufInfo.name buf) "") eqn:Hname.
    { destruct (IH st) as (r & S' & Hrun & Hsub & Hr).
      exists r, S'. split; [exact Hrun|]. split; [exact Hsub|].
      destruct r as [items|e]; [|exact I].
      destruct Hr as (Hnd & Hit & Hall). split; [exact Hnd|]. split.
      - intros x Hx. destruct (Hit x Hx) as (? & b & ? & ? & ?).
        split; [assumption|]. exists b. split; [set_solver|]. done.
      - intros b Hb Hc. apply elem_of_cons in Hb as [->|Hb].
        + unfold buffer_candidate in Hc. rewrite Hname in Hc. discriminate.
        + now apply Hall. }
    unfold bind at 1. unfold await at 1.
    destruct (call_getbufvar denops (BufInfo.bufnr buf)) as [u|e] eqn:Hvar.
    2:{ exists (Throw e), (seen st). split; [|split; [done|exact I]].
        unfold set_seen. destruct st; reflexivity. }
    destruct (String.eqb (bufType_of u) "terminal") eqn:Hterm.
    { destruct (IH st) as (r & S' & Hrun & Hsub & Hr).
      exists r, S'. split; [exact Hrun|]. split; [exact Hsub|].
      destruct r as [items|e]; [|exact I].
      destruct Hr as (Hnd & Hit & Hall). split; [exact Hnd|]. split.
      - intros x Hx. destruct (Hit x Hx) as (? & b & ? & ? & ?).
        split; [assumption|]. exists b. split; [set_solver|]. done.
      - intros b Hb Hc. apply elem_of_cons in Hb as [->|Hb].
        + unfold buffer_candidate in Hc. rewrite Hname, Hvar, Hterm in Hc.
          discriminate.
        + now apply Hall. }
    unfold bind at 1. unfold bind at 1. unfold seen_has at 1.
    cbn beta iota.
    destruct (bool_decide (normalizePath (BufInfo.name buf) ∈ seen st))
      eqn:Hin.
    + apply bool_decide_eq_true in Hin. unfold ret at 1.
      destruct (IH st) as (r & S' & Hrun & Hsub & Hr).
      exists r, S'. split; [exact Hrun|]. split; [exact Hsub|].
      destruct r as [items|e]; [|exact I].
      destruct Hr as (Hnd & Hit & Hall). split; [exact Hnd|]. split.
      * intros x Hx. destruct (Hit x Hx) as (? & b & ? & ? & ?).
        split; [assumption|]. exists b. split; [set_solver|]. done.
      * intros b Hb Hc. apply elem_of_cons in Hb as [->|Hb].
        -- set_solver.
        -- now apply Hall.
    + apply bool_decide_eq_false in Hin.
      unfold bind at 1. unfold seen_add at 1. unfold ret at 1.
      cbn beta iota.
      destruct
        (IH {| seen := {[normalizePath (BufInfo.name buf)]} ∪ seen st;
               queue := queue st; console := console st;
               signal := signal st; closed := closed st |})
        as (r & S' & Hrun & Hsub & Hr).
      cbn [seen] in Hsub, Hr. unfold bind at 1. rewrite Hrun.
      destruct r as [items|e].
      2:{ exists (Throw e), S'. split; [reflexivity|].
          split; [set_solver|exact I]. }
      destruct Hr as (Hnd & Hit & Hall).
      exists (Normal (buffer_item bufNr alt cd sp buf :: items)), S'.
      split; [reflexivity|]. split; [set_solver|]. split; [|split].
      * cbn. constructor; [|exact Hnd].
        intros Hk. apply list_elem_of_fmap in Hk as (x & Hkx & Hx).
        destruct (Hit x Hx) as (Hfresh & _). apply Hfresh.
        rewrite <- Hkx. set_solver.
      * intros x Hx. apply elem_of_cons in Hx as [->|Hx].
        -- split; [exact Hin|]. exists buf. split; [set_solver|].
           split; [|reflexivity]. unfold buffer_candidate.
           now rewrite Hname, Hvar, Hterm.
        -- destruct (Hit x Hx) as (Hfresh & b & ? & ? & ?). split.
           ++ intros Hs. apply Hfresh. set_solver.
           ++ exists b. split; [set_solver|]. done.
      * intros b Hb Hc. apply elem_of_cons in Hb as [->|Hb].
        -- set_solver.
        -- now apply Hall.
Qed.

Lemma sort_insert_elem_of {A} (cmp : A -> A -> Z) x y l :
  y ∈ sort_insert cmp x l <-> y = x \/ y ∈ l.
Proof.
  induction l as [|z l IH]; cbn.
  - set_solver.
  - destruct (cmp x z <=? 0); set_solver.
Qed.

Lemma js_sort_elem_of {A} (cmp : A -> A -> Z) y l :
  y ∈ js_sort cmp l <-> y ∈ l.
Proof.
  induction l as [|x l IH]; cbn; [reflexivity|].
  rewrite sort_insert_elem_of. set_solver.
Qed.

Lemma gatherBuffer_dedup denops bufNr orderby sp st :
  exists r S',
    gatherBuffer denops bufNr orderby true sp st = (r, set_seen S' st)
    /\ seen st ⊆ S'
    /\ match r with
       | Throw _ => True
       | Normal items =>
           NoDup (map dedupKey items)
           /\ (forall x, x ∈ items ->
                 (dedupKey x ∉ seen st)
                 /\ produces_buffer denops (dedupKey x))
           /\ (forall k, produces_buffer denops k -> k ∈ S')
       end.
Proof.
  unfold gatherBuffer, bind, await.
  destruct (call_getbufinfo denops) as [info|e] eqn:Hinfo.
  2:{ exists (Throw e), (seen st). split; [|split; [done|exact I]].
      unfold set_seen. destruct st; reflexivity. }
  destruct
    (gatherBuffer_loop_dedup denops bufNr (alternateBufNr info)
       (currentDir info) sp
       (js_sort (buffer_compare orderby bufNr)
          (List.filter BufInfo.listed (buffers info))) st)
    as (r & S' & Hrun & Hsub & Hr).
  exists r, S'. split; [exact Hrun|]. split; [exact Hsub|].
  destruct r as [items|e]; [|exact I].
  destruct Hr as (Hnd & Hit & Hall). split; [exact Hnd|]. split.
  - intros x Hx. destruct (Hit x Hx) as (Hfresh & buf & Hb & Hc & ->).
    split; [exact Hfresh|]. exists info, buf.
    apply js_sort_elem_of, list_elem_of_In, filter_In in Hb as [Hb Hl].
    apply list_elem_of_In in Hb. repeat split; assumption.
  - intros k (info' & buf & Hi & Hb & Hl & Hc & <-).
    rewrite Hinfo in Hi. injection Hi as <-.
    apply Hall; [|exact Hc].
    apply js_sort_elem_of, list_elem_of_In, filter_In.
    split; [now apply list_elem_of_In|exact Hl].
Qed.

Lemma gatherMr_dedup denops mrKind sp st :
  exists items S' log,
    gatherMr denops mrKind true sp st
    = (Normal items,
       {| seen := S'; queue := queue st; console := console st ++ log;
          signal := signal st; closed := closed st |})
    /\ seen st ⊆ S'
    /\ NoDup (map dedupKey items)
    /\ (forall x, x ∈ items ->
          (dedupKey x ∉ seen st)
          /\ produces_mr denops mrKind (dedupKey x))
    /\ (forall k, produces_mr denops mrKind k -> k ∈ S').
Proof.
  unfold gatherMr, produces_mr.
  destruct (mr_list denops mrKind) as [result|e] eqn:Hlist.
  - destruct (gatherMr_loop_dedup mrKind sp result st)
      as (items & Hrun & Hnd & Hit).
    exists items, (seen st ∪ list_to_set (map normalizePath result)), [].
    rewrite Hrun. split; [|split; [set_solver|split; [exact Hnd|split]]].
    + unfold set_seen. now rewrite app_nil_r.
    + intros x Hx. destruct (Hit x Hx) as (Hfresh & p & Hp & ->).
      split; [exact Hfresh|]. exists result, p. done.
    + intros k (result' & p & Heq & Hp & <-). injection Heq as <-.
      apply elem_of_union_r, elem_of_list_to_set, list_elem_of_fmap.
      exists p. done.
  - exists [], (seen st).
    destruct (instanceof_DOMException e);
      eexists; (split; [reflexivity|]);
      (split; [done|]); (split; [constructor|]);
      (split; [intros x Hx; inversion Hx|]);
      intros k (? & ? & ? & _); discriminate.
Qed.

Lemma dedupKey_add_rec_prefix x : dedupKey (add_rec_prefix x) = dedupKey x.
Proof. reflexivity. Qed.

Lemma dedup_filter_spec chunk st :
  Forall (fun x => path (action x) <> "") chunk ->
  exists kept,
    dedup_filter chunk st
    = (Normal kept,
       set_seen (seen st ∪ list_to_set (map dedupKey chunk)) st)
    /\ NoDup (map dedupKey kept)
    /\ (forall x, x ∈ kept -> x ∈ chunk /\ dedupKey x ∉ seen st).
Proof.
  revert st. induction chunk as [|item chunk IH]; intros st Hne.
  - exists []. cbn. split; [|split].
    + unfold ret, set_seen. f_equal. destruct st; cbn. f_equal. set_solver.
    + constructor.
    + intros x Hx. inversion Hx.
  - inversion Hne as [|? ? Hitem Hrest]; subst.
    cbn [dedup_filter]. apply String.eqb_neq in Hitem. rewrite Hitem.
    unfold bind, seen_has, seen_add, ret. cbn.
    fold (dedupKey item).
    destruct (bool_decide (dedupKey item ∈ seen st)) eqn:Hin.
    + apply bool_decide_eq_true in Hin.
      destruct (IH st Hrest) as (kept & Hrun & Hnd & Hit).
      exists kept. rewrite Hrun. split; [|split].
      * f_equal. unfold set_seen. f_equal. set_solver.
      * exact Hnd.
      * intros x Hx. destruct (Hit x Hx). split; [set_solver|assumption].
    + apply bool_decide_eq_false in Hin.
      destruct (IH (set_seen ({[dedupKey item]} ∪ seen st) st) Hrest)
        as (kept & Hrun & Hnd & Hit).
      unfold set_seen in Hrun at 1. rewrite Hrun.
      exists (item :: kept). split; [|split].
      * f_equal. unfold set_seen. cbn. f_equal. set_solver.
      * cbn. constructor; [|exact Hnd].
        intros Hk. apply list_elem_of_fmap in Hk as (x & Hkx & Hx).
        destruct (Hit x Hx) as (_ & Hfresh). apply Hfresh. cbn.
        rewrite <- Hkx. set_solver.
      * intros x Hx. apply elem_of_cons in Hx as [->|Hx].
        -- split; [set_solver|exact Hin].
        -- destruct (Hit x Hx) as (? & Hfresh). split; [set_solver|].
           intros Hs. apply Hfresh. cbn. set_solver.
Qed.

Lemma dedup_filter_stream chunk st :
  exists kept S',
    dedup_filter chunk st = (Normal kept, set_seen S' st).
Proof.
  revert st. induction chunk as [|item chunk IH]; intros st.
  - exists [], (seen st). cbn. unfold ret, set_seen. now destruct st.
  - cbn [dedup_filter]. unfold bind, seen_has, seen_add, ret. cbn.
    destruct (String.eqb (path (action item)) "");
      [|destruct (bool_decide _)].
    + destruct (IH st) as (kept & S' & ->). now eexists _, _.
    + destruct (IH st) as (kept & S' & ->). now eexists _, _.
    + match goal with |- context [dedup_filter chunk ?s] =>
        destruct (IH s) as (kept & S' & ->) end.
      now eexists _, _.
Qed.

(** Preparing a chunk never throws and touches the registry only. *)
Lemma prepare_chunk_stream params chunk st :
  exists filtered S',
    prepare_chunk params chunk st = (Normal filtered, set_seen S' st).
Proof.
  unfold prepare_chunk, bind, ret. destruct (dedup params).
  - destruct (dedup_filter_stream chunk st) as (kept & S' & ->).
    now eexists _, _.
  - exists (if showSourcePrefix params then map add_rec_prefix chunk
            else chunk), (seen st).
    unfold set_seen. now destruct st.
Qed.

Lemma prepare_chunk_nodedup params chunk st :
  dedup params = false ->
  prepare_chunk params chunk st
  = (Normal (if showSourcePrefix params then map add_rec_prefix chunk
             else chunk), st).
Proof. intros H. unfold prepare_chunk, bind, ret. now rewrite H. Qed.

Lemma prepare_chunk_dedup params chunk st :
  dedup params = true ->
  Forall (fun x => path (action x) <> "") chunk ->
  exists filtered,
    prepare_chunk params chunk st
    = (Normal filtered,
       set_seen (seen st ∪ list_to_set (map dedupKey chunk)) st)
    /\ NoDup (map dedupKey filtered)
    /\ (forall x, x ∈ filtered ->
          (dedupKey x ∉ seen st)
          /\ exists y, y ∈ chunk /\ dedupKey y = dedupKey x).
Proof.
  intros Hd Hne. unfold prepare_chunk, bind, ret. rewrite Hd.
  destruct (dedup_filter_spec chunk st Hne) as (kept & -> & Hnd & Hit).
  destruct (showSourcePrefix params).
  - exists (map add_rec_prefix kept). split; [reflexivity|]. split.
    + rewrite <- list_fmap_compose.
      erewrite list_fmap_ext; [exact Hnd|]. intros; reflexivity.
    + intros x Hx. apply list_elem_of_fmap in Hx as (y & -> & Hy).
      destruct (Hit y Hy). split; [assumption|]. exists y. done.
  - exists kept. split; [reflexivity|]. split; [exact Hnd|].
    intros x Hx. destruct (Hit x Hx). split; [assumption|]. exists x. done.
Qed.

(** ** The walker *)

Section WalkFacts.
Variable fs : Fs.
Variable root : string.
Variable ignored : list string.
Variable size : Z.
Variable expand : bool.

Local Abbreviation loop := (inner_loop fs root ignored size expand).

Lemma inner_loop_aborted r dir chunk l :
  loop (Some r) dir chunk l = ([], inner_catch r, Some r).
Proof. destruct l; reflexivity. Qed.

Lemma inner_loop_yields_items l :
  forall sig dir chunk,
    Forall (walker_item root) chunk ->
    forall c, EYield c ∈ (loop sig dir chunk l).1.1 ->
    Forall (walker_item root) c.
Proof.
  induction l as [|e|reason|name interrupt sub IHsub rest IHrest];
    intros [r|] dir chunk Hchunk c;
    try (rewrite inner_loop_aborted; cbn; intros Hc; inversion Hc).
  - cbn. destruct chunk; cbn; intros Hc; [inversion Hc|].
    apply list_elem_of_singleton in Hc. injection Hc as Hc.
    subst c. exact Hchunk.
  - cbn. intros Hc; inversion Hc.
  - cbn. intros Hc. apply list_elem_of_singleton in Hc. discriminate.
  - cbn [inner_loop].
    assert (Hcan : forall evs : list Event,
               EYield c ∈
                 match interrupt with
                 | Some reason => [ECancel reason]
                 | None => []
                 end ++ evs -> EYield c ∈ evs).
    { intros evs. destruct interrupt; cbn; [|done].
      intros H. apply elem_of_cons in H as [H|H]; [discriminate|done]. }
    set (sig1 := match interrupt with
                 | Some reason => abort reason None
                 | None => None
                 end).
    destruct (entry_action fs ignored expand (join dir name) name).
    + destruct (loop sig1 dir chunk rest) as [[evs e] s] eqn:Hrest.
      cbn. intros Hc. apply Hcan in Hc.
      apply (IHrest sig1 dir chunk Hchunk). now rewrite Hrest.
    + destruct (Z.of_nat _ >=? size).
      * destruct (loop sig1 dir [] rest) as [[evs e] s] eqn:Hrest.
        cbn. intros Hc. apply Hcan in Hc.
        apply elem_of_cons in Hc as [Hc|Hc].
        -- injection Hc as ->. apply Forall_app. split; [exact Hchunk|].
           constructor; [|constructor]. now eexists _, _.
        -- apply (IHrest sig1 dir [] (Forall_nil_2 _)). now rewrite Hrest.
      * destruct (loop sig1 dir _ rest) as [[evs e] s] eqn:Hrest.
        cbn. intros Hc. apply Hcan in Hc.
        eapply (IHrest sig1 dir); [|rewrite Hrest; exact Hc].
        apply Forall_app. split; [exact Hchunk|].
        constructor; [|constructor]. now eexists _, _.
    + destruct (loop sig1 dir chunk rest) as [[evs e] s] eqn:Hrest.
      cbn. intros Hc. apply Hcan in Hc.
      apply (IHrest sig1 dir chunk Hchunk). now rewrite Hrest.
    + destruct (loop sig1 dir chunk rest) as [[evs e] s] eqn:Hrest.
      cbn. intros Hc. apply Hcan in Hc.
      apply (IHrest sig1 dir chunk Hchunk). now rewrite Hrest.
    + destruct (loop sig1 (join dir name) [] sub) as [[evs1 e1] s1]
        eqn:Hsub.
      assert (Hin1 : EYield c ∈ evs1 -> Forall (walker_item root) c).
      { intros Hc. apply (IHsub sig1 (join dir name) [] (Forall_nil_2 _)).
        now rewrite Hsub. }
      destruct e1 as [|e].
      * destruct (loop s1 dir chunk rest) as [[evs2 e2] s2] eqn:Hrest.
        cbn. intros Hc. apply Hcan in Hc.
        apply elem_of_app in Hc as [Hc|Hc]; [now apply Hin1|].
        apply (IHrest s1 dir chunk Hchunk). now rewrite Hrest.
      * cbn. intros Hc. apply Hcan in Hc. now apply Hin1.
    + cbn. intros Hc.
      destruct interrupt; cbn in Hc; [|inversion Hc].
      apply list_elem_of_singleton in Hc. discriminate.
Qed.
End WalkFacts.

(** ** Invariants of the loop of [gather] and of [start] *)

Lemma for_await_inv params (I : State -> list Item -> Prop)
    (C : list Item -> Prop) (E0 : Z) :
  (forall reason st P, I st P -> I (cancel reason st).2 P) ->
  (forall chunk st P filtered st1,
      C chunk -> I st P ->
      prepare_chunk params chunk st = (Normal filtered, st1) ->
      I st1 (P ++ filtered)) ->
  (forall st P E,
      I st P -> closed st = false ->
      E = E0 \/ E = 10 * chunkSize params ->
      (Z.of_nat (length P) >=? E) = true ->
      I (enqueue FromFileRec P st).2 []) ->
  forall events,
    (forall chunk, EYield chunk ∈ events -> C chunk) ->
    forall E P st,
      E = E0 \/ E = 10 * chunkSize params ->
      I st P ->
      match for_await params events E P st with
      | (Normal (E', P'), st') =>
          I st' P' /\ (E' = E0 \/ E' = 10 * chunkSize params)
      | (Throw e, st') =>
          (exists P', I st' P') /\ e = typeError /\ closed st' = true
      end.
Proof.
  intros Hcancel Hprep Henq.
  induction events as [|[chunk|reason] events IH]; intros HC E P st HE HI.
  - cbn. done.
  - cbn [for_await]. unfold bind at 1.
    destruct (prepare_chunk_stream params chunk st)
      as (filtered & S' & Hrun).
    rewrite Hrun.
    assert (HI1 : I (set_seen S' st) (P ++ filtered)).
    { eapply Hprep; [|exact HI|exact Hrun]. apply HC. set_solver. }
    assert (HC' : forall c, EYield c ∈ events -> C c).
    { intros c Hc. apply HC. set_solver. }
    destruct (Z.of_nat (length (P ++ filtered)) >=? E) eqn:Hge.
    + unfold bind at 1.
      destruct (closed (set_seen S' st)) eqn:Hclosed.
      * unfold enqueue at 1. rewrite Hclosed.
        split; [now exists (P ++ filtered)|done].
      * pose proof (Henq _ _ _ HI1 Hclosed HE Hge) as HI2.
        unfold enqueue in HI2 |- * at 1. rewrite Hclosed in HI2 |- *.
        apply IH; [exact HC'|now right|exact HI2].
    + apply IH; [exact HC'|exact HE|exact HI1].
  - cbn [for_await]. unfold bind at 1.
    apply IH; [|exact HE|apply Hcancel; exact HI].
    intros c Hc. apply HC. set_solver.
Qed.

Lemma start_inv args fs tree (J1 J2 J3 : State -> Prop) :
  match gather_buffer args initial_state with
  | (Normal _, st1) => J1 st1
  | (Throw _, st1) => J3 st1
  end ->
  (forall st,
      J1 st ->
      match gather_mr args st with
      | (Normal _, st2) => J2 st2
      | (Throw _, st2) => J3 st2
      end) ->
  (forall st, J2 st -> J3 (gather_fileRec args fs tree st).2) ->
  (forall st line, J3 st -> J3 (console_error line st).2) ->
  (forall st, J3 st -> J3 (close st)) ->
  J3 (gather args fs tree).
Proof.
  intros H1 H2 H3 Hlog Hclose.
  unfold gather, start, finally, try_catch.
  assert (Hcatch : forall e st, J3 st -> J3 (start_catch e st).2).
  { intros e st HJ. unfold start_catch.
    destruct (is_AbortReason e); [exact HJ|now apply Hlog]. }
  unfold bind at 1.
  destruct (gather_buffer args initial_state) as [[[]|e] st1].
  2:{ specialize (Hcatch e st1 H1).
      destruct (start_catch e st1) as [r st']. cbn in *. now apply Hclose. }
  unfold bind at 1. specialize (H2 _ H1).
  destruct (gather_mr args st1) as [[[]|e] st2].
  2:{ specialize (Hcatch e st2 H2).
      destruct (start_catch e st2) as [r st']. cbn in *. now apply Hclose. }
  specialize (H3 _ H2).
  destruct (gather_fileRec args fs tree st2) as [[[]|e] st3]; cbn in H3.
  - cbn. now apply Hclose.
  - specialize (Hcatch e st3 H3).
    destruct (start_catch e st3) as [r st']. cbn in *. now apply Hclose.
Qed.

Lemma gather_fileRec_inv args fs tree (I : State -> list Item -> Prop)
    (C : list Item -> Prop) :
  let params := sourceParams args in
  (forall reason st P, I st P -> I (cancel reason st).2 P) ->
  (forall chunk st P filtered st1,
      C chunk -> I st P ->
      prepare_chunk params chunk st = (Normal filtered, st1) ->
      I st1 (P ++ filtered)) ->
  (forall st P,
      I st P -> closed st = false ->
      (chunkSize params <= Z.of_nat (length P) \/
       10 * chunkSize params <= Z.of_nat (length P) \/
       (0 < length P)%nat) ->
      I (enqueue FromFileRec P st).2 []) ->
  forall st,
    (forall chunk,
        EYield chunk ∈ (gather_walk args fs tree (signal st)).1.1 ->
        C chunk) ->
    I st [] ->
    exists P, I (gather_fileRec args fs tree st).2 P.
Proof.
  intros params Hcancel Hprep Henq st HC HI.
  unfold gather_fileRec. fold params.
  destruct (enableFileRec params); [|now exists []].
  destruct (gather_walk args fs tree (signal st)) as [[events wend] s].
  cbn in HC. unfold bind at 1.
  pose proof (for_await_inv params I C (chunkSize params) Hcancel Hprep)
    as Hloop.
  specialize (Hloop
    ltac:(intros st0 P E H Hcl [->| ->] Hge; apply Henq; auto;
          apply Z.geb_le in Hge; auto)).
  specialize (Hloop events HC (chunkSize params) [] st (or_introl eq_refl) HI).
  destruct (for_await params events (chunkSize params) [] st)
    as [[[E' P']|e] st'].
  2:{ destruct Hloop as [HP _]. exact HP. }
  destruct Hloop as [HP _]. cbn [snd].
  destruct wend as [|e]; [|now exists P'].
  destruct (0 <? length P')%nat eqn:Hlen; [|now exists P'].
  apply Nat.ltb_lt in Hlen. unfold enqueue at 1.
  destruct (closed st') eqn:Hcl; [now exists P'|].
  exists []. specialize (Henq st' P' HP Hcl).
  unfold enqueue in Henq. rewrite Hcl in Henq. apply Henq. auto.
Qed.

(** The list sources leave the stream as they found it. *)
Lemma gatherBuffer_loop_stream denops bufNr alt cd dd sp sorted st :
  exists r S',
    gatherBuffer_loop denops bufNr alt cd dd sp sorted st
    = (r, set_seen S' st).
Proof.
  revert st. induction sorted as [|buf sorted IH]; intros st.
  - exists (Normal []), (seen st). unfold set_seen. now destruct st.
  - cbn [gatherBuffer_loop].
    destruct (String.eqb (BufInfo.name buf) ""); [apply IH|].
    unfold bind at 1, await at 1.
    destruct (call_getbufvar denops (BufInfo.bufnr buf)) as [u|e].
    2:{ exists (Throw e), (seen st). unfold set_seen. now destruct st. }
    destruct (String.eqb (bufType_of u) "terminal"); [apply IH|].
    unfold bind at 1.
    assert (Hend : forall st0 S0,
               st0 = set_seen S0 st ->
               exists r S',
                 (let* items :=
                    gatherBuffer_loop denops bufNr alt cd dd sp sorted in
                  ret (buffer_item bufNr alt cd sp buf :: items)) st0
                 = (r, set_seen S' st)).
    { intros st0 S0 ->. unfold bind at 1.
      destruct (IH (set_seen S0 st)) as (r & S' & ->).
      destruct r; now eexists _, S'. }
    destruct dd.
    + unfold bind at 1, seen_has at 1.
      destruct (bool_decide _).
      * unfold ret at 1. apply IH.
      * unfold bind at 1, seen_add at 1, ret at 1. eapply Hend.
        reflexivity.
    + unfold ret at 1. apply (Hend st (seen st)).
      unfold set_seen. now destruct st.
Qed.

Lemma gatherBuffer_stream denops bufNr orderby dd sp st :
  exists r S',
    gatherBuffer denops bufNr orderby dd sp st = (r, set_seen S' st).
Proof.
  unfold gatherBuffer, bind, await.
  destruct (call_getbufinfo denops) as [info|e].
  - apply gatherBuffer_loop_stream.
  - exists (Throw e), (seen st). unfold set_seen. now destruct st.
Qed.

Lemma gatherMr_loop_stream mrKind isDir dd sp result st :
  exists items S',
    gatherMr_loop mrKind isDir dd sp result st
    = (Normal items, set_seen S' st).
Proof.
  revert st. induction result as [|p result IH]; intros st.
  - exists [], (seen st). unfold set_seen. now destruct st.
  - cbn [gatherMr_loop].
    assert (Hend : forall S0,
               exists items S',
                 (let* items :=
                    gatherMr_loop mrKind isDir dd sp result in
                  ret (makeItem p p mrKind sp (bool_decide (mrKind ∈ isDir))
                         :: items)) (set_seen S0 st)
                 = (Normal items, set_seen S' st)).
    { intros S0. unfold bind at 1.
      destruct (IH (set_seen S0 st)) as (items & S' & ->).
      now eexists _, S'. }
    unfold bind at 1. destruct dd.
    + unfold bind at 1, seen_has at 1.
      destruct (bool_decide (normalizePath p ∈ seen st)).
      * unfold ret at 1. apply IH.
      * unfold bind at 1, seen_add at 1, ret at 1. apply Hend.
    + unfold ret at 1. destruct (Hend (seen st)) as (items & S' & H).
      exists items, S'. rewrite <- H. unfold set_seen. now destruct st.
Qed.

Lemma gatherMr_stream denops mrKind dd sp st :
  exists items S' log,
    gatherMr denops mrKind dd sp st
    = (Normal items,
       {| seen := S'; queue := queue st; console := console st ++ log;
          signal := signal st; closed := closed st |}).
Proof.
  unfold gatherMr. destruct (mr_list denops mrKind) as [result|e].
  - destruct (gatherMr_loop_stream mrKind ["mrr"; "mrd"]%string dd sp
                result st) as (items & S' & ->).
    exists items, S', []. unfold set_seen. now rewrite app_nil_r.
  - exists [], (seen st).
    destruct (instanceof_DOMException e); now eexists.
Qed.

(** ** Batches *)

Lemma enqueue_nonempty o batch st :
  batches_nonempty st -> batch <> [] ->
  batches_nonempty (enqueue o batch st).2.
Proof.
  intros HJ Hb. unfold enqueue. destruct (closed st); [exact HJ|].
  intros o' b' Hin. cbn in Hin. apply elem_of_app in Hin as [Hin|Hin].
  - now apply (HJ o').
  - apply list_elem_of_singleton in Hin. now injection Hin as -> ->.
Qed.

Lemma enqueue_if_any_nonempty o items st :
  batches_nonempty st ->
  batches_nonempty
    ((if (0 <? length items)%nat then enqueue o items else ret tt) st).2.
Proof.
  intros HJ. destruct (0 <? length items)%nat eqn:Hlen; [|exact HJ].
  apply enqueue_nonempty; [exact HJ|].
  apply Nat.ltb_lt in Hlen. destruct items; cbn in Hlen; [lia|done].
Qed.

Lemma gather_buffer_nonempty args st :
  batches_nonempty st -> batches_nonempty (gather_buffer args st).2.
Proof.
  intros HJ. unfold gather_buffer.
  destruct (enableBuffer (sourceParams args)); [|exact HJ].
  unfold bind.
  destruct (gatherBuffer_stream (denops args) (bufNr (context args))
              (bufferOrderby (sourceParams args))
              (dedup (sourceParams args))
              (showSourcePrefix (sourceParams args)) st)
    as (r & S' & ->).
  destruct r as [items|e]; [|exact HJ].
  now apply enqueue_if_any_nonempty.
Qed.

Lemma gather_mr_nonempty args st :
  batches_nonempty st -> batches_nonempty (gather_mr args st).2.
Proof.
  intros HJ. unfold gather_mr.
  destruct (enableMr (sourceParams args)); [|exact HJ].
  unfold bind.
  destruct (gatherMr_stream (denops args) (mrKind (sourceParams args))
              (dedup (sourceParams args))
              (showSourcePrefix (sourceParams args)) st)
    as (items & S' & log & ->).
  now apply enqueue_if_any_nonempty.
Qed.

Lemma gather_fileRec_nonempty args fs tree st :
  0 < chunkSize (sourceParams args) ->
  batches_nonempty st ->
  batches_nonempty (gather_fileRec args fs tree st).2.
Proof.
  intros Hsize HJ.
  destruct (gather_fileRec_inv args fs tree
              (fun st _ => batches_nonempty st) (fun _ => True))
    with (st := st) as [_ H]; try done.
  - intros chunk st0 P filtered st1 _ H Hrun.
    destruct (prepare_chunk_stream (sourceParams args) chunk st0)
      as (f & S' & Hrun').
    rewrite Hrun' in Hrun. injection Hrun as _ <-. exact H.
  - intros st0 P H _ Hlen. apply enqueue_nonempty; [exact H|].
    destruct P; [cbn in Hlen; lia|done].
Qed.

(** With a positive [chunkSize] no batch of the queue is empty: the buffer
    and the MRU step skip [controller.enqueue] when their list is empty, and
    the loop over the walk and the final flush enqueue [pendingItems] only
    when it holds an item. *)
Lemma no_batch_is_empty args fs tree :
  0 < chunkSize (sourceParams args) ->
  batches_nonempty (gather args fs tree).
Proof.
  intros Hsize.
  apply (start_inv args fs tree batches_nonempty batches_nonempty).
  - pose proof (gather_buffer_nonempty args initial_state) as H.
    destruct (gather_buffer args initial_state) as [[[]|e] st1];
      apply H; intros o b Hin; inversion Hin.
  - intros st HJ. pose proof (gather_mr_nonempty args st HJ) as H.
    now destruct (gather_mr args st) as [[[]|e] st2].
  - intros st HJ. now apply gather_fileRec_nonempty.
  - intros st line HJ. exact HJ.
  - intros st HJ. exact HJ.
Qed.

(** ** Delivery order *)

Lemma ordered_upto_mono n m st :
  (n <= m)%nat -> ordered_upto n st -> ordered_upto m st.
Proof.
  intros Hnm [Hs Hb]. split; [exact Hs|].
  eapply Forall_impl; [exact Hb|]. cbn. lia.
Qed.

Lemma ordered_upto_enqueue n o batch st :
  (n <= priority o)%nat -> ordered_upto n st ->
  ordered_upto (priority o) (enqueue o batch st).2.
Proof.
  intros Hn HJ. unfold enqueue.
  destruct (closed st); [now apply (ordered_upto_mono n)|].
  destruct HJ as [Hs Hb]. unfold ordered_upto, origins in *. cbn.
  rewrite map_app. cbn. split.
  - apply StronglySorted_app. split; [|split].
    + intros p q Hp Hq. apply list_elem_of_singleton in Hq as ->.
      rewrite Forall_forall in Hb. specialize (Hb p Hp). unfold Nat.le. lia.
    + exact Hs.
    + repeat constructor.
  - apply Forall_app. split.
    + eapply Forall_impl; [exact Hb|]. cbn. lia.
    + repeat constructor.
Qed.

Lemma ordered_upto_enqueue_if_any n o items st :
  (n <= priority o)%nat -> ordered_upto n st ->
  ordered_upto (priority o)
    ((if (0 <? length items)%nat then enqueue o items else ret tt) st).2.
Proof.
  intros Hn HJ. destruct (0 <? length items)%nat.
  - now apply (ordered_upto_enqueue n).
  - now apply (ordered_upto_mono n).
Qed.

Lemma gather_buffer_ordered args st :
  ordered_upto 0 st -> ordered_upto 0 (gather_buffer args st).2.
Proof.
  intros HJ. unfold gather_buffer.
  destruct (enableBuffer (sourceParams args)); [|exact HJ].
  unfold bind.
  destruct (gatherBuffer_stream (denops args) (bufNr (context args))
              (bufferOrderby (sourceParams args))
              (dedup (sourceParams args))
              (showSourcePrefix (sourceParams args)) st)
    as (r & S' & ->).
  destruct r as [items|e]; [|exact HJ].
  now apply (ordered_upto_enqueue_if_any 0 FromBuffer).
Qed.

Lemma gather_mr_ordered args st :
  ordered_upto 0 st -> ordered_upto 1 (gather_mr args st).2.
Proof.
  intros HJ. unfold gather_mr.
  destruct (enableMr (sourceParams args));
    [|now apply (ordered_upto_mono 0); [lia|]].
  unfold bind.
  destruct (gatherMr_stream (denops args) (mrKind (sourceParams args))
              (dedup (sourceParams args))
              (showSourcePrefix (sourceParams args)) st)
    as (items & S' & log & ->).
  now apply (ordered_upto_enqueue_if_any 0 FromMr); [cbn; lia|].
Qed.

Lemma gather_fileRec_ordered args fs tree st :
  ordered_upto 1 st -> ordered_upto 2 (gather_fileRec args fs tree st).2.
Proof.
  intros HJ.
  destruct (gather_fileRec_inv args fs tree
              (fun st _ => ordered_upto 2 st) (fun _ => True))
    with (st := st) as [_ H]; try done.
  - intros chunk st0 P filtered st1 _ H Hrun.
    destruct (prepare_chunk_stream (sourceParams args) chunk st0)
      as (f & S' & Hrun').
    rewrite Hrun' in Hrun. injection Hrun as _ <-. exact H.
  - intros st0 P H _ _. now apply (ordered_upto_enqueue 2 FromFileRec).
  - now apply (ordered_upto_mono 1); [lia|].
Qed.

Lemma gather_ordered args fs tree : ordered_upto 2 (gather args fs tree).
Proof.
  apply (start_inv args fs tree (ordered_upto 0) (ordered_upto 1)).
  - pose proof (gather_buffer_ordered args initial_state) as H.
    assert (H0 : ordered_upto 0 initial_state) by (split; constructor).
    specialize (H H0).
    destruct (gather_buffer args initial_state) as [[[]|e] st1];
      [exact H|now apply (ordered_upto_mono 0); [lia|]].
  - intros st HJ. pose proof (gather_mr_ordered args st HJ) as H.
    destruct (gather_mr args st) as [[[]|e] st2];
      [exact H|now apply (ordered_upto_mono 1); [lia|]].
  - intros st HJ. now apply gather_fileRec_ordered.
  - intros st line HJ. exact HJ.
  - intros st HJ. exact HJ.
Qed.

Lemma sorted_lookup_lt (l : list nat) i j a b :
  StronglySorted Nat.le l ->
  l !! i = Some a -> l !! j = Some b -> (a < b)%nat -> (i < j)%nat.
Proof.
  intros Hs. revert i j.
  induction Hs as [|x l Hs IH Hx]; intros i j Hi Hj Hab; [done|].
  destruct i as [|i], j as [|j]; cbn in Hi, Hj.
  - injection Hi as <-. injection Hj as <-. lia.
  - lia.
  - injection Hj as <-. apply list_elem_of_lookup_2 in Hi.
    rewrite Forall_forall in Hx. specialize (Hx a Hi). unfold Nat.le in Hx.
    lia.
  - specialize (IH i j Hi Hj Hab). lia.
Qed.

Lemma elem_of_concat {A} (x : A) (ls : list (list A)) :
  x ∈ concat ls <-> exists l, x ∈ l /\ l ∈ ls.
Proof.
  induction ls as [|l ls IH]; cbn.
  - split; [intros H; inversion H|intros (l & _ & H); inversion H].
  - rewrite elem_of_app, IH. split.
    + intros [H|(l' & H & H')]; [exists l|exists l']; set_solver.
    + intros (l' & H & H'). apply elem_of_cons in H' as [->|H'];
        [now left|right; now exists l'].
Qed.

Lemma delivered_sorted st :
  StronglySorted Nat.le (origins st) ->
  StronglySorted Nat.le (map (fun ox => priority ox.1) (delivered st)).
Proof.
  unfold origins, delivered. induction (queue st) as [|[o b] q IH]; cbn.
  - constructor.
  - intros Hs. apply StronglySorted_cons in Hs as [Hx Hs].
    rewrite map_app. apply StronglySorted_app. split; [|split].
    + intros p p' Hp Hp'.
      apply list_elem_of_fmap in Hp as ([o1 x1] & -> & Hp).
      apply list_elem_of_fmap in Hp as (y1 & [= -> ->] & _). cbn.
      apply list_elem_of_fmap in Hp' as ([o2 x2] & -> & Hp').
      apply elem_of_concat in Hp' as (l' & Hx2 & Hl').
      apply list_elem_of_fmap in Hl' as ([o3 b3] & -> & Hb3).
      apply list_elem_of_fmap in Hx2 as (y2 & [= -> ->] & _). cbn.
      rewrite Forall_forall in Hx. apply Hx.
      apply list_elem_of_fmap. now exists (o3, b3).
    + rewrite <- list_fmap_compose. cbn.
      induction b; cbn; constructor; [assumption|].
      apply Forall_forall. intros p Hp.
      apply list_elem_of_fmap in Hp as (x & -> & _). constructor.
    + now apply IH.
Qed.

(** C2. In the delivered stream every item enqueued by the buffer step comes
    before every item enqueued by the MRU step, and these come before every
    item enqueued by the walk; the same holds batch by batch, so no batch of
    the walk overtakes a batch of an earlier step. [start] runs the three
    steps one after the other, each from the state the one before left. *)
Theorem priority_ordering args fs tree :
  let st := gather args fs tree in
  (forall i j o1 x1 o2 x2,
      delivered st !! i = Some (o1, x1) ->
      delivered st !! j = Some (o2, x2) ->
      (priority o1 < priority o2)%nat -> (i < j)%nat)
  /\ (forall i j o1 b1 o2 b2,
        queue st !! i = Some (o1, b1) ->
        queue st !! j = Some (o2, b2) ->
        (priority o1 < priority o2)%nat -> (i < j)%nat).
Proof.
  intros st. destruct (gather_ordered args fs tree) as [Hs _]. fold st in Hs.
  split.
  - intros i j o1 x1 o2 x2 Hi Hj Hlt.
    apply (sorted_lookup_lt _ i j (priority o1) (priority o2)
             (delivered_sorted st Hs)); [| |exact Hlt].
    + rewrite list_lookup_fmap, Hi. reflexivity.
    + rewrite list_lookup_fmap, Hj. reflexivity.
  - intros i j o1 b1 o2 b2 Hi Hj Hlt.
    apply (sorted_lookup_lt _ i j (priority o1) (priority o2) Hs);
      [| |exact Hlt]; unfold origins.
    + rewrite list_lookup_fmap, Hi. reflexivity.
    + rewrite list_lookup_fmap, Hj. reflexivity.
Qed.

(** ** Deduplication *)

Lemma delivered_enqueue o batch st :
  closed st = false ->
  delivered (enqueue o batch st).2 = delivered st ++ map (pair o) batch.
Proof.
  intros Hcl. unfold enqueue. rewrite Hcl. unfold delivered. cbn.
  rewrite map_app, concat_app. cbn. now rewrite app_nil_r.
Qed.

Lemma dedup_invariant_seen args fs tree st S' :
  seen st ⊆ S' ->
  dedup_invariant args fs tree st ->
  dedup_invariant args fs tree (set_seen S' st).
Proof.
  intros Hsub (Hnd & Hcov & Hsrc). split; [exact Hnd|]. split; [|exact Hsrc].
  intros k Hk. apply Hsub. now apply Hcov.
Qed.

Lemma dedup_invariant_enqueue args fs tree o items st :
  dedup_invariant args fs tree st ->
  NoDup (map dedupKey items) ->
  (forall x, x ∈ items ->
     (dedupKey x ∉ delivered_keys st)
     /\ dedupKey x ∈ seen st
     /\ produces args fs tree o (dedupKey x)
     /\ forall o', (priority o' < priority o)%nat ->
                   ~ produces args fs tree o' (dedupKey x)) ->
  dedup_invariant args fs tree (enqueue o items st).2.
Proof.
  intros (Hnd & Hcov & Hsrc) Hitems Hnew.
  destruct (closed st) eqn:Hcl.
  { unfold enqueue. rewrite Hcl. now split. }
  unfold dedup_invariant, delivered_keys, earliest_source.
  rewrite (delivered_enqueue o items st Hcl).
  assert (Hseen : seen (enqueue o items st).2 = seen st).
  { unfold enqueue. now rewrite Hcl. }
  rewrite Hseen, map_app, <- list_fmap_compose. split; [|split].
  - apply NoDup_app. split; [exact Hnd|]. split; [|exact Hitems].
    intros k Hk Hk'. apply list_elem_of_fmap in Hk' as (x & -> & Hx).
    destruct (Hnew x Hx) as (Hfresh & _). now apply Hfresh.
  - intros k Hk. apply elem_of_app in Hk as [Hk|Hk]; [now apply Hcov|].
    apply list_elem_of_fmap in Hk as (x & -> & Hx).
    now destruct (Hnew x Hx) as (_ & ? & _).
  - intros o1 x Hin. apply elem_of_app in Hin as [Hin|Hin].
    + now apply Hsrc.
    + apply list_elem_of_fmap in Hin as (y & [= -> ->] & Hy).
      now destruct (Hnew y Hy) as (_ & _ & ? & ?).
Qed.

Lemma dedup_invariant_enqueue_if_any args fs tree o items st :
  dedup_invariant args fs tree st ->
  NoDup (map dedupKey items) ->
  (forall x, x ∈ items ->
     (dedupKey x ∉ delivered_keys st)
     /\ dedupKey x ∈ seen st
     /\ produces args fs tree o (dedupKey x)
     /\ forall o', (priority o' < priority o)%nat ->
                   ~ produces args fs tree o' (dedupKey x)) ->
  dedup_invariant args fs tree
    ((if (0 <? length items)%nat then enqueue o items else ret tt) st).2.
Proof.
  intros HI Hnd Hnew. destruct (0 <? length items)%nat; [|exact HI].
  now apply dedup_invariant_enqueue.
Qed.

Lemma gather_buffer_dedup args fs tree st :
  dedup (sourceParams args) = true ->
  dedup_invariant args fs tree st ->
  let r := gather_buffer args st in
  dedup_invariant args fs tree r.2
  /\ signal r.2 = signal st
  /\ (r.1 = Normal tt ->
      enableBuffer (sourceParams args) = true ->
      forall k, produces_buffer (denops args) k -> k ∈ seen r.2).
Proof.
  intros Hd HI. unfold gather_buffer. rewrite Hd.
  destruct (enableBuffer (sourceParams args)) eqn:Hen; [|now split].
  unfold bind.
  destruct (gatherBuffer_dedup (denops args) (bufNr (context args))
              (bufferOrderby (sourceParams args))
              (showSourcePrefix (sourceParams args)) st)
    as (r & S' & -> & Hsub & Hr).
  pose proof (dedup_invariant_seen args fs tree st S' Hsub HI) as HI'.
  destruct r as [items|e]; cbn zeta.
  2:{ split; [exact HI'|]. split; [reflexivity|]. intros He'.
      discriminate. }
  destruct Hr as (Hnd & Hit & Hall).
  assert (Hseen :
            seen ((if (0 <? length items)%nat
                   then enqueue FromBuffer items else ret tt)
                    (set_seen S' st)).2 = S'
            /\ signal ((if (0 <? length items)%nat
                        then enqueue FromBuffer items else ret tt)
                         (set_seen S' st)).2 = signal st).
  { destruct (0 <? length items)%nat; [|done].
    unfold enqueue. now destruct (closed (set_seen S' st)). }
  destruct Hseen as [Hseen Hsig].
  split; [|split; [exact Hsig|]].
  - apply dedup_invariant_enqueue_if_any; [exact HI'|exact Hnd|].
    intros x Hx. destruct (Hit x Hx) as (Hfresh & Hprod).
    destruct HI as (_ & Hcov & _). split; [|split; [|split]].
    + intros Hk. apply Hfresh. now apply Hcov.
    + cbn. now apply Hall.
    + now split.
    + intros o' Ho'. cbn in Ho'. lia.
  - intros _ _ k Hk. rewrite Hseen. now apply Hall.
Qed.

Lemma dedup_invariant_frame args fs tree st st' :
  queue st' = queue st -> seen st ⊆ seen st' ->
  dedup_invariant args fs tree st ->
  dedup_invariant args fs tree st'.
Proof.
  intros Hq Hsub (Hnd & Hcov & Hsrc).
  unfold dedup_invariant, delivered_keys, earliest_source, delivered in *.
  rewrite Hq. split; [exact Hnd|]. split; [|exact Hsrc].
  intros k Hk. apply Hsub. now apply Hcov.
Qed.

Lemma gather_mr_dedup args fs tree st :
  dedup (sourceParams args) = true ->
  dedup_invariant args fs tree st ->
  (enableBuffer (sourceParams args) = true ->
   forall k, produces_buffer (denops args) k -> k ∈ seen st) ->
  let r := gather_mr args st in
  dedup_invariant args fs tree r.2
  /\ signal r.2 = signal st
  /\ seen st ⊆ seen r.2
  /\ (enableMr (sourceParams args) = true ->
      forall k,
        produces_mr (denops args) (mrKind (sourceParams args)) k ->
        k ∈ seen r.2).
Proof.
  intros Hd HI Hbuf. unfold gather_mr. rewrite Hd.
  destruct (enableMr (sourceParams args)) eqn:Hen; [|now split].
  unfold bind.
  destruct (gatherMr_dedup (denops args) (mrKind (sourceParams args))
              (showSourcePrefix (sourceParams args)) st)
    as (items & S' & log & -> & Hsub & Hnd & Hit & Hall).
  set (st1 := {| seen := S'; queue := queue st;
                 console := console st ++ log; signal := signal st;
                 closed := closed st |}).
  assert (HI' : dedup_invariant args fs tree st1)
    by now apply (dedup_invariant_frame args fs tree st).
  assert (Hseen :
            seen ((if (0 <? length items)%nat
                   then enqueue FromMr items else ret tt) st1).2 = S'
            /\ signal ((if (0 <? length items)%nat
                        then enqueue FromMr items else ret tt) st1).2
               = signal st).
  { destruct (0 <? length items)%nat; [|done].
    unfold enqueue. now destruct (closed st1). }
  destruct Hseen as [Hseen Hsig]. cbn zeta.
  split; [|split; [exact Hsig|split]].
  - apply dedup_invariant_enqueue_if_any; [exact HI'|exact Hnd|].
    intros x Hx. destruct (Hit x Hx) as (Hfresh & Hprod).
    destruct HI as (_ & Hcov & _). split; [|split; [|split]].
    + intros Hk. apply Hfresh. now apply Hcov.
    + cbn. now apply Hall.
    + now split.
    + intros [| |] Ho'; cbn in Ho'; try lia.
      intros [Heb Hpb]. apply Hfresh. now apply Hbuf.
  - now rewrite Hseen.
  - intros _ k Hk. rewrite Hseen. now apply Hall.
Qed.

Lemma yielded_items_have_a_path args fs tree sig chunk :
  (forall d n, join d n <> "") ->
  EYield chunk ∈ (gather_walk args fs tree sig).1.1 ->
  Forall (fun x => path (action x) <> "") chunk.
Proof.
  intros Hjoin Hin. unfold gather_walk, walkFiles, inner in Hin.
  eapply Forall_impl.
  - eapply inner_loop_yields_items; [|exact Hin]. constructor.
  - intros x (d & n & ->). apply Hjoin.
Qed.

Lemma gather_fileRec_dedup args fs tree st :
  dedup (sourceParams args) = true ->
  (forall d n, join d n <> "") ->
  dedup_invariant args fs tree st ->
  signal st = None ->
  (enableBuffer (sourceParams args) = true ->
   forall k, produces_buffer (denops args) k -> k ∈ seen st) ->
  (enableMr (sourceParams args) = true ->
   forall k,
     produces_mr (denops args) (mrKind (sourceParams args)) k ->
     k ∈ seen st) ->
  dedup_invariant args fs tree (gather_fileRec args fs tree st).2.
Proof.
  intros Hd Hjoin HI Hsig Hbuf Hmr.
  destruct (enableFileRec (sourceParams args)) eqn:Hen.
  2:{ unfold gather_fileRec. now rewrite Hen. }
  set (S2 := seen st).
  destruct (gather_fileRec_inv args fs tree
              (fun st P =>
                 dedup_invariant args fs tree st
                 /\ S2 ⊆ seen st
                 /\ NoDup (map dedupKey P)
                 /\ forall x, x ∈ P ->
                      (dedupKey x ∉ delivered_keys st)
                      /\ dedupKey x ∈ seen st
                      /\ (dedupKey x ∉ S2)
                      /\ produces_fileRec args fs tree (dedupKey x))
              (fun chunk =>
                 EYield chunk ∈ (gather_walk args fs tree None).1.1))
    with (st := st) as (P & HP & _).
  - intros reason st0 P H. exact H.
  - intros chunk st0 P filtered st1 Hc (HI0 & HS & HndP & HP) Hrun.
    pose proof (yielded_items_have_a_path args fs tree None chunk Hjoin Hc)
      as Hpath.
    destruct (prepare_chunk_dedup (sourceParams args) chunk st0 Hd Hpath)
      as (f & Hrun' & Hndf & Hf).
    rewrite Hrun' in Hrun. injection Hrun as <- <-.
    assert (Hsub : seen st0 ⊆ seen st0 ∪ list_to_set (map dedupKey chunk))
      by set_solver.
    split; [now apply dedup_invariant_seen|].
    split; [cbn; set_solver|]. split.
    + rewrite map_app. apply NoDup_app. split; [exact HndP|].
      split; [|exact Hndf].
      intros k Hk Hk'. apply list_elem_of_fmap in Hk as (x & -> & Hx).
      apply list_elem_of_fmap in Hk' as (y & Hxy & Hy).
      destruct (Hf y Hy) as (Hfresh & _). apply Hfresh. rewrite <- Hxy.
      now destruct (HP x Hx) as (_ & ? & _).
    + intros x Hx. apply elem_of_app in Hx as [Hx|Hx].
      * destruct (HP x Hx) as (? & ? & ? & ?). repeat split; try done.
        cbn. set_solver.
      * destruct (Hf x Hx) as (Hfresh & y & Hy & Hxy).
        destruct HI0 as (_ & Hcov & _). split; [|split; [|split]].
        -- intros Hk. apply Hfresh. now apply Hcov.
        -- cbn. apply elem_of_union_r, elem_of_list_to_set.
           apply list_elem_of_fmap. now exists y.
        -- intros Hk. apply Hfresh. now apply HS.
        -- exists y. split; [|exact Hxy]. now exists chunk.
  - intros st0 P (HI0 & HS & HndP & HP) Hcl _.
    split; [|split; [|split; [constructor|intros x Hx; inversion Hx]]].
    + apply dedup_invariant_enqueue; [exact HI0|exact HndP|].
      intros x Hx. destruct (HP x Hx) as (? & ? & HnS & ?).
      repeat split; try done.
      intros [| |] Ho'; cbn in Ho'; try lia.
      * intros [Heb Hpb]. apply HnS. now apply Hbuf.
      * intros [Hem Hpm]. apply HnS. now apply Hmr.
    + unfold enqueue. now rewrite Hcl.
  - intros chunk Hc. now rewrite Hsig in Hc.
  - split; [exact HI|]. split; [done|].
    split; [constructor|intros x Hx; inversion Hx].
  - exact HP.
Qed.

(** C1. With [dedup] set, no two delivered items have the same normalized
    path, and every delivered item comes from the first of the three sources,
    in the order buffer, MRU, walk, that produces its key. The walker's paths
    come from [join], which gives no empty path. *)
Theorem dedup_uniqueness args fs tree :
  dedup (sourceParams args) = true ->
  (forall d n, join d n <> "") ->
  let st := gather args fs tree in
  NoDup (delivered_keys st) /\ earliest_source args fs tree st.
Proof.
  intros Hd Hjoin.
  assert (H : dedup_invariant args fs tree (gather args fs tree));
    [|now destruct H as (? & _ & ?)].
  apply (start_inv args fs tree
           (fun st =>
              dedup_invariant args fs tree st /\ signal st = None
              /\ (enableBuffer (sourceParams args) = true ->
                  forall k, produces_buffer (denops args) k -> k ∈ seen st))
           (fun st =>
              dedup_invariant args fs tree st /\ signal st = None
              /\ (enableBuffer (sourceParams args) = true ->
                  forall k, produces_buffer (denops args) k -> k ∈ seen st)
              /\ (enableMr (sourceParams args) = true ->
                  forall k,
                    produces_mr (denops args) (mrKind (sourceParams args)) k
                    -> k ∈ seen st))).
  - assert (H0 : dedup_invariant args fs tree initial_state).
    { split; [constructor|]. split.
      - intros k H. inversion H.
      - intros o x H. inversion H. }
    destruct (gather_buffer_dedup args fs tree initial_state Hd H0)
      as (HI & Hsig & Hall).
    destruct (gather_buffer args initial_state) as [[[]|e] st1];
      cbn in *; [|exact HI].
    split; [exact HI|]. split; [exact Hsig|]. now apply Hall.
  - intros st (HI & Hsig & Hbuf).
    destruct (gather_mr_dedup args fs tree st Hd HI Hbuf)
      as (HI' & Hsig' & Hsub & Hall).
    destruct (gather_mr args st) as [[[]|e] st2]; cbn in *; [|exact HI'].
    split; [exact HI'|]. split; [congruence|]. split; [|exact Hall].
    intros Hen k Hk. apply Hsub. now apply Hbuf.
  - intros st (HI & Hsig & Hbuf & Hmr). now apply gather_fileRec_dedup.
  - intros st line HI. exact HI.
  - intros st HI. exact HI.
Qed.

(** ** The chunk emitter *)

Lemma dedup_filter_frame chunk st st' :
  seen st = seen st' ->
  exists kept S',
    dedup_filter chunk st = (Normal kept, set_seen S' st)
    /\ dedup_filter chunk st' = (Normal kept, set_seen S' st').
Proof.
  revert st st'. induction chunk as [|item chunk IH]; intros st st' Hs.
  - exists [], (seen st). cbn. unfold ret, set_seen. rewrite Hs at 2.
    now destruct st, st'.
  - cbn [dedup_filter]. unfold bind, seen_has, seen_add, ret.
    destruct (String.eqb (path (action item)) "");
      [|cbn beta; rewrite <- Hs; destruct (bool_decide _)].
    + destruct (IH st st' Hs) as (kept & S' & -> & ->). now eexists _, _.
    + destruct (IH st st' Hs) as (kept & S' & -> & ->). now eexists _, _.
    + pose (S1 := {[normalizePath (path (action item))]} ∪ seen st).
      destruct (IH (set_seen S1 st) (set_seen S1 st') eq_refl)
        as (kept & S' & H1 & H2).
      unfold set_seen in H1 at 1. unfold set_seen in H2 at 1.
      subst S1. cbn in H1, H2. cbn beta iota. rewrite <- ?Hs.
      rewrite H1, H2. now eexists _, _.
Qed.

Lemma prepare_chunk_prepared params chunk st :
  prepare_chunk params chunk st
  = (Normal (prepared params (seen st) chunk).1,
     set_seen (prepared params (seen st) chunk).2 st).
Proof.
  unfold prepared, prepare_chunk, bind, ret.
  destruct (dedup params).
  - destruct (dedup_filter_frame chunk st (set_seen (seen st) initial_state)
                eq_refl) as (kept & S' & -> & ->).
    reflexivity.
  - cbn. unfold set_seen. now destruct st.
Qed.

Lemma for_await_emitter params chunks :
  forall n P st,
    closed st = false ->
    for_await params (map EYield chunks)
      (emission_threshold (chunkSize params) n) P st
    = let '(fcs, S') := prepared_chunks params (seen st) chunks in
      let '(out, remaining, n') :=
        chunk_emitter_run (chunkSize params) n P fcs in
      (Normal (emission_threshold (chunkSize params) n', remaining),
       set_seen S' (set_queue (queue st ++ map (pair FromFileRec) out) st)).
Proof.
  induction chunks as [|chunk chunks IH]; intros n P st Hcl.
  - cbn. unfold ret, set_seen, set_queue. rewrite app_nil_r.
    now destruct st.
  - cbn [map for_await prepared_chunks]. unfold bind at 1.
    rewrite prepare_chunk_prepared.
    destruct (prepared params (seen st) chunk) as [filtered S1] eqn:Hprep.
    cbn [fst snd].
    specialize (IH n (P ++ filtered) (set_seen S1 st) Hcl) as IH1.
    cbn [seen set_seen] in IH1.
    destruct (prepared_chunks params S1 chunks) as [more S2] eqn:Hmore.
    cbn [chunk_emitter_run].
    destruct (Z.of_nat (length (P ++ filtered))
              >=? emission_threshold (chunkSize params) n) eqn:Hge.
    + unfold bind at 1. unfold enqueue at 1. cbn [closed set_seen].
      rewrite Hcl. cbn [seen queue console signal closed set_seen].
      match goal with
      | |- for_await _ _ _ _ ?s = _ =>
          specialize (IH (S n) [] s eq_refl) as IH2
      end.
      cbn [seen set_seen] in IH2. rewrite Hmore in IH2.
      change (10 * chunkSize params)
        with (emission_threshold (chunkSize params) (S n)).
      rewrite IH2.
      destruct (chunk_emitter_run (chunkSize params) (S n) [] more)
        as [[out remaining] n'].
      unfold set_seen, set_queue. cbn. now rewrite <- app_assoc, Hcl.
    + exact IH1.
Qed.

(** The walk step on a stream that stays open: what is enqueued is what the
    emitter emits for the prepared chunks, with the final flush when the walk
    returns and without it when the walk throws. *)
Lemma gather_fileRec_emitter args fs tree st chunks walk_end s :
  let params := sourceParams args in
  enableFileRec params = true ->
  closed st = false ->
  gather_walk args fs tree (signal st) = (map EYield chunks, walk_end, s) ->
  let fcs := (prepared_chunks params (seen st) chunks).1 in
  let S' := (prepared_chunks params (seen st) chunks).2 in
  gather_fileRec args fs tree st
  = match walk_end with
    | Returned =>
        (Normal tt,
         set_seen S'
           (set_queue
              (queue st
               ++ map (pair FromFileRec)
                    (chunk_emitter (chunkSize params) fcs)) st))
    | Threw e =>
        (Throw e,
         set_seen S'
           (set_queue
              (queue st
               ++ map (pair FromFileRec)
                    (chunk_emitter_run (chunkSize params) 0 [] fcs).1.1)
              st))
    end.
Proof.
  intros params Hen Hcl Hwalk fcs S'. unfold gather_fileRec. fold params.
  rewrite Hen, Hwalk. unfold bind at 1.
  change (chunkSize params) with (emission_threshold (chunkSize params) 0)
    at 1.
  rewrite (for_await_emitter params chunks 0 [] st Hcl).
  subst fcs S'.
  destruct (prepared_chunks params (seen st) chunks) as [fcs S'].
  cbn [fst snd]. unfold chunk_emitter.
  destruct (chunk_emitter_run (chunkSize params) 0 [] fcs)
    as [[out remaining] n'].
  cbn [fst snd]. destruct walk_end as [|e]; [|reflexivity].
  destruct remaining as [|x remaining]; cbn [length Nat.ltb Nat.leb].
  - now rewrite app_nil_r.
  - unfold enqueue. cbn [closed set_seen set_queue]. rewrite Hcl.
    unfold set_seen, set_queue. cbn. now rewrite map_app, app_assoc, Hcl.
Qed.

(** C5. The loop over the walk delivers what the chunk emitter of the
    specification delivers: the first batch goes out when the buffered items
    reach [chunkSize], every later batch when they reach ten times
    [chunkSize], and when the walk ends the buffered rest, if any, is flushed
    whatever the threshold. *)
Theorem chunk_emitter_policy args fs tree st chunks s :
  let params := sourceParams args in
  enableFileRec params = true ->
  closed st = false ->
  gather_walk args fs tree (signal st) = (map EYield chunks, Returned, s) ->
  (gather_fileRec args fs tree st).1 = Normal tt
  /\ queue (gather_fileRec args fs tree st).2
     = queue st
       ++ map (pair FromFileRec)
            (chunk_emitter (chunkSize params)
               (prepared_chunks params (seen st) chunks).1).
Proof.
  intros params Hen Hcl Hwalk.
  now rewrite (gather_fileRec_emitter args fs tree st chunks Returned s
                 Hen Hcl Hwalk).
Qed.

(** ** Failure of the MRU call *)

Lemma mr_call_fails_throws denops mrKind :
  mr_call_fails (dispatch denops "mr" (mrKind +:+ ":list")) = true ->
  exists e, mr_list denops mrKind = Throw e.
Proof.
  unfold mr_call_fails, mr_list, deadline.
  destruct (dispatch denops "mr" (mrKind +:+ ":list")) as [ms v|ms e|].
  - destruct (ms <? 1000) eqn:Hms.
    + assert (H : (1000 <=? ms) = false) by lia. rewrite H. cbn.
      destruct (ensure_ArrayOf_String v) as [r|e]; [discriminate|].
      now exists e.
    + now exists timeoutError.
  - destruct (ms <? 1000); now eexists.
  - now exists timeoutError.
Qed.

Lemma gatherMr_throws denops mrKind dd sp e st :
  mr_list denops mrKind = Throw e ->
  gatherMr denops mrKind dd sp st
  = (Normal [], (console_error (mr_diagnostic e) st).2).
Proof.
  intros H. unfold gatherMr, mr_diagnostic. rewrite H.
  now destruct (instanceof_DOMException e).
Qed.

Lemma log_frame_ret {A} (a : A) : log_frame (ret a).
Proof. intros l st. reflexivity. Qed.

Lemma log_frame_throw {A} e : log_frame (@throw A e).
Proof. intros l st. reflexivity. Qed.

Lemma log_frame_bind {A B} (m : M A) (k : A -> M B) :
  log_frame m -> (forall a, log_frame (k a)) -> log_frame (bind m k).
Proof.
  intros Hm Hk l st. unfold bind. rewrite Hm.
  destruct (m st) as [[a|e] st1]; cbn [fst snd]; [apply Hk|reflexivity].
Qed.

Lemma log_frame_enqueue o batch : log_frame (enqueue o batch).
Proof.
  intros l st. unfold enqueue, add_log. cbn [closed].
  destruct (closed st) eqn:Hcl; cbn; now rewrite ?Hcl.
Qed.

Lemma log_frame_cancel reason : log_frame (cancel reason).
Proof. intros l st. reflexivity. Qed.

Lemma log_frame_prepare_chunk params chunk :
  log_frame (prepare_chunk params chunk).
Proof. intros l st. now rewrite !prepare_chunk_prepared. Qed.

Lemma log_frame_for_await params events :
  forall E P, log_frame (for_await params events E P).
Proof.
  induction events as [|[chunk|reason] events IH]; intros E P.
  - apply log_frame_ret.
  - cbn [for_await]. apply log_frame_bind.
    + apply log_frame_prepare_chunk.
    + intros filtered. destruct (Z.of_nat _ >=? E); [|apply IH].
      apply log_frame_bind; [apply log_frame_enqueue|intros _; apply IH].
  - cbn [for_await]. apply log_frame_bind.
    + apply log_frame_cancel.
    + intros _. apply IH.
Qed.

Lemma log_frame_gather_fileRec args fs tree :
  log_frame (gather_fileRec args fs tree).
Proof.
  unfold gather_fileRec.
  destruct (enableFileRec (sourceParams args)); [|apply log_frame_ret].
  intros l st. cbn [signal add_log].
  destruct (gather_walk args fs tree (signal st)) as [[events wend] s].
  apply log_frame_bind.
  - apply log_frame_for_await.
  - intros vars. destruct wend as [|e]; [|apply log_frame_throw].
    destruct (0 <? length vars.2)%nat;
      [apply log_frame_enqueue|apply log_frame_ret].
Qed.

Lemma log_frame_start_catch e : log_frame (start_catch e).
Proof.
  intros l st. unfold start_catch.
  destruct (is_AbortReason e); [reflexivity|].
  unfold console_error, add_log. cbn. now rewrite app_assoc.
Qed.

Lemma for_await_without_mr p1 p2 events :
  dedup p1 = dedup p2 -> showSourcePrefix p1 = showSourcePrefix p2 ->
  chunkSize p1 = chunkSize p2 ->
  forall E P st, for_await p1 events E P st = for_await p2 events E P st.
Proof.
  intros Hd Hs Hc.
  induction events as [|[chunk|reason] events IH]; intros E P st.
  - reflexivity.
  - cbn [for_await].
    assert (Hp : prepare_chunk p1 chunk = prepare_chunk p2 chunk)
      by (unfold prepare_chunk; now rewrite Hd, Hs).
    rewrite Hp. unfold bind at 1 3.
    destruct (prepare_chunk p2 chunk st) as [[filtered|e] st1];
      [|reflexivity].
    destruct (Z.of_nat _ >=? E); [|apply IH].
    unfold bind. destruct (enqueue _ _ st1) as [[[]|e] st2]; [|reflexivity].
    rewrite Hc. apply IH.
  - cbn [for_await]. unfold bind. apply IH.
Qed.

Lemma gather_fileRec_without_mr args fs tree st :
  gather_fileRec (without_mr args) fs tree st
  = gather_fileRec args fs tree st.
Proof.
  unfold gather_fileRec.
  change (enableFileRec (sourceParams (without_mr args)))
    with (enableFileRec (sourceParams args)).
  destruct (enableFileRec (sourceParams args)); [|reflexivity].
  change (gather_walk (without_mr args) fs tree (signal st))
    with (gather_walk args fs tree (signal st)).
  destruct (gather_walk args fs tree (signal st)) as [[events wend] s].
  unfold bind.
  now rewrite (for_await_without_mr (sourceParams (without_mr args))
                 (sourceParams args)).
Qed.

Lemma gather_buffer_console args st :
  console (gather_buffer args st).2 = console st.
Proof.
  unfold gather_buffer.
  destruct (enableBuffer (sourceParams args)); [|reflexivity].
  unfold bind.
  destruct (gatherBuffer_stream (denops args) (bufNr (context args))
              (bufferOrderby (sourceParams args))
              (dedup (sourceParams args))
              (showSourcePrefix (sourceParams args)) st)
    as (r & S' & ->).
  destruct r as [items|e]; [|reflexivity].
  destruct (0 <? length items)%nat; [|reflexivity].
  unfold enqueue. now destruct (closed (set_seen S' st)).
Qed.

(** C7. When the MRU call times out under its deadline of 1000 ms, rejects,
    or answers with something that is not an array of strings, [gatherMr]
    logs one diagnostic and returns the empty list; a run that reaches the MRU
    step is then the run with the MRU source switched off, with that
    diagnostic logged: the stream, the registry and the signal end up the
    same, so the failure aborts nothing. *)
Theorem mr_failure_is_contained args fs tree :
  let p := sourceParams args in
  enableMr p = true ->
  mr_call_fails (dispatch (denops args) "mr" (mrKind p +:+ ":list")) = true ->
  (gather_buffer args initial_state).1 = Normal tt ->
  exists e,
    mr_list (denops args) (mrKind p) = Throw e
    /\ (forall st,
          gatherMr (denops args) (mrKind p) (dedup p) (showSourcePrefix p) st
          = (Normal [], (console_error (mr_diagnostic e) st).2))
    /\ gather args fs tree
       = add_log [mr_diagnostic e] (gather (without_mr args) fs tree).
Proof.
  intros p Hen Hfail Hbuf.
  destruct (mr_call_fails_throws (denops args) (mrKind p) Hfail) as [e He].
  exists e. split; [exact He|]. split.
  { intros st. now apply gatherMr_throws. }
  unfold gather, start, finally, try_catch, bind.
  change (gather_buffer (without_mr args)) with (gather_buffer args).
  pose proof (gather_buffer_console args initial_state) as Hcon.
  destruct (gather_buffer args initial_state) as [[[]|e1] st1];
    cbn [snd] in Hcon; [|discriminate].
  assert (Hmr : gather_mr args st1
                = (Normal tt, add_log [mr_diagnostic e] st1)).
  { unfold gather_mr. fold p. rewrite Hen. unfold bind.
    rewrite (gatherMr_throws _ _ _ _ e st1 He). cbn.
    unfold ret, add_log. now rewrite Hcon. }
  rewrite Hmr.
  change (gather_mr (without_mr args) st1) with (Normal tt, st1).
  cbn iota. rewrite gather_fileRec_without_mr, log_frame_gather_fileRec.
  destruct (gather_fileRec args fs tree st1) as [[[]|e3] st3];
    cbn [fst snd]; [reflexivity|].
  rewrite log_frame_start_catch.
  now destruct (start_catch e3 st3).
Qed.

(** ** Decisions of the walker *)

Section EntryFacts.
Variable fs : Fs.
Variable root : string.
Variable ignored : list string.
Variable size : Z.

(** What the loop does with an entry whose metadata is a file's: it appends
    the item, yields the chunk when it is full, and goes on with the next
    entry; the listing [sub] behind the entry is not read. *)
Lemma inner_loop_EmitFile expand dir chunk name sub rest :
  entry_action fs ignored expand (join dir name) name = EmitFile ->
  inner_loop fs root ignored size expand None dir chunk
    (NextEntry name None sub rest)
  = let chunk' := chunk ++ [file_item root (join dir name)] in
    if Z.of_nat (length chunk') >=? size then
      let '(evs, e, s) :=
        inner_loop fs root ignored size expand None dir [] rest in
      (EYield chunk' :: evs, e, s)
    else inner_loop fs root ignored size expand None dir chunk' rest.
Proof.
  intros H. cbn [inner_loop]. rewrite H. cbn zeta.
  destruct (Z.of_nat _ >=? size).
  - now destruct (inner_loop fs root ignored size expand None dir [] rest)
      as [[evs e] s].
  - now destruct (inner_loop fs root ignored size expand None dir _ rest)
      as [[evs e] s].
Qed.

(** C10. With [expandSymbolicLink] unset, an entry that [Deno.lstat] reports
    as a symbolic link (and so, as [lstat] does, not as a directory) is
    handled as a file: the walker emits an item with [isDirectory = false]
    for it and never reads the listing behind it. The loop check needs
    [isSymlink] and [isDirectory] together, so it finds a loop only when
    [expandSymbolicLink] is set. *)
Theorem unexpanded_symlink_is_a_file dir name :
  (forall info,
      lstat fs (join dir name) = Some info ->
      FileInfo.isSymlink info = true -> FileInfo.isDirectory info = false) ->
  (forall info,
      lstat fs (join dir name) = Some info ->
      FileInfo.isSymlink info = true ->
      entry_action fs ignored false (join dir name) name = EmitFile
      /\ isDirectory (action (file_item root (join dir name))) = false
      /\ forall chunk sub rest,
           inner_loop fs root ignored size false None dir chunk
             (NextEntry name None sub rest)
           = let chunk' := chunk ++ [file_item root (join dir name)] in
             if Z.of_nat (length chunk') >=? size then
               let '(evs, e, s) :=
                 inner_loop fs root ignored size false None dir [] rest in
               (EYield chunk' :: evs, e, s)
             else inner_loop fs root ignored size false None dir chunk' rest)
  /\ (forall expand,
        entry_action fs ignored expand (join dir name) name = Looped ->
        expand = true).
Proof.
  intros Hwf. split.
  - intros info Hl Hs.
    assert (Ha : entry_action fs ignored false (join dir name) name
                 = EmitFile).
    { unfold entry_action, readStat. rewrite Hl, andb_false_r.
      now rewrite (Hwf info Hl Hs). }
    split; [exact Ha|]. split; [reflexivity|].
    intros chunk sub rest. now apply inner_loop_EmitFile.
  - intros [|] H; [reflexivity|]. exfalso.
    unfold entry_action, readStat in H.
    destruct (lstat fs (join dir name)) as [info|] eqn:Hl; [|discriminate].
    rewrite andb_false_r in H.
    destruct (FileInfo.isDirectory info) eqn:Hd; [|discriminate].
    cbn in H. destruct (bool_decide _); [discriminate|].
    destruct (FileInfo.isSymlink info) eqn:Hs.
    + rewrite (Hwf info eq_refl Hs) in Hd. discriminate.
    + discriminate.
Qed.

(** The loop check fires exactly when the resolved path occurs somewhere in
    the path of the entry. *)
Lemma Looped_iff expand abspath name :
  entry_action fs ignored expand abspath name = Looped <->
  exists info real,
    readStat fs abspath expand = Some info
    /\ FileInfo.isDirectory info = true
    /\ FileInfo.isSymlink info = true
    /\ (name ∉ ignored)
    /\ realPath fs abspath = Normal real
    /\ includes abspath real = true.
Proof.
  unfold entry_action. split.
  - destruct (readStat fs abspath expand) as [info|]; [|discriminate].
    destruct (FileInfo.isDirectory info) eqn:Hd; [|discriminate]. cbn.
    destruct (bool_decide (name ∈ ignored)) eqn:Hi; [discriminate|].
    apply bool_decide_eq_false in Hi.
    destruct (FileInfo.isSymlink info) eqn:Hs; [|discriminate]. cbn.
    destruct (realPath fs abspath) as [real|e]; [|discriminate].
    destruct (includes abspath real) eqn:Hinc; [|discriminate].
    intros _. now exists info, real.
  - intros (info & real & -> & -> & -> & Hi & -> & ->). cbn.
    apply (bool_decide_eq_false_2 _) in Hi. now rewrite Hi.
Qed.

End EntryFacts.

(** ** Failures while reading a directory *)

Lemma inner_catch_Threw e e' :
  inner_catch e = Threw e' -> e' = e /\ instanceof_PermissionDenied e = false.
Proof.
  unfold inner_catch. destruct (instanceof_PermissionDenied e);
    [discriminate|]. now intros [= ->].
Qed.

Lemma inner_loop_Threw fs root ignored size expand l :
  forall sig dir chunk e,
    (inner_loop fs root ignored size expand sig dir chunk l).1.2 = Threw e ->
    instanceof_PermissionDenied e = false.
Proof.
  induction l as [|e0|reason|name interrupt sub IHsub rest IHrest];
    intros [r|] dir chunk e;
    try (rewrite inner_loop_aborted; cbn; intros H;
         apply inner_catch_Threw in H as [-> H]; exact H).
  - cbn. discriminate.
  - cbn. intros H. apply inner_catch_Threw in H as [-> H]; exact H.
  - cbn. intros H. apply inner_catch_Threw in H as [-> H]; exact H.
  - cbn [inner_loop].
    set (sig1 := match interrupt with
                 | Some reason => abort reason None
                 | None => None
                 end).
    destruct (entry_action fs ignored expand (join dir name) name).
    + specialize (IHrest sig1 dir chunk e).
      now destruct (inner_loop fs root ignored size expand sig1 dir chunk
                      rest) as [[evs e1] s].
    + destruct (Z.of_nat _ >=? size).
      * specialize (IHrest sig1 dir [] e).
        now destruct (inner_loop fs root ignored size expand sig1 dir []
                        rest) as [[evs e1] s].
      * match goal with
        | |- context [inner_loop _ _ _ _ _ _ _ ?c rest] =>
            specialize (IHrest sig1 dir c e);
            now destruct (inner_loop fs root ignored size expand sig1 dir c
                            rest) as [[evs e1] s]
        end.
    + specialize (IHrest sig1 dir chunk e).
      now destruct (inner_loop fs root ignored size expand sig1 dir chunk
                      rest) as [[evs e1] s].
    + specialize (IHrest sig1 dir chunk e).
      now destruct (inner_loop fs root ignored size expand sig1 dir chunk
                      rest) as [[evs e1] s].
    + destruct (inner_loop fs root ignored size expand sig1 (join dir name)
                  [] sub) as [[evs1 e1] s1].
      destruct e1 as [|e1].
      * specialize (IHrest s1 dir chunk e).
        now destruct (inner_loop fs root ignored size expand s1 dir chunk
                        rest) as [[evs2 e2] s2].
      * cbn. intros H. apply inner_catch_Threw in H as [-> H]; exact H.
    + cbn. intros H. apply inner_catch_Threw in H as [-> H]; exact H.
Qed.

(** C4. A permission-denied error while a directory is read ends the walk of
    that directory only: its generator returns without yielding anything
    more, and the loop of the parent goes on with its own chunk and its next
    entries. Any other error leaves the generator of the directory as an
    exception, passes through the loop of every parent, which yields nothing
    after it, and reaches [gather], whose loop ends with that exception; the
    batches enqueued before stay in the queue. *)
Theorem permission_denied_is_local fs root ignored size expand :
  (forall dir chunk e,
      inner_loop fs root ignored size expand None dir chunk (ReadThrows e)
      = ([], if instanceof_PermissionDenied e then Returned else Threw e,
         None))
  /\ (forall dir chunk name sub rest,
        entry_action fs ignored expand (join dir name) name = Descend ->
        inner_loop fs root ignored size expand None dir chunk
          (NextEntry name None sub rest)
        = let '(evs1, e1, s1) :=
            inner fs root ignored size expand None (join dir name) sub in
          match e1 with
          | Returned =>
              let '(evs2, e2, s2) :=
                inner_loop fs root ignored size expand s1 dir chunk rest in
              (evs1 ++ evs2, e2, s2)
          | Threw e => (evs1, Threw e, s1)
          end)
  /\ (forall sig dir chunk l e,
        (inner_loop fs root ignored size expand sig dir chunk l).1.2
        = Threw e ->
        instanceof_PermissionDenied e = false)
  /\ (forall args tree st chunks e s,
        enableFileRec (sourceParams args) = true ->
        closed st = false ->
        gather_walk args fs tree (signal st) = (map EYield chunks, Threw e, s)
        ->
        (gather_fileRec args fs tree st).1 = Throw e
        /\ exists batches,
             queue (gather_fileRec args fs tree st).2
             = queue st ++ map (pair FromFileRec) batches).
Proof.
  split; [|split; [|split]].
  - intros dir chunk e. reflexivity.
  - intros dir chunk name sub rest Ha. cbn [inner_loop]. rewrite Ha.
    unfold inner. cbn [app].
    pose proof (inner_loop_Threw fs root ignored size expand sub None
                  (join dir name) []) as Hsub.
    destruct (inner_loop fs root ignored size expand None (join dir name)
                [] sub) as [[evs1 e1] s1].
    destruct e1 as [|e]; [reflexivity|].
    unfold inner_catch. now rewrite (Hsub e eq_refl).
  - intros sig dir chunk l e. apply inner_loop_Threw.
  - intros args tree st chunks e s Hen Hcl Hwalk.
    rewrite (gather_fileRec_emitter args fs tree st chunks (Threw e) s
               Hen Hcl Hwalk).
    split; [reflexivity|]. now eexists.
Qed.

(** ** Deduplication switched off *)

Lemma gatherBuffer_loop_nodedup denops bufNr alt cd sp sorted st :
  exists r,
    gatherBuffer_loop denops bufNr alt cd false sp sorted st = (r, st)
    /\ forall items,
         r = Normal items ->
         items = map (buffer_item bufNr alt cd sp)
                   (List.filter (buffer_candidate denops) sorted).
Proof.
  induction sorted as [|buf sorted IH].
  - exists (Normal []). split; [reflexivity|]. now intros items [= <-].
  - cbn [gatherBuffer_loop List.filter]. unfold buffer_candidate at 1.
    destruct (String.eqb (BufInfo.name buf) "") eqn:Hname; [exact IH|].
    unfold bind at 1, await at 1.
    destruct (call_getbufvar denops (BufInfo.bufnr buf)) as [u|e].
    2:{ exists (Throw e). split; [reflexivity|]. discriminate. }
    destruct (String.eqb (bufType_of u) "terminal"); [exact IH|].
    unfold bind at 1, ret at 1. unfold bind at 1.
    destruct IH as (r & -> & Hr). destruct r as [items|e].
    + eexists. split; [reflexivity|]. intros items' [= <-]. cbn.
      now rewrite (Hr items eq_refl).
    + exists (Throw e). split; [reflexivity|]. discriminate.
Qed.

Lemma gather_buffer_nodedup args :
  dedup (sourceParams args) = false ->
  (gather_buffer args initial_state).1 = Normal tt ->
  exists st1,
    gather_buffer args initial_state = (Normal tt, st1)
    /\ seen st1 = ∅ /\ console st1 = [] /\ signal st1 = None
    /\ closed st1 = false
    /\ delivered st1 = map (pair FromBuffer) (buffer_items args).
Proof.
  intros Hd. unfold gather_buffer, buffer_items. rewrite Hd.
  destruct (enableBuffer (sourceParams args)).
  2:{ intros _. now exists initial_state. }
  unfold gatherBuffer. unfold bind, await.
  destruct (call_getbufinfo (denops args)) as [info|e]; [|discriminate].
  cbv zeta.
  destruct (gatherBuffer_loop_nodedup (denops args) (bufNr (context args))
              (alternateBufNr info) (currentDir info)
              (showSourcePrefix (sourceParams args))
              (js_sort
                 (buffer_compare (bufferOrderby (sourceParams args))
                    (bufNr (context args)))
                 (List.filter BufInfo.listed (buffers info)))
              initial_state) as (r & -> & Hr).
  destruct r as [items|e]; [|discriminate].
  rewrite <- (Hr items eq_refl). intros _.
  destruct items as [|x items]; cbn.
  - now exists initial_state.
  - eexists. split; [reflexivity|]. repeat split. unfold delivered. cbn.
    now rewrite app_nil_r.
Qed.

Lemma gather_mr_nodedup args st1 :
  dedup (sourceParams args) = false ->
  closed st1 = false ->
  exists log,
    gather_mr args st1
    = (Normal tt,
       {| seen := seen st1;
          queue := queue st1
                   ++ match mr_items args with
                      | [] => []
                      | items => [(FromMr, items)]
                      end;
          console := console st1 ++ log;
          signal := signal st1;
          closed := closed st1 |}).
Proof.
  intros Hd Hcl. unfold gather_mr, mr_items. rewrite Hd.
  destruct (enableMr (sourceParams args)).
  2:{ exists []. unfold ret. rewrite !app_nil_r. now destruct st1. }
  unfold bind, gatherMr.
  destruct (mr_list (denops args) (mrKind (sourceParams args)))
    as [result|e].
  - rewrite gatherMr_loop_nodedup. exists [].
    fold (mr_item (mrKind (sourceParams args))
            (showSourcePrefix (sourceParams args))).
    destruct (map _ result) as [|x items] eqn:Hitems.
    + cbn. unfold ret. rewrite !app_nil_r. now destruct st1.
    + cbn [length Nat.ltb Nat.leb]. unfold enqueue. rewrite Hcl.
      now rewrite app_nil_r.
  - exists [mr_diagnostic e]. unfold mr_diagnostic.
    destruct (instanceof_DOMException e); cbn; unfold ret;
      rewrite app_nil_r; reflexivity.
Qed.

Lemma prepared_chunks_nodedup p S chunks :
  dedup p = false ->
  prepared_chunks p S chunks
  = (map (fun c => if showSourcePrefix p then map add_rec_prefix c else c)
       chunks, S).
Proof.
  intros Hd. induction chunks as [|c chunks IH]; [reflexivity|].
  cbn [prepared_chunks map]. unfold prepared.
  rewrite (prepare_chunk_nodedup p c _ Hd). cbn [seen set_seen].
  now rewrite IH.
Qed.

Lemma chunk_emitter_run_concat base batches :
  forall n buffered,
    concat (chunk_emitter_run base n buffered batches).1.1
    ++ (chunk_emitter_run base n buffered batches).1.2
    = buffered ++ concat batches.
Proof.
  induction batches as [|b batches IH]; intros n buffered.
  - cbn. now rewrite app_nil_r.
  - cbn [chunk_emitter_run concat].
    destruct (Z.of_nat _ >=? emission_threshold base n).
    + specialize (IH (S n) []).
      destruct (chunk_emitter_run base (S n) [] batches)
        as [[out remaining] n'].
      cbn in IH |- *. now rewrite <- !app_assoc, IH.
    + now rewrite IH, <- app_assoc.
Qed.

Lemma chunk_emitter_concat base batches :
  concat (chunk_emitter base batches) = concat batches.
Proof.
  unfold chunk_emitter.
  pose proof (chunk_emitter_run_concat base batches 0 []) as H.
  destruct (chunk_emitter_run base 0 [] batches) as [[out remaining] n'].
  cbn in H. rewrite concat_app, <- H.
  destruct remaining; cbn; now rewrite ?app_nil_r.
Qed.

Lemma delivered_app q1 q2 seen_ console_ signal_ closed_ :
  delivered {| seen := seen_; queue := q1 ++ q2; console := console_;
               signal := signal_; closed := closed_ |}
  = delivered {| seen := seen_; queue := q1; console := console_;
                 signal := signal_; closed := closed_ |}
    ++ concat (map (fun b => map (pair b.1) b.2) q2).
Proof. unfold delivered. cbn. now rewrite map_app, concat_app. Qed.

Lemma delivered_batches o batches :
  concat (map (fun b : Origin * list Item => map (pair b.1) b.2)
            (map (pair o) batches))
  = map (pair o) (concat batches).
Proof.
  induction batches as [|b batches IH]; [reflexivity|].
  cbn. now rewrite IH, map_app.
Qed.

Lemma makeItem_tagged p o w path_ d :
  tagged p o (makeItem w path_ (source_tag p o) true d).
Proof. split; reflexivity. Qed.

Lemma add_rec_prefix_tagged p x : tagged p FromFileRec (add_rec_prefix x).
Proof. split; reflexivity. Qed.

Lemma gather_nodedup args fs tree chunks s :
  let p := sourceParams args in
  dedup p = false ->
  (gather_buffer args initial_state).1 = Normal tt ->
  (enableFileRec p = true ->
   gather_walk args fs tree None = (map EYield chunks, Returned, s)) ->
  seen (gather args fs tree) = ∅
  /\ delivered (gather args fs tree)
     = map (pair FromBuffer) (buffer_items args)
       ++ map (pair FromMr) (mr_items args)
       ++ map (pair FromFileRec) (fileRec_items args chunks).
Proof.
  intros p Hd Hbuf Hwalk.
  destruct (gather_buffer_nodedup args Hd Hbuf)
    as (st1 & Hrun1 & Hseen1 & Hcon1 & Hsig1 & Hcl1 & Hdel1).
  destruct (gather_mr_nodedup args st1 Hd Hcl1) as (log & Hrun2).
  unfold gather, start, finally, try_catch, bind.
  rewrite Hrun1, Hrun2.
  set (st2 := {| seen := seen st1;
                 queue := queue st1
                          ++ match mr_items args with
                             | [] => []
                             | items => [(FromMr, items)]
                             end;
                 console := console st1 ++ log;
                 signal := signal st1;
                 closed := closed st1 |}).
  assert (Hdel2 : delivered st2
                  = map (pair FromBuffer) (buffer_items args)
                    ++ map (pair FromMr) (mr_items args)).
  { unfold st2. rewrite delivered_app. f_equal.
    - rewrite <- Hdel1. reflexivity.
    - destruct (mr_items args); [reflexivity|]. cbn.
      now rewrite app_nil_r. }
  unfold fileRec_items. fold p.
  destruct (enableFileRec p) eqn:Hen.
  - specialize (Hwalk eq_refl).
    assert (Hwalk2 : gather_walk args fs tree (signal st2)
                     = (map EYield chunks, Returned, s)).
    { unfold st2. cbn [signal]. now rewrite Hsig1. }
    rewrite (gather_fileRec_emitter args fs tree st2 chunks Returned s
               Hen Hcl1 Hwalk2).
    fold p. rewrite (prepared_chunks_nodedup p (seen st2) chunks Hd).
    cbn [fst snd]. split; [exact Hseen1|].
    unfold set_seen, set_queue, close. cbn [seen queue console signal closed].
    rewrite delivered_app, delivered_batches, chunk_emitter_concat.
    rewrite app_assoc. f_equal.
    + rewrite <- Hdel2. reflexivity.
    + f_equal. destruct (showSourcePrefix p); [|now rewrite map_id].
      symmetry. apply concat_map.
  - unfold gather_fileRec. fold p. rewrite Hen. cbn.
    split; [exact Hseen1|]. rewrite app_nil_r. rewrite <- Hdel2.
    reflexivity.
Qed.

(** C8 (amended). With [dedup] unset nothing is recorded in the registry and
    nothing is filtered: in a run whose buffer step and walk complete, the
    delivered stream is every item of the buffer source, then every item of
    the MRU source, then every item the walk yields, so a path that two
    sources produce is delivered once by each. The items carry the tag of
    their source when [showSourcePrefix] is set, and no tag when it is
    unset. *)
Theorem dedup_disabled_passthrough args fs tree chunks s :
  let p := sourceParams args in
  dedup p = false ->
  (gather_buffer args initial_state).1 = Normal tt ->
  (enableFileRec p = true ->
   gather_walk args fs tree None = (map EYield chunks, Returned, s)) ->
  let st := gather args fs tree in
  seen st = ∅
  /\ delivered st
     = map (pair FromBuffer) (buffer_items args)
       ++ map (pair FromMr) (mr_items args)
       ++ map (pair FromFileRec) (fileRec_items args chunks)
  /\ (forall o x,
        (o, x) ∈ delivered st ->
        if showSourcePrefix p then tagged p o x
        else display x = None /\ highlights x = None).
Proof.
  intros p Hd Hbuf Hwalk st.
  destruct (gather_nodedup args fs tree chunks s Hd Hbuf Hwalk)
    as [Hseen Hdel].
  split; [exact Hseen|]. split; [exact Hdel|].
  intros o x Hin. fold st in Hdel. rewrite Hdel in Hin.
  apply elem_of_app in Hin as [Hin|Hin];
    [|apply elem_of_app in Hin as [Hin|Hin]];
    apply list_elem_of_fmap in Hin as (y & [= -> ->] & Hy).
  - unfold buffer_items in Hy. fold p in Hy.
    destruct (enableBuffer p); [|inversion Hy].
    destruct (call_getbufinfo (denops args)) as [info|e]; [|inversion Hy].
    apply list_elem_of_fmap in Hy as (buf & -> & _).
    unfold buffer_item.
    destruct (showSourcePrefix p); [|now split].
    apply (makeItem_tagged p FromBuffer).
  - unfold mr_items in Hy. fold p in Hy.
    destruct (enableMr p); [|inversion Hy].
    destruct (mr_list (denops args) (mrKind p)) as [result|e];
      [|inversion Hy].
    apply list_elem_of_fmap in Hy as (path_ & -> & _).
    unfold mr_item.
    destruct (showSourcePrefix p); [|now split].
    apply (makeItem_tagged p FromMr).
  - unfold fileRec_items in Hy. fold p in Hy.
    destruct (enableFileRec p) eqn:Hen; [|inversion Hy].
    specialize (Hwalk eq_refl).
    destruct (showSourcePrefix p).
    + apply list_elem_of_fmap in Hy as (z & -> & _).
      apply add_rec_prefix_tagged.
    + apply elem_of_concat in Hy as (c & Hy & Hc).
      assert (Hitems : Forall (walker_item (gather_root args)) c).
      { eapply (inner_loop_yields_items fs (gather_root args)
                  (ignoredDirectories p) (chunkSize p)
                  (expandSymbolicLink p) tree None (gather_root args) []);
          [constructor|].
        unfold gather_walk, walkFiles, inner in Hwalk. fold p in Hwalk.
        rewrite Hwalk. cbn. apply list_elem_of_fmap. now exists c. }
      rewrite Forall_forall in Hitems.
      destruct (Hitems y Hy) as (d & n & ->). now split.
Qed.

(** ** Cancellation *)

Section CancelFacts.
Variable fs : Fs.
Variable root : string.
Variable ignored : list string.
Variable size : Z.
Variable expand : bool.

Local Abbreviation loop := (inner_loop fs root ignored size expand).

(** The events of a walk: chunks only while the signal is not aborted; once
    the consumer has cancelled, at most one chunk more, that of the entry in
    progress, and no second cancellation. *)
Lemma inner_loop_cancel_shape l :
  forall dir chunk,
    let '(evs, _, s) := loop None dir chunk l in
    (s = None /\ Forall (fun ev => is_yield ev = true) evs)
    \/ exists ys reason tail,
         evs = ys ++ ECancel reason :: tail
         /\ Forall (fun ev => is_yield ev = true) ys
         /\ s = Some (default abortError reason)
         /\ Forall (fun ev => is_yield ev = true) tail
         /\ (length tail <= 1)%nat.
Proof.
  induction l as [|e0|reason|name interrupt sub IHsub rest IHrest];
    intros dir chunk.
  - cbn. left. split; [reflexivity|]. destruct chunk; repeat constructor.
  - cbn. left. split; [reflexivity|constructor].
  - cbn. right. exists [], reason, []. close_shape.
  - cbn [inner_loop].
    destruct interrupt as [reason|].
    + (* the consumer cancels while this entry is being looked at *)
      cbn [abort app].
      destruct (entry_action fs ignored expand (join dir name) name).
      1,3,4: rewrite inner_loop_aborted; right;
        exists [], reason, []; close_shape.
      * destruct (Z.of_nat _ >=? size); rewrite inner_loop_aborted; right.
        -- eexists [], reason, [_]. close_shape.
        -- exists [], reason, []. close_shape.
      * rewrite inner_loop_aborted.
        destruct (inner_catch (default abortError reason)).
        -- rewrite inner_loop_aborted. right.
           exists [], reason, []. close_shape.
        -- right. exists [], reason, []. close_shape.
      * right. exists [], reason, []. close_shape.
    + cbn [app].
      destruct (entry_action fs ignored expand (join dir name) name).
      1,3,4: specialize (IHrest dir chunk);
        destruct (loop None dir chunk rest) as [[evs e] s]; exact IHrest.
      * destruct (Z.of_nat _ >=? size).
        -- specialize (IHrest dir []).
           destruct (loop None dir [] rest) as [[evs e] s].
           destruct IHrest as [[-> Hy]|(ys & reason & tail & -> & Hy & Hs)].
           ++ left. split; [reflexivity|]. now constructor.
           ++ right. eexists (_ :: ys), reason, tail.
              split; [reflexivity|]. split; [now constructor|exact Hs].
        -- match goal with
           | |- context [loop None dir ?c rest] =>
               specialize (IHrest dir c);
               destruct (loop None dir c rest) as [[evs e] s]
           end.
           exact IHrest.
      * specialize (IHsub (join dir name) []).
        destruct (loop None (join dir name) [] sub) as [[evs1 e1] s1].
        destruct IHsub as [[-> Hy1]|(ys & reason & tail & -> & Hy & -> & Ht)].
        -- destruct e1 as [|e1].
           ++ specialize (IHrest dir chunk).
              destruct (loop None dir chunk rest) as [[evs2 e2] s2].
              destruct IHrest
                as [[-> Hy2]|(ys & reason & tail & -> & Hy & Hs)].
              ** left. split; [reflexivity|]. now apply Forall_app.
              ** right. exists (evs1 ++ ys), reason, tail.
                 split; [now rewrite app_assoc|].
                 split; [now apply Forall_app|exact Hs].
           ++ left. split; [reflexivity|exact Hy1].
        -- destruct e1 as [|e1].
           ++ rewrite inner_loop_aborted. right.
              exists ys, reason, tail. rewrite app_nil_r. destruct Ht. now repeat split.
           ++ right. exists ys, reason, tail. destruct Ht. now repeat split.
      * left. split; [reflexivity|constructor].
Qed.

End CancelFacts.

Lemma first_cancel_unique (ys1 ys2 : list Event) r1 r2 t1 t2 :
  Forall (fun ev => is_yield ev = true) ys1 ->
  Forall (fun ev => is_yield ev = true) ys2 ->
  ys1 ++ ECancel r1 :: t1 = ys2 ++ ECancel r2 :: t2 ->
  ys1 = ys2 /\ r1 = r2 /\ t1 = t2.
Proof.
  revert ys2. induction ys1 as [|y ys1 IH]; intros [|z ys2] H1 H2 Heq.
  - now injection Heq as -> ->.
  - injection Heq as <- _. inversion H2; discriminate.
  - injection Heq as -> _. inversion H1; discriminate.
  - injection Heq as -> Heq. inversion H1; inversion H2; subst.
    destruct (IH ys2) as (-> & -> & ->); auto.
Qed.

Lemma for_await_app params evs1 evs2 :
  forall E P st,
    for_await params (evs1 ++ evs2) E P st
    = match for_await params evs1 E P st with
      | (Normal (E', P'), st1) => for_await params evs2 E' P' st1
      | (Throw e, st1) => (Throw e, st1)
      end.
Proof.
  induction evs1 as [|[chunk|reason] evs1 IH]; intros E P st.
  - reflexivity.
  - cbn [app for_await]. unfold bind.
    destruct (prepare_chunk params chunk st) as [[filtered|e] st1];
      [|reflexivity].
    destruct (Z.of_nat _ >=? E); [|apply IH].
    destruct (enqueue FromFileRec (P ++ filtered) st1) as [[[]|e] st2];
      [apply IH|reflexivity].
  - cbn [app for_await]. unfold bind. cbn. apply IH.
Qed.

(** Once the stream is cancelled nothing is enqueued any more and the signal
    keeps its reason. *)
Lemma for_await_cancelled params r q events E P st :
  cancelled_with r q st ->
  cancelled_with r q (for_await params events E P st).2.
Proof.
  intros HK.
  pose proof (for_await_inv params (fun st _ => cancelled_with r q st)
                (fun _ => True) E) as H.
  cbn beta in H.
  specialize (H ltac:(intros reason st0 _ (Hq & Hs & Hc);
                      unfold cancel, cancelled_with; cbn;
                      rewrite Hs; now repeat split)).
  specialize (H ltac:(intros chunk st0 P0 filtered st1 _ HK0 Hrun;
                      destruct (prepare_chunk_stream params chunk st0)
                        as (f & S' & Hrun');
                      rewrite Hrun' in Hrun; injection Hrun as _ <-;
                      exact HK0)).
  specialize (H ltac:(intros st0 P0 E0 (_ & _ & Hc) Hcl; congruence)).
  specialize (H events ltac:(done) E P st (or_introl eq_refl) HK).
  destruct (for_await params events E P st) as [[[E' P']|e] st'].
  - now destruct H.
  - now destruct H as [[_ H] _].
Qed.

Lemma steps_leave_stream_open args st :
  (gather_buffer args ;; gather_mr args) initial_state = (Normal tt, st) ->
  signal st = None /\ closed st = false.
Proof.
  unfold bind, gather_buffer, gather_mr.
  assert (Henq : forall o items st0,
             signal st0 = None -> closed st0 = false ->
             signal ((if (0 <? length items)%nat
                      then enqueue o items else ret tt) st0).2 = None
             /\ closed ((if (0 <? length items)%nat
                         then enqueue o items else ret tt) st0).2 = false).
  { intros o items st0 Hs Hc. destruct (0 <? length items)%nat; [|done].
    unfold enqueue. now rewrite Hc. }
  assert (H1 : signal (gather_buffer args initial_state).2 = None
               /\ closed (gather_buffer args initial_state).2 = false).
  { unfold gather_buffer.
    destruct (enableBuffer (sourceParams args)); [|done]. unfold bind.
    destruct (gatherBuffer_stream (denops args) (bufNr (context args))
                (bufferOrderby (sourceParams args))
                (dedup (sourceParams args))
                (showSourcePrefix (sourceParams args)) initial_state)
      as (r & S' & ->).
    destruct r as [items|e]; [|done]. now apply Henq. }
  fold (gather_buffer args).
  destruct (gather_buffer args initial_state) as [[[]|e] st1];
    [|discriminate].
  cbn in H1. destruct H1 as [Hs1 Hc1].
  destruct (enableMr (sourceParams args)).
  2:{ intros [= <-]. done. }
  unfold bind.
  destruct (gatherMr_stream (denops args) (mrKind (sourceParams args))
              (dedup (sourceParams args))
              (showSourcePrefix (sourceParams args)) st1)
    as (items & S' & log & ->).
  intros Hrun.
  match type of Hrun with
  | ?m ?s = _ =>
      pose proof (Henq FromMr items s Hs1 Hc1) as H2;
      change ((if (0 <? length items)%nat
               then enqueue FromMr items else ret ()) s) with (m s) in H2;
      rewrite Hrun in H2
  end.
  exact H2.
Qed.

Lemma start_catch_cancelled r q e st :
  cancelled_with r q st -> cancelled_with r q (start_catch e st).2.
Proof.
  intros HK. unfold start_catch. now destruct (is_AbortReason e).
Qed.

Lemma start_steps args fs tree st :
  (gather_buffer args ;; gather_mr args) initial_state = (Normal tt, st) ->
  start args fs tree initial_state
  = let '(c, st') :=
      try_catch (gather_fileRec args fs tree) start_catch st in
    (c, close st').
Proof.
  unfold start, finally, try_catch, bind.
  destruct (gather_buffer args initial_state) as [[[]|e] st1];
    [|discriminate].
  destruct (gather_mr args st1) as [[[]|e] st2]; [|discriminate].
  now intros [= <-].
Qed.


(** ** Cancellation at any point of the run *)

Lemma start_under_no_cancels args fs tree :
  start_under no_cancels args fs tree = start args fs tree.
Proof. reflexivity. Qed.

Lemma stream_wf_set_seen S st : stream_wf st -> stream_wf (set_seen S st).
Proof. trivial. Qed.

Lemma stream_wf_cancel reason st : stream_wf (cancel reason st).2.
Proof.
  unfold stream_wf, cancel, abort. cbn. now destruct (signal st).
Qed.

Lemma stream_wf_enqueue_if_any o items st :
  stream_wf st ->
  stream_wf
    ((if (0 <? length items)%nat then enqueue o items else ret tt) st).2.
Proof.
  intros H. destruct (0 <? length items)%nat; [|exact H].
  unfold enqueue. destruct (closed st) eqn:E; [exact H|].
  unfold stream_wf in *. cbn. now rewrite E in H.
Qed.

Lemma stream_wf_closed st r :
  stream_wf st -> signal st = Some r -> closed st = true.
Proof. unfold stream_wf. intros H E. now rewrite E in H. Qed.

Lemma stream_wf_open st :
  stream_wf st -> signal st = None -> closed st = false.
Proof. unfold stream_wf. intros H E. now rewrite E in H. Qed.

Lemma awaiting_buffer c denops bufNr orderby dd sp st :
  exists rb S',
    gatherBuffer denops bufNr orderby dd sp st = (rb, set_seen S' st)
    /\ awaiting c (gatherBuffer denops bufNr orderby dd sp) st
       = (rb, match c with
              | Some reason => (cancel reason (set_seen S' st)).2
              | None => set_seen S' st
              end).
Proof.
  destruct (gatherBuffer_stream denops bufNr orderby dd sp st)
    as (rb & S' & H).
  exists rb, S'. split; [exact H|].
  destruct c as [reason|]; [|exact H].
  unfold awaiting, finally. now rewrite H.
Qed.

Lemma awaiting_mr c denops mrKind dd sp st :
  exists items stM,
    gatherMr denops mrKind dd sp st = (Normal items, stM)
    /\ queue stM = queue st /\ signal stM = signal st
    /\ closed stM = closed st
    /\ awaiting c (gatherMr denops mrKind dd sp) st
       = (Normal items,
          match c with
          | Some reason => (cancel reason stM).2
          | None => stM
          end).
Proof.
  destruct (gatherMr_stream denops mrKind dd sp st)
    as (items & S' & log & H).
  eexists items, _. split; [exact H|]. repeat split.
  destruct c as [reason|]; [|exact H].
  unfold awaiting, finally. now rewrite H.
Qed.

Lemma gather_buffer_under_wf c args st :
  stream_wf st -> stream_wf (gather_buffer_under c args st).2.
Proof.
  intros H. unfold gather_buffer_under.
  destruct (enableBuffer (sourceParams args)); [|exact H].
  unfold bind.
  destruct (awaiting_buffer c (denops args) (bufNr (context args))
              (bufferOrderby (sourceParams args))
              (dedup (sourceParams args))
              (showSourcePrefix (sourceParams args)) st)
    as (rb & S' & _ & ->).
  assert (Hwf : stream_wf
                  match c with
                  | Some reason => (cancel reason (set_seen S' st)).2
                  | None => set_seen S' st
                  end).
  { destruct c; [apply stream_wf_cancel|exact H]. }
  destruct rb as [items|e]; [|exact Hwf].
  now apply stream_wf_enqueue_if_any.
Qed.

Lemma gather_mr_under_wf c args st :
  stream_wf st -> stream_wf (gather_mr_under c args st).2.
Proof.
  intros H. unfold gather_mr_under.
  destruct (enableMr (sourceParams args)); [|exact H].
  unfold bind.
  destruct (awaiting_mr c (denops args) (mrKind (sourceParams args))
              (dedup (sourceParams args))
              (showSourcePrefix (sourceParams args)) st)
    as (items & stM & _ & _ & Hs & Hc & ->).
  apply stream_wf_enqueue_if_any.
  destruct c; [apply stream_wf_cancel|].
  unfold stream_wf. now rewrite Hs, Hc.
Qed.

Lemma lists_wf cs args r st :
  (gather_buffer_under (during_buffer cs) args ;;
   gather_mr_under (during_mr cs) args) initial_state = (r, st) ->
  stream_wf st.
Proof.
  unfold bind.
  pose proof (gather_buffer_under_wf (during_buffer cs) args initial_state
                eq_refl) as H1.
  destruct (gather_buffer_under (during_buffer cs) args initial_state)
    as [[[]|e] st1]; cbn in H1.
  - pose proof (gather_mr_under_wf (during_mr cs) args st1 H1) as H2.
    intros E. now rewrite E in H2.
  - now intros [= _ <-].
Qed.

(** How [start] ends, from the outcome of its three steps. *)
Lemma start_under_ends cs args fs tree c st :
  (gather_buffer_under (during_buffer cs) args ;;
   gather_mr_under (during_mr cs) args ;;
   gather_fileRec args fs tree) initial_state = (c, st) ->
  let final := gather_under cs args fs tree in
  queue final = queue st
  /\ signal final = signal st
  /\ closed final = true
  /\ console final
     = console st
       ++ match c with
          | Normal _ => []
          | Throw e => catch_log e
          end.
Proof.
  intros H final. subst final.
  unfold gather_under, start_under, finally, try_catch. rewrite H.
  destruct c as [[]|e]; cbn.
  - now rewrite app_nil_r.
  - unfold start_catch, catch_log.
    destruct (is_AbortReason e); cbn; now rewrite ?app_nil_r.
Qed.

Lemma steps_after_lists cs args fs tree st :
  (gather_buffer_under (during_buffer cs) args ;;
   gather_mr_under (during_mr cs) args) initial_state = (Normal tt, st) ->
  (gather_buffer_under (during_buffer cs) args ;;
   gather_mr_under (during_mr cs) args ;;
   gather_fileRec args fs tree) initial_state
  = gather_fileRec args fs tree st.
Proof.
  unfold bind.
  destruct (gather_buffer_under (during_buffer cs) args initial_state)
    as [[[]|e] st1]; [|discriminate].
  destruct (gather_mr_under (during_mr cs) args st1) as [[[]|e] st2];
    [|discriminate].
  now intros [= <-].
Qed.

Lemma steps_when_lists_throw cs args fs tree e st :
  (gather_buffer_under (during_buffer cs) args ;;
   gather_mr_under (during_mr cs) args) initial_state = (Throw e, st) ->
  (gather_buffer_under (during_buffer cs) args ;;
   gather_mr_under (during_mr cs) args ;;
   gather_fileRec args fs tree) initial_state
  = (Throw e, st).
Proof.
  unfold bind.
  destruct (gather_buffer_under (during_buffer cs) args initial_state)
    as [[[]|e1] st1].
  - destruct (gather_mr_under (during_mr cs) args st1) as [[[]|e2] st2];
      [discriminate|]. now intros [= <- <-].
  - now intros [= <- <-].
Qed.

(** The walk step on a stream cancelled before the walk begins: the walker
    ends at once, with the reason. *)
Lemma gather_fileRec_aborted args fs tree st r :
  signal st = Some r ->
  gather_walk args fs tree (signal st) = ([], inner_catch r, Some r)
  /\ gather_fileRec args fs tree st
     = (if enableFileRec (sourceParams args)
        then match inner_catch r with
             | Threw e => Throw e
             | Returned => Normal tt
             end
        else Normal tt, st).
Proof.
  intros Hs.
  assert (Hwalk : gather_walk args fs tree (signal st)
                  = ([], inner_catch r, Some r)).
  { rewrite Hs. unfold gather_walk, walkFiles, inner.
    apply inner_loop_aborted. }
  split; [exact Hwalk|].
  unfold gather_fileRec.
  destruct (enableFileRec (sourceParams args)); [|reflexivity].
  rewrite Hwalk. unfold bind. cbn.
  now destruct (inner_catch r).
Qed.

Section CancelEnd.
Variable fs : Fs.
Variable root : string.
Variable ignored : list string.
Variable size : Z.
Variable expand : bool.

Local Abbreviation loop := (inner_loop fs root ignored size expand).

Lemma entry_action_RealPathThrows abspath name e :
  entry_action fs ignored expand abspath name = RealPathThrows e ->
  realPath fs abspath = Throw e.
Proof.
  unfold entry_action.
  destruct (readStat fs abspath expand) as [info|]; [|discriminate].
  destruct (negb _); [discriminate|].
  destruct (bool_decide _); [discriminate|].
  destruct (_ && _); [|discriminate].
  destruct (realPath fs abspath) as [real|e']; [|now intros [= ->]].
  destruct (includes abspath real); discriminate.
Qed.

Lemma inner_catch_idem e e' :
  inner_catch e = Threw e' -> inner_catch e' = Threw e'.
Proof.
  intros H. apply inner_catch_Threw in H as [-> H].
  unfold inner_catch. now rewrite H.
Qed.

Lemma inner_loop_cancel_end l :
  forall dir chunk r,
    (loop None dir chunk l).2 = Some r ->
    ends_cancelled fs r (loop None dir chunk l).1.2.
Proof.
  induction l as [|e0|reason|name interrupt sub IHsub rest IHrest];
    intros dir chunk r.
  - cbn. discriminate.
  - cbn. discriminate.
  - cbn. intros [= <-]. now left.
  - cbn [inner_loop].
    destruct interrupt as [reason|].
    + cbn [abort app].
      destruct (entry_action fs ignored expand (join dir name) name) eqn:Ea.
      1,3,4: rewrite inner_loop_aborted; cbn; intros [= <-]; now left.
      * destruct (Z.of_nat _ >=? size); rewrite inner_loop_aborted; cbn;
          intros [= <-]; now left.
      * rewrite inner_loop_aborted.
        destruct (inner_catch (default abortError reason)) as [|e] eqn:Ec.
        -- rewrite inner_loop_aborted. cbn. intros [= <-]. now left.
        -- cbn. intros [= <-]. left. rewrite Ec.
           now apply inner_catch_idem in Ec.
      * cbn. intros _. right. exists (join dir name), e.
        split; [|reflexivity]. now apply (entry_action_RealPathThrows _ name).
    + cbn [app].
      destruct (entry_action fs ignored expand (join dir name) name).
      1,3,4: specialize (IHrest dir chunk r);
        destruct (loop None dir chunk rest) as [[evs e] s]; exact IHrest.
      * destruct (Z.of_nat _ >=? size).
        -- specialize (IHrest dir [] r).
           destruct (loop None dir [] rest) as [[evs e] s]. exact IHrest.
        -- match goal with
           | |- context [loop None dir ?c rest] =>
               specialize (IHrest dir c r);
               destruct (loop None dir c rest) as [[evs e] s]
           end.
           exact IHrest.
      * specialize (IHsub (join dir name) [] r).
        destruct (loop None (join dir name) [] sub) as [[evs1 e1] s1].
        cbn [fst snd] in IHsub.
        destruct e1 as [|e1].
        -- destruct s1 as [r1|].
           ++ rewrite inner_loop_aborted. cbn. intros [= <-]. now left.
           ++ specialize (IHrest dir chunk r).
              destruct (loop None dir chunk rest) as [[evs2 e2] s2].
              exact IHrest.
        -- cbn. intros Hs. specialize (IHsub Hs).
           assert (Hid : inner_catch e1 = Threw e1).
           { destruct IHsub as [H|(abspath & e' & _ & H)]; symmetry in H;
               exact (inner_catch_idem _ _ H). }
           rewrite Hid. exact IHsub.
      * cbn. discriminate.
Qed.
End CancelEnd.

(** The walk step when the consumer cancels during the walk. *)
Lemma gather_fileRec_cancelled_walk args fs tree st chunks reason tail
    walk_end s :
  let p := sourceParams args in
  enableFileRec p = true ->
  signal st = None ->
  closed st = false ->
  gather_walk args fs tree None
  = (map EYield chunks ++ ECancel reason :: tail, walk_end, s) ->
  (length tail <= 1)%nat ->
  Forall (fun ev => is_yield ev = true) tail ->
  let before := prepared_chunks p (seen st) chunks in
  let run := chunk_emitter_run (chunkSize p) 0 [] before.1 in
  let pending := run.1.2 ++ tail_items p before.2 tail in
  let offered :=
    match tail with
    | [] => false
    | _ => emission_threshold (chunkSize p) run.2 <=? Z.of_nat (length pending)
    end in
  exists S_end,
    gather_fileRec args fs tree st
    = (if offered then Throw typeError
       else match walk_end with
            | Threw e => Throw e
            | Returned =>
                if (0 <? length pending)%nat then Throw typeError
                else Normal tt
            end,
       {| seen := S_end;
          queue := queue st ++ map (pair FromFileRec) run.1.1;
          console := console st;
          signal := Some (default abortError reason);
          closed := true |}).
Proof.
  intros p Hen Hsig Hcl Hwalk Hlen Htail before run pending offered.
  subst offered pending run before.
  unfold gather_fileRec. fold p. rewrite Hen, Hsig, Hwalk.
  unfold bind at 1. rewrite for_await_app.
  change (chunkSize p) with (emission_threshold (chunkSize p) 0) at 1.
  rewrite (for_await_emitter p chunks 0 [] st Hcl).
  destruct (prepared_chunks p (seen st) chunks) as [fcs S'].
  cbn [fst snd].
  destruct (chunk_emitter_run (chunkSize p) 0 [] fcs)
    as [[out remaining] n'].
  cbn [fst snd].
  cbn [for_await]. unfold bind at 1, cancel at 1.
  cbn [seen queue console signal closed set_seen set_queue].
  rewrite Hsig. cbn [abort].
  destruct tail as [|[ch|r'] tail'].
  - cbn [for_await tail_items]. unfold ret at 1. cbn [snd].
    rewrite app_nil_r. exists S'.
    destruct walk_end as [|e]; [|reflexivity].
    destruct (0 <? length remaining)%nat; reflexivity.
  - destruct tail' as [|ev tail']; [|cbn in Hlen; lia].
    cbn [for_await tail_items]. unfold bind at 1.
    rewrite prepare_chunk_prepared. cbn [seen fst snd].
    rewrite Z.geb_leb.
    exists (prepared p S' ch).2.
    destruct (emission_threshold (chunkSize p) n'
              <=? Z.of_nat (length (remaining ++ (prepared p S' ch).1))).
    + reflexivity.
    + unfold ret at 1. cbn [snd].
      destruct walk_end as [|e]; [|reflexivity].
      destruct (0 <? length _)%nat; reflexivity.
  - apply Forall_cons in Htail as [H _]. discriminate.
Qed.

(** C6 (amended). The consumer may cancel the stream while the buffer list
    or the MRU list is awaited, or during the walk. From then on the signal
    is set and stays set with the reason given (an [AbortError] when none is
    given), the stream is closed, nothing is enqueued any more and the
    batches enqueued before stay in the queue; a walk in progress yields at
    most the chunk of the entry it was working on, and a walk not yet begun
    yields nothing. The run is not always silent. A list that is not empty,
    or walk items that reach the threshold or are left for the final flush,
    are offered to the closed stream, and the [TypeError] of
    [controller.enqueue] is logged whatever the reason was. Otherwise the
    exception the walker ends with, the reason as a rule, is logged unless
    it is an [Error] whose name holds [AbortReason]. Nothing is logged when
    the walker returns, or when the walk is switched off. *)
Theorem cancellation_ends_the_run cs args fs tree :
  let p := sourceParams args in
  let final := gather_under cs args fs tree in
  let lists :=
    (gather_buffer_under (during_buffer cs) args ;;
     gather_mr_under (during_mr cs) args) initial_state in
  (forall e st,
      lists = (Throw e, st) ->
      queue final = queue st
      /\ signal final = signal st
      /\ closed final = true
      /\ console final = console st ++ catch_log e)
  /\ (forall reason x bufItems stB,
        enableBuffer p = true ->
        during_buffer cs = Some reason ->
        gatherBuffer (denops args) (bufNr (context args)) (bufferOrderby p)
          (dedup p) (showSourcePrefix p) initial_state
        = (Normal (x :: bufItems), stB) ->
        signal final = Some (default abortError reason)
        /\ closed final = true
        /\ queue final = []
        /\ console final = [[LVal typeError]])
  /\ (forall st1 r x mrItems stM,
        enableMr p = true ->
        gather_buffer_under (during_buffer cs) args initial_state
        = (Normal tt, st1) ->
        (signal st1 = Some r
         \/ signal st1 = None
            /\ exists reason,
                 during_mr cs = Some reason
                 /\ r = default abortError reason) ->
        gatherMr (denops args) (mrKind p) (dedup p) (showSourcePrefix p) st1
        = (Normal (x :: mrItems), stM) ->
        signal final = Some r
        /\ closed final = true
        /\ queue final = queue st1
        /\ console final = console stM ++ [[LVal typeError]])
  /\ (forall st r,
        lists = (Normal tt, st) ->
        signal st = Some r ->
        gather_walk args fs tree (signal st) = ([], inner_catch r, Some r)
        /\ signal final = Some r
        /\ closed final = true
        /\ queue final = queue st
        /\ console final
           = console st
             ++ if enableFileRec p
                then cancelled_walk_log false (inner_catch r) []
                else [])
  /\ (forall st chunks reason tail walk_end s,
        enableFileRec p = true ->
        lists = (Normal tt, st) ->
        signal st = None ->
        gather_walk args fs tree None
        = (map EYield chunks ++ ECancel reason :: tail, walk_end, s) ->
        let r := default abortError reason in
        let before := prepared_chunks p (seen st) chunks in
        let run := chunk_emitter_run (chunkSize p) 0 [] before.1 in
        let pending := run.1.2 ++ tail_items p before.2 tail in
        let offered :=
          match tail with
          | [] => false
          | _ =>
              emission_threshold (chunkSize p) run.2
              <=? Z.of_nat (length pending)
          end in
        s = Some r
        /\ (length tail <= 1)%nat
        /\ Forall (fun ev => is_yield ev = true) tail
        /\ ends_cancelled fs r walk_end
        /\ signal final = Some r
        /\ closed final = true
        /\ queue final = queue st ++ map (pair FromFileRec) run.1.1
        /\ console final
           = console st ++ cancelled_walk_log offered walk_end pending).
Proof.
  intros p final lists.
  split; [|split; [|split; [|split]]].
  - (* the lists end with an exception *)
    intros e st Hlists.
    apply (start_under_ends cs args fs tree (Throw e) st).
    now apply steps_when_lists_throw.
  - (* cancelled while the buffer list is awaited *)
    intros reason x bufItems stB Hen Hc Hbuf.
    destruct (gatherBuffer_stream (denops args) (bufNr (context args))
                (bufferOrderby p) (dedup p) (showSourcePrefix p)
                initial_state) as (rb & S' & Hrun).
    rewrite Hrun in Hbuf. injection Hbuf as -> <-.
    assert (Hlists :
             lists
             = (Throw typeError,
                (cancel reason (set_seen S' initial_state)).2)).
    { subst lists. unfold bind at 1, gather_buffer_under. fold p.
      rewrite Hen, Hc. unfold bind at 1, awaiting, finally.
      rewrite Hrun. reflexivity. }
    destruct (start_under_ends cs args fs tree (Throw typeError) _
                (steps_when_lists_throw cs args fs tree _ _ Hlists))
      as (Hq & Hs & Hcl & Hlog).
    fold final in Hq, Hs, Hcl, Hlog.
    rewrite Hq, Hs, Hcl, Hlog. now repeat split.
  - (* cancelled before the MRU list is offered *)
    intros st1 r x mrItems stM Hen Hbuf Hcancel Hmr.
    pose proof (gather_buffer_under_wf (during_buffer cs) args initial_state
                  eq_refl) as Hwf1.
    rewrite Hbuf in Hwf1. cbn [snd] in Hwf1.
    destruct (awaiting_mr (during_mr cs) (denops args) (mrKind p) (dedup p)
                (showSourcePrefix p) st1)
      as (items & stM' & Hrun & Hq & Hs & Hc & Hawait).
    rewrite Hrun in Hmr. injection Hmr as -> ->.
    set (st2 := match during_mr cs with
                | Some reason => (cancel reason stM).2
                | None => stM
                end) in Hawait.
    assert (Hst2 : queue st2 = queue st1 /\ console st2 = console stM
                   /\ signal st2 = Some r /\ closed st2 = true).
    { subst st2.
      destruct Hcancel as [Hr|(Hn & reason & Hcm & ->)].
      - pose proof (stream_wf_closed st1 r Hwf1 Hr) as Hcl1.
        destruct (during_mr cs) as [reason|]; cbn.
        + rewrite Hs, Hr. now repeat split.
        + rewrite Hs, Hc. now repeat split.
      - rewrite Hcm. cbn. rewrite Hs, Hn. now repeat split. }
    destruct Hst2 as (Hq2 & Hlog2 & Hs2 & Hc2).
    assert (Hlists : lists = (Throw typeError, st2)).
    { subst lists. unfold bind at 1. rewrite Hbuf.
      unfold gather_mr_under. fold p. rewrite Hen. unfold bind at 1.
      rewrite Hawait. cbn [length Nat.ltb Nat.leb]. unfold enqueue.
      now rewrite Hc2. }
    destruct (start_under_ends cs args fs tree (Throw typeError) _
                (steps_when_lists_throw cs args fs tree _ _ Hlists))
      as (Hq' & Hs' & Hcl' & Hlog').
    fold final in Hq', Hs', Hcl', Hlog'.
    rewrite Hq', Hs', Hcl', Hlog', Hq2, Hlog2, Hs2. now repeat split.
  - (* cancelled before the walk begins *)
    intros st r Hlists Hr.
    destruct (gather_fileRec_aborted args fs tree st r Hr) as [Hwalk Hrun].
    split; [exact Hwalk|].
    pose proof (steps_after_lists cs args fs tree st Hlists) as Hsteps.
    rewrite Hrun in Hsteps.
    destruct (start_under_ends cs args fs tree _ _ Hsteps)
      as (Hq' & Hs' & Hcl' & Hlog').
    fold final in Hq', Hs', Hcl', Hlog'.
    rewrite Hq', Hs', Hcl', Hlog'. repeat split; [exact Hr|].
    f_equal. fold p. unfold cancelled_walk_log.
    destruct (enableFileRec p); [|reflexivity].
    now destruct (inner_catch r).
  - (* cancelled during the walk *)
    intros st chunks reason tail walk_end s Hen Hlists Hsig Hwalk
      r before run pending offered.
    pose proof (stream_wf_open st (lists_wf cs args _ st Hlists) Hsig)
      as Hcl.
    assert (Hshape : s = Some r
                     /\ (length tail <= 1)%nat
                     /\ Forall (fun ev => is_yield ev = true) tail).
    { pose proof (inner_loop_cancel_shape fs (gather_root args)
                    (ignoredDirectories p) (chunkSize p)
                    (expandSymbolicLink p) tree (gather_root args) []) as H.
      unfold gather_walk, walkFiles, inner in Hwalk. fold p in Hwalk.
      rewrite Hwalk in H.
      destruct H as [[_ Hy]|(ys & reason' & tail' & Heq & Hy & -> & Ht & Hl)].
      - apply Forall_app in Hy as [_ Hy]. inversion Hy; discriminate.
      - apply first_cancel_unique in Heq as (_ & <- & <-); try assumption.
        + now repeat split.
        + apply Forall_forall. intros ev Hev.
          apply list_elem_of_fmap in Hev as (c & -> & _). reflexivity. }
    destruct Hshape as (Hs & Hlen & Htail).
    assert (Hend : ends_cancelled fs r walk_end).
    { pose proof (inner_loop_cancel_end fs (gather_root args)
                    (ignoredDirectories p) (chunkSize p)
                    (expandSymbolicLink p) tree (gather_root args) [] r)
        as H.
      unfold gather_walk, walkFiles, inner in Hwalk. fold p in Hwalk.
      rewrite Hwalk in H. apply H. exact Hs. }
    destruct (gather_fileRec_cancelled_walk args fs tree st chunks reason
                tail walk_end s Hen Hsig Hcl Hwalk Hlen Htail)
      as (S_end & Hrun).
    fold p before run pending offered in Hrun.
    pose proof (steps_after_lists cs args fs tree st Hlists) as Hsteps.
    rewrite Hrun in Hsteps.
    destruct (start_under_ends cs args fs tree _ _ Hsteps)
      as (Hq' & Hs' & Hcl' & Hlog').
    fold final in Hq', Hs', Hcl', Hlog'.
    rewrite Hq', Hs', Hcl', Hlog'.
    cbn [queue signal console].
    repeat split; try assumption.
    f_equal. unfold cancelled_walk_log.
    destruct offered; [reflexivity|].
    destruct walk_end as [|e]; [|reflexivity].
    now destruct (0 <? length pending)%nat.
Qed.

(** * Further properties of the source *)

(** ** normalizePath *)

Lemma normalizePath_slashes n : normalizePath (slashes n) = "".
Proof.
  induction n as [|n IH]; [reflexivity|].
  change (slashes (S n)) with (String "/" (slashes n)).
  cbn [normalizePath]. now rewrite IH.
Qed.

Lemma normalizePath_decompose p :
  exists n, p = normalizePath p +:+ slashes n.
Proof.
  induction p as [|c p IH]; [now exists 0%nat|].
  destruct IH as [n IH]. cbn.
  destruct (normalizePath p) as [|d r] eqn:E.
  - destruct (Ascii.eqb_spec c "/") as [->|_].
    + exists (S n). rewrite IH at 1. reflexivity.
    + exists n. rewrite IH at 1. reflexivity.
  - exists n. rewrite IH at 1. reflexivity.
Qed.

Lemma normalizePath_no_trailing_slash p :
  endsWith_slash (normalizePath p) = false.
Proof.
  induction p as [|c p IH]; [reflexivity|].
  cbn. destruct (normalizePath p) as [|d r] eqn:E.
  - destruct (Ascii.eqb c "/") eqn:Ec; [reflexivity|]. cbn. exact Ec.
  - exact IH.
Qed.

Lemma normalizePath_app_slashes p n :
  normalizePath (p +:+ slashes n) = normalizePath p.
Proof.
  induction p as [|c p IH]; [apply normalizePath_slashes|].
  change (String c p +:+ slashes n) with (String c (p +:+ slashes n)).
  cbn [normalizePath]. now rewrite IH.
Qed.

Lemma slashes_app m n : slashes m +:+ slashes n = slashes (m + n).
Proof.
  induction m as [|m IH]; [reflexivity|].
  change (String "/" (slashes m +:+ slashes n) = String "/" (slashes (m + n))).
  now rewrite IH.
Qed.

Lemma string_app_assoc (a b c : string) : (a +:+ b) +:+ c = a +:+ (b +:+ c).
Proof.
  induction a as [|x a IH]; [reflexivity|].
  change (String x ((a +:+ b) +:+ c) = String x (a +:+ (b +:+ c))).
  now rewrite IH.
Qed.

(** X1. [normalizePath] removes the trailing slashes of a path and nothing
    else: the path is its result followed by slashes only, the result ends
    in no slash, and normalizing it again changes nothing. A path made of
    slashes only, as the root directory, has the empty result. *)
Theorem normalizePath_strips_trailing_slashes p :
  (exists n, p = normalizePath p +:+ slashes n)
  /\ endsWith_slash (normalizePath p) = false
  /\ normalizePath (normalizePath p) = normalizePath p
  /\ (forall n, normalizePath (slashes n) = "").
Proof.
  split; [apply normalizePath_decompose|].
  split; [apply normalizePath_no_trailing_slash|].
  split; [|apply normalizePath_slashes].
  destruct (normalizePath_decompose p) as [n Hn].
  rewrite Hn at 2. now rewrite normalizePath_app_slashes.
Qed.

(** X2. Two paths have the same normalized form, and so the same key in the
    registry, exactly when they differ in their trailing slashes only. *)
Theorem normalizePath_equates_trailing_slashes p q :
  normalizePath p = normalizePath q
  <-> exists m n, p +:+ slashes m = q +:+ slashes n.
Proof.
  split.
  - intros H.
    destruct (normalizePath_decompose p) as [a Ha].
    destruct (normalizePath_decompose q) as [b Hb].
    exists b, a. rewrite Ha at 1. rewrite Hb at 1.
    rewrite !string_app_assoc, !slashes_app, H.
    now rewrite (Nat.add_comm a b).
  - intros (m & n & H).
    rewrite <- (normalizePath_app_slashes p m), H.
    apply normalizePath_app_slashes.
Qed.


(** ** makeItem *)

Lemma string_length_app (a b : string) :
  String.length (a +:+ b) = (String.length a + String.length b)%nat.
Proof.
  induction a as [|x a IH]; [reflexivity|].
  change (S (String.length (a +:+ b))
          = S (String.length a + String.length b)).
  now rewrite IH.
Qed.

Lemma substring_all (b : string) : substring 0 (String.length b) b = b.
Proof.
  induction b as [|x b IH]; [reflexivity|].
  change (String x (substring 0 (String.length b) b) = String x b).
  now rewrite IH.
Qed.

Lemma substring_app_l (a b : string) :
  substring 0 (String.length a) (a +:+ b) = a.
Proof.
  induction a as [|x a IH]; [now destruct b|].
  change (String x (substring 0 (String.length a) (a +:+ b)) = String x a).
  now rewrite IH.
Qed.

Lemma substring_app_r (a b : string) :
  substring (String.length a) (String.length b) (a +:+ b) = b.
Proof.
  induction a as [|x a IH]; [apply substring_all|exact IH].
Qed.

(** X3. An item built with [showPrefix] shows the tag in brackets, a blank
    and then the word, and carries one highlight, which starts in column 1
    and covers the bracketed tag and the blank, nothing of the word. Built
    without [showPrefix] it has neither [display] nor [highlights]. *)
Theorem makeItem_highlight_covers_the_tag w p tag d :
  (exists h s,
      highlights (makeItem w p tag true d) = Some [h]
      /\ display (makeItem w p tag true d) = Some s
      /\ ItemHighlight.col h = 1
      /\ ItemHighlight.width h = Z.of_nat (String.length tag) + 3
      /\ substring 0 (Z.to_nat (ItemHighlight.width h)) s
         = "[" +:+ tag +:+ "] "
      /\ substring (Z.to_nat (ItemHighlight.width h)) (String.length w) s
         = w)
  /\ display (makeItem w p tag false d) = None
  /\ highlights (makeItem w p tag false d) = None.
Proof.
  split; [|split; reflexivity].
  eexists _, _. split; [reflexivity|]. split; [reflexivity|].
  split; [reflexivity|]. cbn [ItemHighlight.width].
  rewrite Nat2Z.id.
  split; [|split].
  - change ("[" +:+ tag +:+ "] ") with (String "[" (tag +:+ "] ")).
    cbn [String.length]. rewrite string_length_app. cbn [String.length]. lia.
  - apply substring_app_l.
  - apply substring_app_r.
Qed.


(** ** The walker, chunk by chunk *)

Section WalkerProperties.
Variable fs : Fs.
Variable root : string.
Variable ignored : list string.
Variable size : Z.
Variable expand : bool.

Local Abbreviation loop := (inner_loop fs root ignored size expand).

Lemma each_chunk_app P evs1 evs2 :
  each_chunk P evs1 -> each_chunk P evs2 -> each_chunk P (evs1 ++ evs2).
Proof. intros H1 H2. apply Forall_app. now split. Qed.

Lemma each_chunk_cancelled P (interrupt : option Reason) evs :
  each_chunk P evs ->
  each_chunk P
    (match interrupt with
     | Some reason => [ECancel reason]
     | None => []
     end ++ evs).
Proof.
  intros H. destruct interrupt; cbn; [|exact H]. now constructor.
Qed.

(** An invariant [D] of the directories read and [Q] of the chunk under
    construction give [P] for every chunk yielded. *)
Lemma inner_loop_inv (D : string -> Prop) (Q P : list Item -> Prop) :
  Q [] ->
  (forall chunk, Q chunk -> chunk <> [] -> P chunk) ->
  (forall dir chunk name,
      D dir -> Q chunk ->
      entry_action fs ignored expand (join dir name) name = EmitFile ->
      if Z.of_nat (length (chunk ++ [file_item root (join dir name)]))
         >=? size
      then P (chunk ++ [file_item root (join dir name)])
      else Q (chunk ++ [file_item root (join dir name)])) ->
  (forall dir name,
      D dir ->
      entry_action fs ignored expand (join dir name) name = Descend ->
      D (join dir name)) ->
  forall l sig dir chunk,
    D dir -> Q chunk -> each_chunk P (loop sig dir chunk l).1.1.
Proof.
  intros Hnil Hend Hfile Hsub.
  induction l as [|e|reason|name interrupt sub IHsub rest IHrest];
    intros [r|] dir chunk Hdir Hchunk;
    try (rewrite inner_loop_aborted; constructor).
  - cbn. destruct chunk as [|x chunk]; [constructor|].
    constructor; [|constructor]. now apply Hend.
  - constructor.
  - cbn. constructor; [exact I|constructor].
  - cbn [inner_loop].
    set (sig1 := match interrupt with
                 | Some reason => abort reason None
                 | None => None
                 end).
    destruct (entry_action fs ignored expand (join dir name) name) eqn:Ea.
    + specialize (IHrest sig1 dir chunk Hdir Hchunk).
      destruct (loop sig1 dir chunk rest) as [[evs e] s].
      now apply each_chunk_cancelled.
    + specialize (Hfile dir chunk name Hdir Hchunk Ea).
      destruct (Z.of_nat _ >=? size).
      * specialize (IHrest sig1 dir [] Hdir Hnil).
        destruct (loop sig1 dir [] rest) as [[evs e] s].
        apply each_chunk_cancelled. now constructor.
      * specialize (IHrest sig1 dir _ Hdir Hfile).
        destruct (loop sig1 dir _ rest) as [[evs e] s].
        now apply each_chunk_cancelled.
    + specialize (IHrest sig1 dir chunk Hdir Hchunk).
      destruct (loop sig1 dir chunk rest) as [[evs e] s].
      now apply each_chunk_cancelled.
    + specialize (IHrest sig1 dir chunk Hdir Hchunk).
      destruct (loop sig1 dir chunk rest) as [[evs e] s].
      now apply each_chunk_cancelled.
    + specialize (IHsub sig1 (join dir name) [] (Hsub _ _ Hdir Ea) Hnil).
      destruct (loop sig1 (join dir name) [] sub) as [[evs1 e1] s1].
      destruct e1 as [|e].
      * specialize (IHrest s1 dir chunk Hdir Hchunk).
        destruct (loop s1 dir chunk rest) as [[evs2 e2] s2].
        apply each_chunk_cancelled. now apply each_chunk_app.
      * now apply each_chunk_cancelled.
    + cbn. rewrite <- (app_nil_r (match interrupt with
                                  | Some reason => [ECancel reason]
                                  | None => []
                                  end)).
      apply each_chunk_cancelled. constructor.
Qed.

Lemma walk_chunk_lengths sig tree :
  each_chunk (fun c => Z.of_nat (length c) <= Z.max 1 size)
    (walkFiles fs root ignored size expand sig tree).1.1.
Proof.
  unfold walkFiles, inner.
  apply (inner_loop_inv (fun _ => True)
           (fun c => Z.of_nat (length c) < Z.max 1 size)).
  - cbn. lia.
  - intros chunk H _. lia.
  - intros dir chunk name _ H _.
    rewrite length_app. cbn [length].
    destruct (Z.of_nat _ >=? size) eqn:E; [lia|].
    rewrite Z.geb_leb in E. apply Z.leb_gt in E. lia.
  - trivial.
  - exact I.
  - cbn. lia.
Qed.

(** X4. For every integer [chunkSize], of any sign, no chunk the walker
    yields is empty and none holds more than [chunkSize] items, or more
    than one when [chunkSize] is below 1. The integers are the values of
    [chunkSize] the model has; a [chunkSize] with a fractional part is not
    covered. *)
Theorem walk_chunks_are_bounded sig tree :
  each_chunk
    (fun c => c <> [] /\ Z.of_nat (length c) <= Z.max 1 size)
    (walkFiles fs root ignored size expand sig tree).1.1.
Proof.
  unfold walkFiles, inner.
  apply (inner_loop_inv (fun _ => True)
           (fun c => Z.of_nat (length c) < Z.max 1 size)).
  - cbn. lia.
  - intros chunk H Hne. split; [exact Hne|lia].
  - intros dir chunk name _ H _.
    rewrite length_app. cbn [length].
    destruct (Z.of_nat _ >=? size) eqn:E.
    + split; [now destruct chunk|]. lia.
    + rewrite Z.geb_leb in E. apply Z.leb_gt in E. lia.
  - trivial.
  - exact I.
  - cbn. lia.
Qed.

Lemma entry_action_Descend abspath name :
  entry_action fs ignored expand abspath name = Descend -> name ∉ ignored.
Proof.
  unfold entry_action.
  destruct (readStat fs abspath expand) as [s|]; [|discriminate].
  destruct (negb _); [discriminate|].
  destruct (bool_decide (name ∈ ignored)) eqn:E; [discriminate|].
  intros _. now apply bool_decide_eq_false in E.
Qed.

Lemma entry_action_Descend_directory abspath name :
  entry_action fs ignored expand abspath name = Descend ->
  exists info,
    readStat fs abspath expand = Some info
    /\ FileInfo.isDirectory info = true.
Proof.
  unfold entry_action.
  destruct (readStat fs abspath expand) as [info|]; [|discriminate].
  destruct (FileInfo.isDirectory info) eqn:E; cbn; [|discriminate].
  intros _. exists info. now split.
Qed.

Lemma entry_action_EmitFile abspath name :
  entry_action fs ignored expand abspath name = EmitFile ->
  exists info,
    readStat fs abspath expand = Some info
    /\ FileInfo.isDirectory info = false.
Proof.
  unfold entry_action.
  destruct (readStat fs abspath expand) as [info|]; [|discriminate].
  destruct (FileInfo.isDirectory info) eqn:E; cbn.
  - destruct (bool_decide _); [discriminate|].
    destruct (FileInfo.isSymlink info); cbn; [|discriminate].
    destruct (realPath fs abspath) as [real|e]; [|discriminate].
    destruct (includes abspath real); discriminate.
  - intros _. exists info. now split.
Qed.

Local Abbreviation file_entry := (file_entry fs root expand).

Lemma inner_loop_walks_to (R : string -> string -> Prop) l :
  forall sig dir chunk,
    (forall d n, walks_to fs ignored expand dir l d n -> R d n) ->
    Forall (file_entry R) chunk ->
    each_chunk (Forall (file_entry R)) (loop sig dir chunk l).1.1.
Proof.
  induction l as [|e|reason|name interrupt sub IHsub rest IHrest];
    intros [r|] dir chunk HR Hchunk;
    try (rewrite inner_loop_aborted; constructor).
  - cbn. destruct chunk as [|x chunk]; [constructor|].
    now constructor.
  - constructor.
  - cbn. constructor; [exact I|constructor].
  - cbn [inner_loop].
    set (sig1 := match interrupt with
                 | Some reason => abort reason None
                 | None => None
                 end).
    assert (HRrest : forall d n,
               walks_to fs ignored expand dir rest d n -> R d n).
    { intros d n H. apply HR. now apply walks_to_later. }
    destruct (entry_action fs ignored expand (join dir name) name) eqn:Ea.
    + specialize (IHrest sig1 dir chunk HRrest Hchunk).
      destruct (loop sig1 dir chunk rest) as [[evs e] s].
      now apply each_chunk_cancelled.
    + assert (Hchunk' : Forall (file_entry R)
                          (chunk ++ [file_item root (join dir name)])).
      { apply Forall_app. split; [exact Hchunk|].
        constructor; [|constructor].
        apply entry_action_EmitFile in Ea as (info & Hstat & Hdir).
        exists dir, name, info. repeat split; try assumption.
        apply HR. apply walks_to_here. }
      destruct (Z.of_nat _ >=? size).
      * specialize (IHrest sig1 dir [] HRrest (Forall_nil_2 _)).
        destruct (loop sig1 dir [] rest) as [[evs e] s].
        apply each_chunk_cancelled. now constructor.
      * specialize (IHrest sig1 dir _ HRrest Hchunk').
        destruct (loop sig1 dir _ rest) as [[evs e] s].
        now apply each_chunk_cancelled.
    + specialize (IHrest sig1 dir chunk HRrest Hchunk).
      destruct (loop sig1 dir chunk rest) as [[evs e] s].
      now apply each_chunk_cancelled.
    + specialize (IHrest sig1 dir chunk HRrest Hchunk).
      destruct (loop sig1 dir chunk rest) as [[evs e] s].
      now apply each_chunk_cancelled.
    + assert (HRsub : forall d n,
                 walks_to fs ignored expand (join dir name) sub d n ->
                 R d n).
      { intros d n H. apply HR.
        destruct (entry_action_Descend_directory _ _ Ea)
          as (info & Hstat & Hdir).
        apply (walks_to_below _ _ _ _ _ _ _ _ info); try assumption.
        now apply entry_action_Descend in Ea. }
      specialize (IHsub sig1 (join dir name) [] HRsub (Forall_nil_2 _)).
      destruct (loop sig1 (join dir name) [] sub) as [[evs1 e1] s1].
      destruct e1 as [|e].
      * specialize (IHrest s1 dir chunk HRrest Hchunk).
        destruct (loop s1 dir chunk rest) as [[evs2 e2] s2].
        apply each_chunk_cancelled. now apply each_chunk_app.
      * now apply each_chunk_cancelled.
    + cbn. rewrite <- (app_nil_r (match interrupt with
                                  | Some reason => [ECancel reason]
                                  | None => []
                                  end)).
      apply each_chunk_cancelled. constructor.
Qed.

(** X5. Every item the walker yields stands for an entry of the tree that
    the walker comes to: an entry of the listing of the root, or of the
    listing of a directory reached from the root through entries that
    [readStat] reports as directories and whose names are not on the ignore
    list. [readStat] reports the entry itself as no directory; the item has
    the directory joined with the name of the entry as its path and that
    path relative to the root as its word, it is no directory and carries
    no [display] and no [highlights]. *)
Theorem walk_yields_entries_of_the_tree sig tree :
  each_chunk
    (Forall (fun x =>
               exists d n info,
                 walks_to fs ignored expand root tree d n
                 /\ readStat fs (join d n) expand = Some info
                 /\ FileInfo.isDirectory info = false
                 /\ x = {| word := relative root (join d n);
                           display := None;
                           highlights := None;
                           action := {| path := join d n;
                                        isDirectory := false |} |}))
    (walkFiles fs root ignored size expand sig tree).1.1.
Proof.
  unfold walkFiles, inner.
  apply (inner_loop_walks_to (walks_to fs ignored expand root tree) tree
           sig root []); [trivial|constructor].
Qed.
End WalkerProperties.

(** ** The walker, as a whole *)

Section WalkerCompleteness.
Variable fs : Fs.
Variable root : string.
Variable ignored : list string.
Variable size : Z.

(** [Deno.lstat] does not follow links: what it reports as a link it does
    not report as a directory. *)
Hypothesis lstat_of_link :
  forall p info,
    lstat fs p = Some info ->
    FileInfo.isSymlink info = true ->
    FileInfo.isDirectory info = false.

Local Abbreviation loop := (inner_loop fs root ignored size false).

Lemma entry_action_lstat abspath name :
  entry_action fs ignored false abspath name
  = match lstat fs abspath with
    | None => Vanished
    | Some info =>
        if FileInfo.isDirectory info then
          if bool_decide (name ∈ ignored) then Ignored else Descend
        else EmitFile
    end.
Proof.
  unfold entry_action, readStat.
  destruct (lstat fs abspath) as [info|] eqn:El; [|reflexivity].
  rewrite andb_false_r.
  destruct (FileInfo.isDirectory info) eqn:Ed; [|reflexivity].
  cbn. destruct (bool_decide _); [reflexivity|].
  destruct (FileInfo.isSymlink info) eqn:Es; [|reflexivity].
  rewrite (lstat_of_link _ _ El Es) in Ed. discriminate Ed.
Qed.

Lemma inner_loop_complete l :
  forall dir chunk,
    undisturbed fs ignored dir l = true ->
    exists evs,
      loop None dir chunk l = (evs, Returned, None)
      /\ yielded_items evs ≡ₚ chunk ++ tree_files fs root ignored dir l.
Proof.
  induction l as [|e|reason|name interrupt sub IHsub rest IHrest];
    intros dir chunk H; cbn in H; try discriminate H.
  - cbn. destruct chunk as [|x chunk]; eexists; (split; [reflexivity|]).
    + reflexivity.
    + cbn. now rewrite !app_nil_r.
  - destruct interrupt as [reason|]; [discriminate H|].
    cbn [inner_loop tree_files]. rewrite entry_action_lstat.
    destruct (lstat fs (join dir name)) as [info|].
    2:{ destruct (IHrest dir chunk H) as (evs & -> & Hp). now exists evs. }
    destruct (FileInfo.isDirectory info); cbn [andb negb] in H |- *.
    + destruct (bool_decide (name ∈ ignored)); cbn [andb negb] in H |- *.
      { destruct (IHrest dir chunk H) as (evs & -> & Hp). now exists evs. }
      apply andb_prop in H as [H1 H2].
      destruct (IHrest dir chunk H2) as (evs2 & Hrest & Hp2).
      assert (Hsub : exists evs1,
                 loop None (join dir name) [] sub = (evs1, Returned, None)
                 /\ yielded_items evs1
                    ≡ₚ tree_files fs root ignored (join dir name) sub).
      { destruct sub as [|e|reason|n i s r].
        - apply (IHsub (join dir name) [] H1).
        - exists []. cbn. unfold inner_catch. rewrite H1. now split.
        - apply (IHsub (join dir name) [] H1).
        - apply (IHsub (join dir name) [] H1). }
      destruct Hsub as (evs1 & -> & Hp1). rewrite Hrest.
      exists (evs1 ++ evs2). split; [reflexivity|].
      unfold yielded_items in *. rewrite flat_map_app, Hp1, Hp2.
      rewrite !app_assoc. apply Permutation_app_tail, Permutation_app_comm.
    + fold (file_item root (join dir name)).
      destruct (Z.of_nat _ >=? size).
      * destruct (IHrest dir [] H) as (evs & -> & Hp).
        eexists. split; [reflexivity|].
        cbn. rewrite Hp. cbn. now rewrite <- app_assoc.
      * destruct (IHrest dir (chunk ++ [file_item root (join dir name)]) H)
          as (evs & -> & Hp).
        exists evs. split; [reflexivity|].
        rewrite Hp. now rewrite <- app_assoc.
Qed.

(** X6. With [expandSymbolicLink] off, a walk that nothing disturbs returns
    normally, leaves the signal unset, and yields each file of the tree
    once, for every integer [chunkSize]: the items of its chunks are, up to
    their order, the entries that [Deno.lstat] reports as no directories,
    links among them, in the root and in every directory below it that is
    reached through directories whose names are not on the ignore list.
    Entries that [Deno.lstat] fails on and directories that refuse to be
    opened with a permission-denied error contribute nothing. *)
Theorem undisturbed_walk_yields_every_file tree :
  undisturbed fs ignored root tree = true ->
  exists evs,
    walkFiles fs root ignored size false None tree = (evs, Returned, None)
    /\ yielded_items evs ≡ₚ tree_files fs root ignored root tree.
Proof.
  intros H. apply (inner_loop_complete tree root [] H).
Qed.
End WalkerCompleteness.

Lemma inner_loop_entry_action_ext fs root ignored size e1 e2 :
  (forall abspath name,
      entry_action fs ignored e1 abspath name
      = entry_action fs ignored e2 abspath name) ->
  forall l sig dir chunk,
    inner_loop fs root ignored size e1 sig dir chunk l
    = inner_loop fs root ignored size e2 sig dir chunk l.
Proof.
  intros Hext.
  induction l as [|e|reason|name interrupt sub IHsub rest IHrest];
    intros [r|] dir chunk; try reflexivity.
  cbn [inner_loop]. rewrite Hext.
  destruct (entry_action fs ignored e2 (join dir name) name);
    try (rewrite IHrest; reflexivity).
  - destruct (Z.of_nat _ >=? size); now rewrite IHrest.
  - rewrite IHsub.
    destruct (inner_loop fs root ignored size e2 _ (join dir name) [] sub)
      as [[evs1 e1'] s1].
    destruct e1'; [now rewrite IHrest|reflexivity].
  - reflexivity.
Qed.

(** X7. [expandSymbolicLink] matters for symbolic links only: on a tree in
    which [Deno.lstat] reports no entry as a symbolic link, the walk is the
    same with the parameter set and unset. *)
Theorem expandSymbolicLink_only_matters_for_links fs root ignored size sig
    tree :
  (forall p info, lstat fs p = Some info -> FileInfo.isSymlink info = false)
  ->
  walkFiles fs root ignored size true sig tree
  = walkFiles fs root ignored size false sig tree.
Proof.
  intros Hno. unfold walkFiles, inner.
  apply inner_loop_entry_action_ext.
  intros abspath name. unfold entry_action, readStat.
  destruct (lstat fs abspath) as [info|] eqn:E; [|reflexivity].
  now rewrite (Hno _ _ E).
Qed.

(** X8. A symbolic link whose target cannot be read with [Deno.stat], as a
    dangling link, is listed as a file when [expandSymbolicLink] is unset
    and passed over without a trace when it is set. *)
Theorem dangling_link_is_listed_or_skipped fs ignored abspath name info :
  lstat fs abspath = Some info ->
  FileInfo.isSymlink info = true ->
  FileInfo.isDirectory info = false ->
  stat fs abspath = None ->
  readStat fs abspath false = Some info
  /\ entry_action fs ignored false abspath name = EmitFile
  /\ readStat fs abspath true = None
  /\ entry_action fs ignored true abspath name = Vanished.
Proof.
  intros Hl Hs Hd Ht. unfold entry_action, readStat.
  rewrite Hl, Hs, Ht. cbn. rewrite Hd. now repeat split.
Qed.

(** X9. The ignore list applies to directories, by the name of the entry:
    an entry is ignored exactly when it is a directory (for a link followed
    under [expandSymbolicLink], when its target is) and its name is on the
    list. An entry that is no directory is emitted whatever its name. *)
Theorem ignore_list_applies_to_directories fs ignored expand abspath name :
  (entry_action fs ignored expand abspath name = Ignored
   <-> exists info,
         readStat fs abspath expand = Some info
         /\ FileInfo.isDirectory info = true
         /\ name ∈ ignored)
  /\ (entry_action fs ignored expand abspath name = EmitFile
      <-> exists info,
            readStat fs abspath expand = Some info
            /\ FileInfo.isDirectory info = false).
Proof.
  unfold entry_action.
  destruct (readStat fs abspath expand) as [info|].
  2:{ split; (split; [discriminate|intros (? & ? & _); discriminate]). }
  destruct (FileInfo.isDirectory info) eqn:Ed; cbn.
  - destruct (bool_decide (name ∈ ignored)) eqn:Ei.
    + apply bool_decide_eq_true in Ei.
      split; (split; [intros H|]).
      * now exists info.
      * reflexivity.
      * discriminate.
      * intros (i & [= <-] & Hi). congruence.
    + apply bool_decide_eq_false in Ei.
      split; (split; [intros H|]).
      * exfalso. destruct (FileInfo.isSymlink info); cbn in H;
          [destruct (realPath fs abspath) as [real|];
           [destruct (includes abspath real)|]|]; discriminate.
      * intros (i & _ & _ & Hin). contradiction.
      * exfalso. destruct (FileInfo.isSymlink info); cbn in H;
          [destruct (realPath fs abspath) as [real|];
           [destruct (includes abspath real)|]|]; discriminate.
      * intros (i & [= <-] & Hi). congruence.
  - split; (split; [intros H|]).
    + discriminate.
    + intros (i & [= <-] & Hi & _). congruence.
    + now exists info.
    + reflexivity.
Qed.

(** ** onInit *)

(** X10. When the host accepts every command, [onInit] has defined, with
    [highlight default], the highlight group of each of the six source
    tags: the group that [makeItem] names in the highlight of an item with
    that tag. *)
Theorem onInit_defines_every_highlight_group answer sent :
  onInit answer [] = (Normal tt, sent) ->
  forall tag, tag ∈ source_tags ->
  forall w p d,
    exists h attrs,
      highlights (makeItem w p tag true d) = Some [h]
      /\ ("highlight default " +:+ ItemHighlight.hl_group h +:+ " " +:+ attrs)
         ∈ sent.
Proof.
  clear pathsep join relative resolve.
  intros H tag Htag w p d.
  unfold onInit, cmd_bind, denops_cmd in H. cbn in H.
  answer_cases answer H.
  injection H as <-.
  unfold source_tags in Htag.
  repeat (apply elem_of_cons in Htag as [->|Htag]);
    [..|now apply elem_of_nil in Htag];
    eexists _;
    [exists "ctermfg=Green guifg=#98c379"
    |exists "ctermfg=Yellow guifg=#e5c07b"
    |exists "ctermfg=Yellow guifg=#e5c07b"
    |exists "ctermfg=Yellow guifg=#e5c07b"
    |exists "ctermfg=Yellow guifg=#e5c07b"
    |exists "ctermfg=Blue guifg=#61afef"];
    (split; [reflexivity|]); cbn; set_solver.
Qed.


(** X11. Whatever the host answers, [onInit] sends nothing but
    [highlight default] commands for its own groups, in the order of a run
    in which every command is accepted: six commands when all are accepted,
    and when one is refused that one is the last sent and its exception is
    the outcome of [onInit]. *)
Theorem onInit_sends_highlight_defaults_only answer :
  let '(r, sent) := onInit answer [] in
  sent `prefix_of` (onInit (fun _ => Normal tt) []).2
  /\ Forall
       (fun c => startsWith c "highlight default DduTriSource_" = true) sent
  /\ match r with
     | Normal _ => length sent = 6%nat
     | Throw e => exists c, last sent = Some c /\ answer c = Throw e
     end.
Proof.
  unfold onInit, cmd_bind, denops_cmd. cbn.
  repeat match goal with
         | |- context [answer ?c] =>
             let E := fresh "E" in
             destruct (answer c) as [[]|?] eqn:E; cbn
         end;
    (split; [eexists; reflexivity|]);
    (split; [repeat constructor|]);
    try reflexivity; eexists; (split; [reflexivity|eassumption]).
Qed.


(** ** The buffer list *)

Lemma gatherBuffer_loop_items denops bufNr alt cd dd sp sorted :
  forall st,
    exists r S',
      gatherBuffer_loop denops bufNr alt cd dd sp sorted st
      = (r, set_seen S' st)
      /\ match r with
         | Normal items =>
             exists bufs,
               items = map (buffer_item bufNr alt cd sp) bufs
               /\ bufs `sublist_of` sorted
               /\ Forall (fun b => buffer_candidate denops b = true) bufs
         | Throw _ => True
         end.
Proof.
  induction sorted as [|buf sorted IH]; intros st.
  - exists (Normal []), (seen st). split.
    + unfold set_seen. now destruct st.
    + exists []. repeat split; constructor.
  - assert (Hskip :
             forall st0 S0,
               st0 = set_seen S0 st ->
               exists r S',
                 gatherBuffer_loop denops bufNr alt cd dd sp sorted st0
                 = (r, set_seen S' st)
                 /\ match r with
                    | Normal items =>
                        exists bufs,
                          items = map (buffer_item bufNr alt cd sp) bufs
                          /\ bufs `sublist_of` buf :: sorted
                          /\ Forall
                               (fun b => buffer_candidate denops b = true)
                               bufs
                    | Throw _ => True
                    end).
    { intros st0 S0 ->. destruct (IH (set_seen S0 st)) as (r & S' & -> & Hr).
      exists r, S'. split; [reflexivity|].
      destruct r as [items|e]; [|exact I].
      destruct Hr as (bufs & -> & Hsub & Hc). exists bufs.
      repeat split; [|exact Hc]. now apply sublist_cons. }
    assert (Hid : st = set_seen (seen st) st).
    { unfold set_seen. now destruct st. }
    cbn [gatherBuffer_loop].
    destruct (String.eqb (BufInfo.name buf) "") eqn:Hname;
      [now apply (Hskip st (seen st))|].
    unfold bind at 1, await at 1.
    destruct (call_getbufvar denops (BufInfo.bufnr buf)) as [u|e] eqn:Hvar.
    2:{ exists (Throw e), (seen st). split; [now f_equal|exact I]. }
    destruct (String.eqb (bufType_of u) "terminal") eqn:Hterm;
      [now apply (Hskip st (seen st))|].
    assert (Hcand : buffer_candidate denops buf = true).
    { unfold buffer_candidate. now rewrite Hname, Hvar, Hterm. }
    unfold bind at 1.
    assert (Hend : forall st0 S0,
               st0 = set_seen S0 st ->
               exists r S',
                 (let* items :=
                    gatherBuffer_loop denops bufNr alt cd dd sp sorted in
                  ret (buffer_item bufNr alt cd sp buf :: items)) st0
                 = (r, set_seen S' st)
                 /\ match r with
                    | Normal items =>
                        exists bufs,
                          items = map (buffer_item bufNr alt cd sp) bufs
                          /\ bufs `sublist_of` buf :: sorted
                          /\ Forall
                               (fun b => buffer_candidate denops b = true)
                               bufs
                    | Throw _ => True
                    end).
    { intros st0 S0 ->. unfold bind at 1.
      destruct (IH (set_seen S0 st)) as (r & S' & -> & Hr).
      destruct r as [items|e]; [|now exists (Throw e), S'].
      destruct Hr as (bufs & -> & Hsub & Hc).
      eexists _, S'. split; [reflexivity|].
      exists (buf :: bufs). repeat split.
      - now apply sublist_skip.
      - now constructor. }
    destruct dd.
    + unfold bind at 1, seen_has at 1.
      destruct (bool_decide _).
      * unfold ret at 1. now apply (Hskip st (seen st)).
      * unfold bind at 1, seen_add at 1, ret at 1. eapply Hend.
        reflexivity.
    + unfold ret at 1. now apply (Hend st (seen st)).
Qed.

Lemma sort_insert_members {A} (cmp : A -> A -> Z) x y l :
  y ∈ sort_insert cmp x l <-> y = x \/ y ∈ l.
Proof.
  clear pathsep join relative resolve.
  induction l as [|z l IH]; cbn.
  - rewrite list_elem_of_singleton. split; [now left|].
    intros [H|H]; [exact H|]. now apply elem_of_nil in H.
  - destruct (cmp x z <=? 0).
    + now rewrite elem_of_cons.
    + rewrite !elem_of_cons, IH. tauto.
Qed.

Lemma js_sort_members {A} (cmp : A -> A -> Z) y l :
  y ∈ js_sort cmp l <-> y ∈ l.
Proof.
  clear pathsep join relative resolve.
  induction l as [|x l IH]; cbn; [reflexivity|].
  rewrite sort_insert_members, elem_of_cons, IH. tauto.
Qed.

Section BufferOrder.
Variable orderby : string.
Variable bufNr : Z.

Local Abbreviation cmp := (buffer_compare orderby bufNr).
Local Abbreviation before := (buffer_before orderby bufNr).

Lemma buffer_before_trans a b c : before a b -> before b c -> before a c.
Proof.
  unfold buffer_before. destruct (String.eqb orderby "desc"); [|lia].
  intros [Ha Hab] [Hb Hbc]. split; [exact Ha|].
  destruct Hbc as [Hc|Hbc]; [now left|]. right.
  destruct Hab as [Hab|Hab]; [contradiction|lia].
Qed.

Lemma buffer_compare_before a b : cmp a b <= 0 -> before a b.
Proof.
  unfold buffer_compare, buffer_before.
  destruct (String.eqb orderby "desc"); [|lia].
  destruct (Z.eqb_spec (BufInfo.bufnr a) bufNr) as [Ha|Ha]; [lia|].
  destruct (Z.eqb_spec (BufInfo.bufnr b) bufNr) as [Hb|Hb].
  - intros _. split; [exact Ha|now left].
  - intros H. split; [exact Ha|]. right. lia.
Qed.

Lemma buffer_compare_after a b :
  BufInfo.bufnr a <> BufInfo.bufnr b -> 0 < cmp a b -> before b a.
Proof.
  unfold buffer_compare, buffer_before.
  destruct (String.eqb orderby "desc"); [|lia].
  destruct (Z.eqb_spec (BufInfo.bufnr a) bufNr) as [Ha|Ha].
  - intros Hne _. split; [congruence|now left].
  - destruct (Z.eqb_spec (BufInfo.bufnr b) bufNr) as [Hb|Hb]; [lia|].
    intros _ H. split; [exact Hb|]. right. lia.
Qed.

Lemma sort_insert_sorted x l :
  StronglySorted before l ->
  Forall (fun y => BufInfo.bufnr x <> BufInfo.bufnr y) l ->
  StronglySorted before (sort_insert cmp x l).
Proof.
  clear pathsep join relative resolve.
  induction l as [|y l IH]; intros Hs Hd; cbn.
  - repeat constructor.
  - apply StronglySorted_inv in Hs as [Hs Hy].
    apply Forall_cons in Hd as [Hxy Hd].
    destruct (cmp x y <=? 0) eqn:E.
    + apply Z.leb_le in E. apply buffer_compare_before in E.
      constructor; [now constructor|].
      constructor; [exact E|].
      eapply Forall_impl; [exact Hy|].
      intros z Hz. now apply (buffer_before_trans x y z).
    + apply Z.leb_gt in E. apply buffer_compare_after in E; [|exact Hxy].
      constructor; [now apply IH|].
      apply Forall_forall. intros z Hz.
      apply sort_insert_members in Hz as [->|Hz]; [exact E|].
      rewrite Forall_forall in Hy. now apply Hy.
Qed.

Lemma js_sort_sorted l :
  NoDup (map BufInfo.bufnr l) -> StronglySorted before (js_sort cmp l).
Proof.
  clear pathsep join relative resolve.
  induction l as [|x l IH]; intros Hnd; cbn; [constructor|].
  cbn in Hnd. apply NoDup_cons in Hnd as [Hx Hnd].
  apply sort_insert_sorted; [now apply IH|].
  apply Forall_forall. intros y Hy Heq.
  apply js_sort_members in Hy. apply Hx.
  rewrite Heq. now apply list_elem_of_fmap_2.
Qed.
End BufferOrder.

Lemma NoDup_map_filter {A B} (f : A -> B) (p : A -> bool) l :
  NoDup (map f l) -> NoDup (map f (List.filter p l)).
Proof.
  induction l as [|x l IH]; cbn; intros Hnd; [constructor|].
  apply NoDup_cons in Hnd as [Hx Hnd].
  destruct (p x); [|now apply IH]. cbn.
  apply NoDup_cons. split; [|now apply IH].
  intros Hin. apply Hx.
  apply list_elem_of_fmap in Hin as (y & -> & Hy).
  apply list_elem_of_fmap_2.
  apply list_elem_of_In in Hy. apply filter_In in Hy as [Hy _].
  now apply list_elem_of_In.
Qed.

Lemma StronglySorted_sublist {A} (R : A -> A -> Prop) l1 l2 :
  l1 `sublist_of` l2 -> StronglySorted R l2 -> StronglySorted R l1.
Proof.
  induction 1 as [|x l1 l2 Hsub IH|x l1 l2 Hsub IH]; intros Hs.
  - constructor.
  - apply StronglySorted_inv in Hs as [Hs Hx].
    constructor; [now apply IH|].
    apply Forall_forall. intros y Hy. rewrite Forall_forall in Hx.
    apply Hx. now apply (elem_of_sublist l1 l2).
  - apply StronglySorted_inv in Hs as [Hs _]. now apply IH.
Qed.

(** X12. The buffer items come in the order of the sort: with [desc] the
    current buffer is last and the others go from the most recently used to
    the least recently used, with any other value of [bufferOrderby] from
    the least recently used to the most recently used. Each item stands for
    a listed, named buffer that is no terminal. Vim gives every buffer a
    number of its own. *)
Theorem buffer_items_follow_the_sort_order denops bufNr orderby dd sp st
    info items st' :
  call_getbufinfo denops = Normal info ->
  NoDup (map BufInfo.bufnr (buffers info)) ->
  gatherBuffer denops bufNr orderby dd sp st = (Normal items, st') ->
  exists bufs,
    items
    = map (buffer_item bufNr (alternateBufNr info) (currentDir info) sp) bufs
    /\ StronglySorted (buffer_before orderby bufNr) bufs
    /\ Forall
         (fun b =>
            b ∈ buffers info
            /\ BufInfo.listed b = true
            /\ buffer_candidate denops b = true)
         bufs.
Proof.
  intros Hinfo Hnd. unfold gatherBuffer, bind, await. rewrite Hinfo.
  cbv zeta.
  destruct (gatherBuffer_loop_items denops bufNr (alternateBufNr info)
              (currentDir info) dd sp
              (js_sort (buffer_compare orderby bufNr)
                 (List.filter BufInfo.listed (buffers info))) st)
    as (r & S' & -> & Hr).
  intros [= -> <-]. destruct Hr as (bufs & -> & Hsub & Hc).
  exists bufs. split; [reflexivity|]. split.
  - apply (StronglySorted_sublist _ _ _ Hsub).
    apply js_sort_sorted. now apply NoDup_map_filter.
  - apply Forall_forall. intros b Hb.
    rewrite Forall_forall in Hc.
    assert (Hin : b ∈ List.filter BufInfo.listed (buffers info)).
    { apply (js_sort_members (buffer_compare orderby bufNr)).
      now apply (elem_of_sublist bufs). }
    apply list_elem_of_In in Hin. apply filter_In in Hin as [Hin Hl].
    split; [now apply list_elem_of_In|]. split; [exact Hl|now apply Hc].
Qed.

Lemma length_repeat_string n fill :
  String.length (repeat_string n fill) = (n * String.length fill)%nat.
Proof.
  induction n as [|n IH]; [reflexivity|].
  change (repeat_string (S n) fill) with (fill +:+ repeat_string n fill).
  rewrite string_length_app, IH. lia.
Qed.

Lemma length_padStart s n :
  String.length (padStart s n) = Nat.max n (String.length s).
Proof.
  unfold padStart. rewrite string_length_app, length_repeat_string.
  cbn [String.length]. lia.
Qed.

(** X13. The word of a buffer item has fixed columns: the buffer number
    padded to two characters at least, a blank, two characters of marks
    ([%] for the current buffer, [#] for the alternate one), a blank, [+]
    or a blank for the modified flag, a blank, and the name. The name shown
    is the path relative to the current directory, unless that path starts
    with two dots: then it is the name of the buffer as Vim gives it. *)
Theorem buffer_word_has_fixed_columns bufNr alt cd buf :
  exists shown,
    buffer_word bufNr alt cd buf
    = padStart (String_of_number (BufInfo.bufnr buf)) 2 +:+ " "
      +:+ (if bufNr =? BufInfo.bufnr buf
           then if alt =? BufInfo.bufnr buf then "%#" else " %"
           else if alt =? BufInfo.bufnr buf then " #" else "  ")
      +:+ " " +:+ (if BufInfo.changed buf then "+" else " ")
      +:+ " " +:+ shown
    /\ (2 <= String.length (padStart (String_of_number (BufInfo.bufnr buf)) 2))
       %nat
    /\ (if startsWith (relative cd (BufInfo.name buf)) ".."
        then shown = BufInfo.name buf
        else shown = relative cd (BufInfo.name buf)).
Proof.
  unfold buffer_word.
  exists (if startsWith (relative cd (BufInfo.name buf)) ".."
          then BufInfo.name buf
          else relative cd (BufInfo.name buf)).
  split; [|split].
  - destruct (bufNr =? BufInfo.bufnr buf), (alt =? BufInfo.bufnr buf);
      reflexivity.
  - rewrite length_padStart. lia.
  - now destruct (startsWith _ _).
Qed.

Lemma gather_buffer_throws args st e :
  closed st = false ->
  (gather_buffer args st).1 = Throw e ->
  exists S', gather_buffer args st = (Throw e, set_seen S' st).
Proof.
  intros Hcl. unfold gather_buffer.
  destruct (enableBuffer (sourceParams args)); [|discriminate].
  unfold bind.
  destruct (gatherBuffer_stream (denops args) (bufNr (context args))
              (bufferOrderby (sourceParams args))
              (dedup (sourceParams args))
              (showSourcePrefix (sourceParams args)) st)
    as (r & S' & ->).
  destruct r as [items|e'].
  - destruct (0 <? length items)%nat; [|discriminate].
    unfold enqueue. cbn [closed set_seen]. rewrite Hcl. discriminate.
  - cbn. intros [= ->]. now exists S'.
Qed.

(** X14. A failure of the buffer step is not contained: when
    [gatherBuffer] throws, as it does when a call to Vim fails, the MRU
    step and the walk never run, nothing is delivered, the exception is
    reported with [console.error] (unless it is an [Error] whose name holds
    [AbortReason]) and the stream is closed. *)
Theorem buffer_failure_ends_the_run args fs tree e :
  (gather_buffer args initial_state).1 = Throw e ->
  let final := gather args fs tree in
  queue final = []
  /\ console final = (if is_AbortReason e then [] else [[LVal e]])
  /\ signal final = None
  /\ closed final = true.
Proof.
  intros H final. subst final.
  destruct (gather_buffer_throws args initial_state e eq_refl H)
    as (S' & Hrun).
  assert (Hstart :
           start args fs tree initial_state
           = ((start_catch e (set_seen S' initial_state)).1,
              close (start_catch e (set_seen S' initial_state)).2)).
  { unfold start, finally, try_catch. unfold bind at 1. rewrite Hrun.
    now destruct (start_catch e _). }
  unfold gather. rewrite Hstart. unfold start_catch.
  destruct (is_AbortReason e); cbn; now repeat split.
Qed.

Lemma ensure_ArrayOf_String_throws v e :
  ensure_ArrayOf_String v = Throw e -> e = assertError.
Proof.
  unfold ensure_ArrayOf_String.
  destruct v as [| |b|z|s|l|]; try (now intros [= <-]).
  destruct (all_strings l); [discriminate|now intros [= <-]].
Qed.

(** X15. The line [gatherMr] logs when the MRU call fails: the fixed hint
    at the runtime path and the plugin version when the call does not
    settle within its deadline or rejects with a [DOMException]; the name
    of the source and the exception when it rejects with anything else;
    the name of the source and the assertion error when it resolves to
    something else than an array of strings. In each case the step
    returns the empty list. *)
Theorem mr_failure_diagnostics denops mrKind dd sp st :
  mr_call_fails (dispatch denops "mr" (mrKind +:+ ":list")) = true ->
  gatherMr denops mrKind dd sp st
  = (Normal [],
     (console_error
        match dispatch denops "mr" (mrKind +:+ ":list") with
        | Resolves ms _ =>
            if ms <? 1000
            then [LStr "[ddu-source-tri_source]"; LVal assertError]
            else [LStr mr_unavailable]
        | Rejects ms e =>
            if ms <? 1000
            then
              if instanceof_DOMException e then [LStr mr_unavailable]
              else [LStr "[ddu-source-tri_source]"; LVal e]
            else [LStr mr_unavailable]
        | NeverSettles => [LStr mr_unavailable]
        end st).2).
Proof.
  unfold gatherMr, mr_list, deadline, mr_call_fails.
  destruct (dispatch denops "mr" (mrKind +:+ ":list")) as [ms v|ms e|].
  - destruct (Z.ltb_spec ms 1000) as [Hlt|Hge].
    + replace (1000 <=? ms) with false by (symmetry; apply Z.leb_gt; lia).
      cbn [orb].
      destruct (ensure_ArrayOf_String v) as [r|e] eqn:Ev; [discriminate|].
      intros _. apply ensure_ArrayOf_String_throws in Ev as ->.
      reflexivity.
    + intros _. reflexivity.
  - intros _. destruct (ms <? 1000); [|reflexivity].
    now destruct (instanceof_DOMException e).
  - intros _. reflexivity.
Qed.

Lemma gatherMr_loop_items mrKind dd sp result :
  forall st,
    exists ps S',
      gatherMr_loop mrKind ["mrr"; "mrd"]%string dd sp result st
      = (Normal (map (mr_item mrKind sp) ps), set_seen S' st)
      /\ ps `sublist_of` result
      /\ (dd = false -> ps = result).
Proof.
  induction result as [|p result IH]; intros st.
  - exists [], (seen st). split; [|now split].
    cbn. unfold ret, set_seen. now destruct st.
  - cbn [gatherMr_loop]. unfold bind at 1.
    assert (Hend :
             forall st0 S0,
               st0 = set_seen S0 st ->
               exists ps S',
                 (let* items :=
                    gatherMr_loop mrKind ["mrr"; "mrd"]%string dd sp result
                  in ret (mr_item mrKind sp p :: items)) st0
                 = (Normal (map (mr_item mrKind sp) ps), set_seen S' st)
                 /\ ps `sublist_of` p :: result
                 /\ (dd = false -> ps = p :: result)).
    { intros st0 S0 ->. unfold bind at 1.
      destruct (IH (set_seen S0 st)) as (ps & S' & -> & Hsub & Hall).
      exists (p :: ps), S'. split; [reflexivity|]. split.
      - now apply sublist_skip.
      - intros Hd. now rewrite (Hall Hd). }
    destruct dd.
    + unfold bind at 1, seen_has at 1.
      destruct (bool_decide _).
      * unfold ret at 1.
        destruct (IH st) as (ps & S' & -> & Hsub & _).
        exists ps, S'. split; [reflexivity|]. split; [|discriminate].
        now apply sublist_cons.
      * unfold bind at 1, seen_add at 1, ret at 1. eapply Hend.
        reflexivity.
    + unfold ret at 1. apply (Hend st (seen st)).
      unfold set_seen. now destruct st.
Qed.

(** X16. When the MRU call answers with a list of paths, the MRU items
    follow the order of that list, each with the listed path, unchanged,
    as its word and as its path. Without [dedup] there is an item for
    every path of the list; with [dedup] some paths are left out. Nothing
    is logged. *)
Theorem mr_items_follow_the_list denops mrKind dd sp st result :
  mr_list denops mrKind = Normal result ->
  exists ps S',
    gatherMr denops mrKind dd sp st
    = (Normal
         (map (fun p =>
                 makeItem p p mrKind sp
                   (bool_decide (mrKind ∈ ["mrr"; "mrd"]%string))) ps),
       set_seen S' st)
    /\ ps `sublist_of` result
    /\ (dd = false -> ps = result).
Proof.
  intros H. unfold gatherMr. rewrite H. apply gatherMr_loop_items.
Qed.

(** ** The batches of a run *)

Lemma gatherBuffer_items denops bufNr orderby dd sp st :
  exists r S',
    gatherBuffer denops bufNr orderby dd sp st = (r, set_seen S' st)
    /\ match r with
       | Normal items =>
           exists bufs alt cd, items = map (buffer_item bufNr alt cd sp) bufs
       | Throw _ => True
       end.
Proof.
  unfold gatherBuffer, bind, await.
  destruct (call_getbufinfo denops) as [info|e].
  - cbv zeta.
    destruct (gatherBuffer_loop_items denops bufNr (alternateBufNr info)
                (currentDir info) dd sp
                (js_sort (buffer_compare orderby bufNr)
                   (List.filter BufInfo.listed (buffers info))) st)
      as (r & S' & -> & Hr).
    exists r, S'. split; [reflexivity|].
    destruct r as [items|e]; [|exact I].
    destruct Hr as (bufs & -> & _). now eexists _, _, _.
  - exists (Throw e), (seen st). split; [|exact I].
    unfold set_seen. now destruct st.
Qed.

Lemma gatherMr_items denops mrKind dd sp st :
  exists ps S' log,
    gatherMr denops mrKind dd sp st
    = (Normal (map (mr_item mrKind sp) ps),
       {| seen := S'; queue := queue st; console := console st ++ log;
          signal := signal st; closed := closed st |}).
Proof.
  unfold gatherMr.
  destruct (mr_list denops mrKind) as [result|e].
  - destruct (gatherMr_loop_items mrKind dd sp result st)
      as (ps & S' & -> & _).
    exists ps, S', []. unfold set_seen. now rewrite app_nil_r.
  - exists [], (seen st).
    destruct (instanceof_DOMException e); now eexists.
Qed.

Section Batches.
Variable args : GatherArguments.
Variable B : Origin * list Item -> Prop.
Hypothesis B_buffer :
  forall bufs alt cd,
    B (FromBuffer,
       map (buffer_item (bufNr (context args)) alt cd
              (showSourcePrefix (sourceParams args))) bufs).
Hypothesis B_mr :
  forall ps,
    B (FromMr,
       map (mr_item (mrKind (sourceParams args))
              (showSourcePrefix (sourceParams args))) ps).

Lemma enqueue_if_any_batches o items st :
  B (o, items) ->
  Forall B (queue st) ->
  Forall B
    (queue
       ((if (0 <? length items)%nat then enqueue o items else ret tt) st).2).
Proof.
  intros Hb H. destruct (0 <? length items)%nat; [|exact H].
  unfold enqueue. destruct (closed st); [exact H|]. cbn.
  apply Forall_app. split; [exact H|]. now repeat constructor.
Qed.

Lemma gather_buffer_batches st :
  Forall B (queue st) -> Forall B (queue (gather_buffer args st).2).
Proof.
  intros H. unfold gather_buffer.
  destruct (enableBuffer (sourceParams args)); [|exact H].
  unfold bind.
  destruct (gatherBuffer_items (denops args) (bufNr (context args))
              (bufferOrderby (sourceParams args))
              (dedup (sourceParams args))
              (showSourcePrefix (sourceParams args)) st)
    as (r & S' & -> & Hr).
  destruct r as [items|e]; [|exact H].
  destruct Hr as (bufs & alt & cd & ->).
  now apply enqueue_if_any_batches.
Qed.

Lemma gather_mr_batches st :
  Forall B (queue st) -> Forall B (queue (gather_mr args st).2).
Proof.
  intros H. unfold gather_mr.
  destruct (enableMr (sourceParams args)); [|exact H].
  unfold bind.
  destruct (gatherMr_items (denops args) (mrKind (sourceParams args))
              (dedup (sourceParams args))
              (showSourcePrefix (sourceParams args)) st)
    as (ps & S' & log & ->).
  now apply enqueue_if_any_batches.
Qed.

Lemma gather_batches fs tree :
  (forall st,
      Forall B (queue st) ->
      Forall B (queue (gather_fileRec args fs tree st).2)) ->
  Forall B (queue (gather args fs tree)).
Proof.
  intros Hrec.
  apply (start_inv args fs tree (fun st => Forall B (queue st))
           (fun st => Forall B (queue st)) (fun st => Forall B (queue st))).
  - pose proof (gather_buffer_batches initial_state (Forall_nil_2 _)) as H.
    now destruct (gather_buffer args initial_state) as [[[]|e] st1].
  - intros st H. apply gather_mr_batches in H.
    now destruct (gather_mr args st) as [[[]|e] st2].
  - exact Hrec.
  - trivial.
  - trivial.
Qed.
End Batches.

Lemma dedup_filter_sublist chunk :
  forall st,
    exists kept S',
      dedup_filter chunk st = (Normal kept, set_seen S' st)
      /\ kept `sublist_of` chunk.
Proof.
  induction chunk as [|x chunk IH]; intros st.
  - exists [], (seen st). split; [|constructor].
    cbn. unfold ret, set_seen. now destruct st.
  - cbn [dedup_filter]. unfold bind at 1.
    assert (Hrest :
             forall keep st0 S0,
               st0 = set_seen S0 st ->
               exists kept S',
                 (let* kept := dedup_filter chunk in
                  ret (if (keep : bool) then x :: kept else kept)) st0
                 = (Normal kept, set_seen S' st)
                 /\ kept `sublist_of` x :: chunk).
    { intros keep st0 S0 ->. unfold bind at 1.
      destruct (IH (set_seen S0 st)) as (kept & S' & -> & Hsub).
      eexists _, S'. split; [reflexivity|].
      destruct keep; [now apply sublist_skip|now apply sublist_cons]. }
    assert (Hid : st = set_seen (seen st) st).
    { unfold set_seen. now destruct st. }
    destruct (String.eqb (path (action x)) "").
    + unfold ret at 1. now apply (Hrest true st (seen st)).
    + unfold bind at 1, seen_has at 1.
      destruct (bool_decide _).
      * unfold ret at 1. now apply (Hrest false st (seen st)).
      * unfold bind at 1, seen_add at 1, ret at 1.
        eapply (Hrest true). reflexivity.
Qed.

Lemma prepare_chunk_items params chunk st :
  exists kept S',
    prepare_chunk params chunk st
    = (Normal (if showSourcePrefix params then map add_rec_prefix kept
               else kept),
       set_seen S' st)
    /\ kept `sublist_of` chunk.
Proof.
  unfold prepare_chunk, bind.
  destruct (dedup params).
  - destruct (dedup_filter_sublist chunk st) as (kept & S' & -> & Hsub).
    now exists kept, S'.
  - exists chunk, (seen st). split; [|reflexivity].
    unfold ret, set_seen. now destruct st.
Qed.

Lemma gather_walk_yields_walker_items args fs tree sig chunk :
  EYield chunk ∈ (gather_walk args fs tree sig).1.1 ->
  Forall (walker_item (gather_root args)) chunk.
Proof.
  unfold gather_walk, walkFiles, inner.
  apply inner_loop_yields_items. constructor.
Qed.

Lemma walker_item_of_source params root x :
  walker_item root x ->
  (if showSourcePrefix params then add_rec_prefix x else x)
  = item_of_source params FromFileRec
      (if showSourcePrefix params then add_rec_prefix x else x).
Proof.
  intros (d & n & ->). unfold item_of_source, makeItem.
  now destruct (showSourcePrefix params).
Qed.

Lemma gather_fileRec_items_of_source args fs tree st :
  let B := fun b : Origin * list Item =>
             Forall (fun x => x = item_of_source (sourceParams args) b.1 x)
               b.2 in
  Forall B (queue st) ->
  Forall B (queue (gather_fileRec args fs tree st).2).
Proof.
  intros B H.
  destruct (gather_fileRec_inv args fs tree
              (fun st P => Forall B (queue st) /\ B (FromFileRec, P))
              (Forall (walker_item (gather_root args))))
    with (st := st) as [P [HP _]]; try done.
  - intros chunk st0 P filtered st1 HC [HQ HB] Hrun.
    destruct (prepare_chunk_items (sourceParams args) chunk st0)
      as (kept & S' & Hrun' & Hsub).
    rewrite Hrun' in Hrun. injection Hrun as <- <-.
    split; [exact HQ|]. unfold B. cbn [fst snd].
    apply Forall_app. split; [exact HB|].
    assert (Hkept : Forall (walker_item (gather_root args)) kept).
    { apply Forall_forall. intros x Hx. rewrite Forall_forall in HC.
      apply HC. now apply (elem_of_sublist kept chunk). }
    clear Hrun' Hsub. induction Hkept as [|x kept Hx _ IH].
    + now destruct (showSourcePrefix (sourceParams args)).
    + pose proof (walker_item_of_source (sourceParams args) _ x Hx) as Hf.
      destruct (showSourcePrefix (sourceParams args)); cbn;
        constructor; assumption.
  - intros st0 P [HQ HB] Hcl _. unfold enqueue. rewrite Hcl. cbn.
    split; [|constructor]. apply Forall_app. split; [exact HQ|].
    now repeat constructor.
  - intros chunk. apply gather_walk_yields_walker_items.
  - split; [exact H|constructor].
Qed.

(** X17. Every delivered item has the form [makeItem] gives an item of its
    source: the tag of the source in [display] and in the highlight when
    [showSourcePrefix] is set, neither [display] nor [highlights] when it
    is unset, and [isDirectory] set for the MRU kinds [mrr] and [mrd] only.
    This holds for the walker's items as well, which [gather] builds and
    tags without [makeItem]. *)
Theorem delivered_items_have_the_form_of_their_source args fs tree :
  Forall (fun ox => ox.2 = item_of_source (sourceParams args) ox.1 ox.2)
    (delivered (gather args fs tree)).
Proof.
  assert (H : Forall
                (fun b : Origin * list Item =>
                   Forall
                     (fun x => x = item_of_source (sourceParams args) b.1 x)
                     b.2)
                (queue (gather args fs tree))).
  { apply gather_batches.
    - intros bufs alt cd. cbn [fst snd]. apply Forall_forall.
      intros x Hx. apply list_elem_of_fmap in Hx as (b & -> & _).
      reflexivity.
    - intros ps. cbn [fst snd]. apply Forall_forall.
      intros x Hx. apply list_elem_of_fmap in Hx as (q & -> & _).
      reflexivity.
    - apply gather_fileRec_items_of_source. }
  unfold delivered. induction H as [|[o b] q Hb _ IH]; [constructor|].
  cbn. apply Forall_app. split; [|exact IH].
  cbn in Hb. apply Forall_forall. intros ox Hox.
  apply list_elem_of_fmap in Hox as (x & -> & Hx).
  rewrite Forall_forall in Hb. now apply Hb.
Qed.

(** ** Sources that are switched off *)

Lemma gather_ext a1 a2 fs1 tree1 fs2 tree2 :
  (forall st, gather_buffer a1 st = gather_buffer a2 st) ->
  (forall st, gather_mr a1 st = gather_mr a2 st) ->
  (forall st,
      gather_fileRec a1 fs1 tree1 st = gather_fileRec a2 fs2 tree2 st) ->
  gather a1 fs1 tree1 = gather a2 fs2 tree2.
Proof.
  intros H1 H2 H3. unfold gather, start, finally, try_catch, bind.
  rewrite H1.
  destruct (gather_buffer a2 initial_state) as [[[]|e] st1]; [|reflexivity].
  rewrite H2.
  destruct (gather_mr a2 st1) as [[[]|e] st2]; [|reflexivity].
  now rewrite H3.
Qed.

Lemma bind_ext {A B} (m : M A) (k1 k2 : A -> M B) st :
  (forall a st', k1 a st' = k2 a st') -> bind m k1 st = bind m k2 st.
Proof.
  intros H. unfold bind. destruct (m st) as [[a|e] st']; [apply H|reflexivity].
Qed.

Lemma bind_ext_l {A B} (m1 m2 : M A) (k : A -> M B) st :
  m1 st = m2 st -> bind m1 k st = bind m2 k st.
Proof. intros H. unfold bind. now rewrite H. Qed.

Lemma gatherBuffer_loop_ext d1 d2 bufNr alt cd dd sp sorted :
  (forall n, call_getbufvar d1 n = call_getbufvar d2 n) ->
  forall st,
    gatherBuffer_loop d1 bufNr alt cd dd sp sorted st
    = gatherBuffer_loop d2 bufNr alt cd dd sp sorted st.
Proof.
  intros Hvar. induction sorted as [|buf sorted IH]; intros st;
    [reflexivity|].
  cbn [gatherBuffer_loop].
  destruct (String.eqb (BufInfo.name buf) ""); [apply IH|].
  rewrite Hvar. apply bind_ext. intros u st1.
  destruct (String.eqb (bufType_of u) "terminal"); [apply IH|].
  apply bind_ext. intros skip st2.
  destruct skip; [apply IH|].
  apply bind_ext_l. apply IH.
Qed.

(** X18. A source that is switched off is not consulted. With
    [enableBuffer] unset the run does not depend on what Vim answers about
    its buffers, with [enableMr] unset it does not depend on what the MRU
    plugin answers, and with [enableFileRec] unset it does not depend on
    the filesystem. *)
Theorem disabled_sources_are_not_consulted args fs tree :
  (enableBuffer (sourceParams args) = false ->
   forall d1 d2,
     (forall plugin method,
         dispatch d1 plugin method = dispatch d2 plugin method) ->
     gather (set_denops d1 args) fs tree
     = gather (set_denops d2 args) fs tree)
  /\ (enableMr (sourceParams args) = false ->
      forall d1 d2,
        call_getbufinfo d1 = call_getbufinfo d2 ->
        (forall n, call_getbufvar d1 n = call_getbufvar d2 n) ->
        gather (set_denops d1 args) fs tree
        = gather (set_denops d2 args) fs tree)
  /\ (enableFileRec (sourceParams args) = false ->
      forall fs' tree', gather args fs tree = gather args fs' tree').
Proof.
  split; [|split].
  - intros Hoff d1 d2 Hd. apply gather_ext.
    + intros st. unfold gather_buffer. cbn [sourceParams set_denops].
      now rewrite Hoff.
    + intros st. unfold gather_mr, gatherMr, mr_list.
      cbn [sourceParams denops set_denops]. now rewrite Hd.
    + reflexivity.
  - intros Hoff d1 d2 Hinfo Hvar. apply gather_ext.
    + intros st. unfold gather_buffer, gatherBuffer, bind, await.
      cbn [sourceParams denops context set_denops]. rewrite Hinfo.
      destruct (enableBuffer (sourceParams args)); [|reflexivity].
      destruct (call_getbufinfo d2) as [info|e]; [|reflexivity].
      cbv zeta. now rewrite (gatherBuffer_loop_ext d1 d2).
    + intros st. unfold gather_mr. cbn [sourceParams set_denops].
      now rewrite Hoff.
    + reflexivity.
  - intros Hoff fs' tree'. apply gather_ext; try reflexivity.
    intros st. unfold gather_fileRec. now rewrite Hoff.
Qed.

(** ** The size of the batches of the walk *)

Lemma for_await_bound params events :
  let c := chunkSize params in
  let Q := fun st : State =>
             Forall (fun b : Origin * list Item =>
                       b.1 = FromFileRec ->
                       Z.of_nat (length b.2) < 11 * c) (queue st) in
  1 <= c ->
  each_chunk (fun ch => Z.of_nat (length ch) <= c) events ->
  forall E P st,
    E = c \/ E = 10 * c ->
    Z.of_nat (length P) < E ->
    Q st ->
    match for_await params events E P st with
    | (Normal (E', P'), st') =>
        Q st' /\ Z.of_nat (length P') < E' /\ (E' = c \/ E' = 10 * c)
    | (Throw _, st') => Q st'
    end.
Proof.
  intros c Q Hc.
  induction events as [|[chunk|reason] events IH]; intros Hev E P st HE HP HQ.
  - cbn. auto.
  - apply Forall_cons in Hev as [Hchunk Hev].
    cbn [for_await]. unfold bind at 1.
    destruct (prepare_chunk_items params chunk st)
      as (kept & S' & -> & Hsub).
    set (filtered := if showSourcePrefix params
                     then map add_rec_prefix kept else kept).
    assert (Hlen : Z.of_nat (length filtered) <= c).
    { apply sublist_length in Hsub. subst filtered.
      destruct (showSourcePrefix params); rewrite ?length_map; lia. }
    destruct (Z.of_nat (length (P ++ filtered)) >=? E) eqn:Hge.
    + unfold bind at 1, enqueue at 1. cbn [closed set_seen].
      destruct (closed st); [exact HQ|].
      apply IH; [exact Hev|now right|cbn; lia|].
      unfold Q. cbn. apply Forall_app. split; [exact HQ|].
      constructor; [|constructor]. intros _. cbn.
      rewrite length_app. lia.
    + apply IH; [exact Hev|exact HE| |exact HQ].
      rewrite Z.geb_leb in Hge. apply Z.leb_gt in Hge. exact Hge.
  - apply Forall_cons in Hev as [_ Hev].
    cbn [for_await]. unfold bind at 1.
    apply IH; [exact Hev|exact HE|exact HP|exact HQ].
Qed.

Lemma gather_fileRec_bound args fs tree st :
  let c := chunkSize (sourceParams args) in
  let B := fun b : Origin * list Item =>
             b.1 = FromFileRec -> Z.of_nat (length b.2) < 11 * c in
  1 <= c ->
  Forall B (queue st) ->
  Forall B (queue (gather_fileRec args fs tree st).2).
Proof.
  intros c B Hc HQ. unfold gather_fileRec.
  destruct (enableFileRec (sourceParams args)); [|exact HQ].
  assert (Hev : each_chunk (fun ch => Z.of_nat (length ch) <= Z.max 1 c)
                  (gather_walk args fs tree (signal st)).1.1)
    by apply walk_chunk_lengths.
  destruct (gather_walk args fs tree (signal st)) as [[events wend] s].
  cbn [fst] in Hev. unfold bind at 1.
  assert (Hev' : each_chunk (fun ch => Z.of_nat (length ch) <= c) events).
  { eapply Forall_impl; [exact Hev|].
    intros [ch|r]; [|trivial]. intros H. lia. }
  pose proof (for_await_bound (sourceParams args) events Hc Hev' c [] st
                (or_introl eq_refl) ltac:(cbn; lia) HQ) as Hloop.
  fold c.
  destruct (for_await (sourceParams args) events c [] st)
    as [[[E' P']|e] st']; [|exact Hloop].
  destruct Hloop as (HQ' & HP' & HE'). cbn [snd].
  destruct wend as [|e]; [|exact HQ'].
  destruct (0 <? length P')%nat; [|exact HQ'].
  unfold enqueue. destruct (closed st'); [exact HQ'|]. cbn.
  apply Forall_app. split; [exact HQ'|].
  constructor; [|constructor]. intros _. cbn. lia.
Qed.

(** X19. With an integer [chunkSize] of 1 at least, no batch of the walk
    holds as many as eleven times [chunkSize] items: the loop of [gather]
    emits as soon as the buffered items reach its threshold, ten times
    [chunkSize] at most, and a chunk of the walker adds [chunkSize] items at
    most. The integers are the values of [chunkSize] the model has; a
    [chunkSize] with a fractional part is not covered. *)
Theorem walk_batches_are_bounded args fs tree :
  1 <= chunkSize (sourceParams args) ->
  Forall (fun b : Origin * list Item =>
            b.1 = FromFileRec ->
            Z.of_nat (length b.2) < 11 * chunkSize (sourceParams args))
    (queue (gather args fs tree)).
Proof.
  intros Hc. apply gather_batches.
  - discriminate.
  - discriminate.
  - intros st. now apply gather_fileRec_bound.
Qed.

(** X20. When the walk fails, the items buffered since the last emission
    are lost: the queue holds the batches emitted before the failure and
    no flush follows, the exception is reported with [console.error]
    (unless it is an [Error] whose name holds [AbortReason]) and the
    stream is closed. The items delivered and the items lost are together
    the items the walk yielded, as [gather] prepared them. *)
Theorem failed_walk_loses_the_buffered_items args fs tree st chunks e s :
  let p := sourceParams args in
  enableFileRec p = true ->
  (gather_buffer args ;; gather_mr args) initial_state = (Normal tt, st) ->
  gather_walk args fs tree None = (map EYield chunks, Threw e, s) ->
  let prepared_ := (prepared_chunks p (seen st) chunks).1 in
  let emitted := (chunk_emitter_run (chunkSize p) 0 [] prepared_).1.1 in
  let lost := (chunk_emitter_run (chunkSize p) 0 [] prepared_).1.2 in
  let final := gather args fs tree in
  queue final = queue st ++ map (pair FromFileRec) emitted
  /\ concat emitted ++ lost = concat prepared_
  /\ console final
     = console st ++ (if is_AbortReason e then [] else [[LVal e]])
  /\ closed final = true.
Proof.
  intros p Hen Hsteps Hwalk prepared_ emitted lost final.
  destruct (steps_leave_stream_open args st Hsteps) as [Hsig Hcl].
  rewrite <- Hsig in Hwalk.
  pose proof (gather_fileRec_emitter args fs tree st chunks (Threw e) s
                Hen Hcl Hwalk) as Hrun.
  cbv zeta in Hrun. fold p in Hrun. fold prepared_ in Hrun.
  fold emitted in Hrun.
  unfold final, gather. rewrite (start_steps args fs tree st Hsteps).
  unfold try_catch. rewrite Hrun. unfold start_catch.
  split; [|split; [|split]].
  - now destruct (is_AbortReason e).
  - apply (chunk_emitter_run_concat (chunkSize p) prepared_ 0 []).
  - destruct (is_AbortReason e); cbn; [now rewrite app_nil_r|reflexivity].
  - now destruct (is_AbortReason e).
Qed.

Lemma chunk_emitter_run_nonpositive base batches :
  base <= 0 ->
  forall n, chunk_emitter_run base n [] batches
            = (batches, [], (n + length batches)%nat).
Proof.
  intros Hb. induction batches as [|b batches IH]; intros n.
  - cbn. now rewrite Nat.add_0_r.
  - cbn [chunk_emitter_run app length].
    replace (Z.of_nat (length b) >=? emission_threshold base n) with true.
    + rewrite IH. cbn. f_equal. lia.
    + symmetry. rewrite Z.geb_leb. apply Z.leb_le.
      destruct n; cbn; lia.
Qed.

(** X21. With a [chunkSize] of 0 or less nothing is buffered: every chunk
    of the walk is enqueued as a batch of its own as soon as it is yielded,
    an empty batch when the filter drops all its items. *)
Theorem nonpositive_chunkSize_buffers_nothing args fs tree st chunks s :
  let p := sourceParams args in
  chunkSize p <= 0 ->
  enableFileRec p = true ->
  closed st = false ->
  gather_walk args fs tree (signal st) = (map EYield chunks, Returned, s) ->
  (gather_fileRec args fs tree st).1 = Normal tt
  /\ queue (gather_fileRec args fs tree st).2
     = queue st
       ++ map (pair FromFileRec) (prepared_chunks p (seen st) chunks).1.
Proof.
  intros p Hc Hen Hcl Hwalk.
  rewrite (gather_fileRec_emitter args fs tree st chunks Returned s
             Hen Hcl Hwalk).
  fold p. unfold chunk_emitter.
  rewrite (chunk_emitter_run_nonpositive _ _ Hc). cbn.
  now rewrite app_nil_r.
Qed.

(** ** After a cancellation *)

(** X22. When the consumer cancels during the walk and the walker still
    yields the chunk it was filling, and that chunk makes the buffered
    items reach the threshold, [controller.enqueue] refuses the batch with
    a [TypeError]: the loop of [gather] ends with it, the reason of the
    cancellation never reaches the [catch] of [start], and the [TypeError]
    is reported with [console.error], whatever the reason was. Nothing is
    enqueued after the batches emitted before the cancellation. *)
Theorem enqueue_after_cancel_reports_a_TypeError args fs tree st chunks
    reason chunk walk_end s :
  let p := sourceParams args in
  enableFileRec p = true ->
  (gather_buffer args ;; gather_mr args) initial_state = (Normal tt, st) ->
  gather_walk args fs tree None
  = (map EYield chunks ++ [ECancel reason; EYield chunk], walk_end, s) ->
  let before := prepared_chunks p (seen st) chunks in
  let run := chunk_emitter_run (chunkSize p) 0 [] before.1 in
  emission_threshold (chunkSize p) run.2
  <= Z.of_nat (length (run.1.2 ++ (prepared p before.2 chunk).1)) ->
  let final := gather args fs tree in
  queue final = queue st ++ map (pair FromFileRec) run.1.1
  /\ console final = console st ++ [[LVal typeError]]
  /\ signal final = Some (default abortError reason)
  /\ closed final = true.
Proof.
  intros p Hen Hsteps Hwalk before run Hge final.
  destruct (steps_leave_stream_open args st Hsteps) as [Hsig Hcl].
  assert (Hrun :
           gather_fileRec args fs tree st
           = (Throw typeError,
              {| seen := (prepared p before.2 chunk).2;
                 queue := queue st ++ map (pair FromFileRec) run.1.1;
                 console := console st;
                 signal := Some (default abortError reason);
                 closed := true |})).
  { unfold gather_fileRec. fold p. rewrite Hen, Hsig, Hwalk.
    unfold bind at 1. rewrite for_await_app.
    change (chunkSize p) with (emission_threshold (chunkSize p) 0) at 1.
    rewrite (for_await_emitter p chunks 0 [] st Hcl).
    subst run before.
    destruct (prepared_chunks p (seen st) chunks) as [fcs S'].
    cbn [fst snd] in *.
    destruct (chunk_emitter_run (chunkSize p) 0 [] fcs)
      as [[out remaining] n'].
    cbn [fst snd] in *.
    cbn [for_await]. unfold bind at 1, cancel at 1.
    unfold bind at 1. rewrite prepare_chunk_prepared.
    cbn [seen set_seen set_queue fst snd].
    apply Z.geb_le in Hge.
    cbn [fst snd]. rewrite Hge.
    unfold bind at 1, enqueue at 1. cbn [closed set_seen].
    unfold set_seen. cbn. now rewrite Hsig. }
  unfold final, gather. rewrite (start_steps args fs tree st Hsteps).
  unfold try_catch. rewrite Hrun. now repeat split.
Qed.

(** X23. A failure of [Deno.realPath] on a link to a directory is handled
    like a failure to read the directory that holds the link: the chunk
    that directory was filling and its remaining entries are dropped, and
    the walker returns from that directory when the failure is a
    permission-denied error and throws it otherwise. *)
Theorem realPath_failure_ends_the_directory fs root ignored size dir chunk
    name sub rest info target e :
  lstat fs (join dir name) = Some info ->
  FileInfo.isSymlink info = true ->
  stat fs (join dir name) = Some target ->
  FileInfo.isDirectory target = true ->
  name ∉ ignored ->
  realPath fs (join dir name) = Throw e ->
  inner_loop fs root ignored size true None dir chunk
    (NextEntry name None sub rest)
  = ([], if instanceof_PermissionDenied e then Returned else Threw e, None).
Proof.
  intros Hl Hs Ht Hd Hi Hr. cbn [inner_loop].
  unfold entry_action, readStat. rewrite Hl, Hs, Ht. cbn.
  rewrite Hd. cbn.
  rewrite (bool_decide_eq_false_2 _ Hi), Hr. reflexivity.
Qed.

End TriSource.

(** * The properties on the example inputs *)

Lemma ex_join_nonempty d n : ex_join d n <> "".
Proof. unfold ex_join. destruct d; discriminate. Qed.

Lemma dedup_uniqueness_witness :
  let st := gather "/" ex_join ex_relative ex_resolve ex_args ex_fs ex_tree in
  NoDup (delivered_keys st)
  /\ earliest_source "/" ex_join ex_relative ex_resolve ex_args ex_fs ex_tree
       st.
Proof.
  apply (dedup_uniqueness "/" ex_join ex_relative ex_resolve ex_args ex_fs
           ex_tree).
  - reflexivity.
  - exact ex_join_nonempty.
Defined.

(** C9. With a [chunkSize] of 0 the walker yields [a.txt] and [b.txt] as
    chunks of one item, the filter drops both, as the buffer list and the
    MRU list hold them, and the loop of [gather], whose threshold is met by
    an empty buffer, enqueues an empty batch for each: the batches of the
    run hold 2, 1, 0, 0 and 1 items. The buffer step, the MRU step and the
    final flush test the length before they enqueue; the loop does not. *)
Theorem empty_batches_at_chunkSize_zero :
  let st :=
    gather "/" ex_join ex_relative ex_resolve
      (ex_args_on ex_denops (ex_params_sized 0)) ex_fs ex_tree in
  map (fun b => (b.1, map (fun x => path (action x)) b.2)) (queue st)
  = [(FromBuffer, ["/x/f.txt"; "/r/a.txt"]);
     (FromMr, ["/r/b.txt"]);
     (FromFileRec, []);
     (FromFileRec, []);
     (FromFileRec, ["/r/sub/d.txt"])]%string
  /\ ~ batches_nonempty st.
Proof.
  split; [reflexivity|].
  intros H. apply (H FromFileRec []); [|reflexivity].
  vm_compute. do 2 right. now left.
Qed.

Lemma chunk_emitter_policy_witness :
  (gather_fileRec "/" ex_join ex_relative ex_resolve ex_args ex_fs ex_tree
     initial_state).1 = Normal tt
  /\ queue
       (gather_fileRec "/" ex_join ex_relative ex_resolve ex_args ex_fs
          ex_tree initial_state).2
     = [] ++ map (pair FromFileRec)
               (chunk_emitter 1
                  (prepared_chunks (ex_params true true) ∅ ex_chunks).1).
Proof.
  apply (chunk_emitter_policy "/" ex_join ex_relative ex_resolve ex_args
           ex_fs ex_tree initial_state ex_chunks None).
  - reflexivity.
  - reflexivity.
  - vm_compute. reflexivity.
Defined.

Lemma mr_failure_is_contained_witness :
  exists e,
    mr_list ex_denops_silent "mru" = Throw e
    /\ (forall st,
          gatherMr ex_denops_silent "mru" true true st
          = (Normal [], (console_error (mr_diagnostic e) st).2))
    /\ gather "/" ex_join ex_relative ex_resolve
         (ex_args_on ex_denops_silent (ex_params true true)) ex_fs ex_tree
       = add_log [mr_diagnostic e]
           (gather "/" ex_join ex_relative ex_resolve
              (without_mr (ex_args_on ex_denops_silent (ex_params true true)))
              ex_fs ex_tree).
Proof.
  apply (mr_failure_is_contained "/" ex_join ex_relative ex_resolve
           (ex_args_on ex_denops_silent (ex_params true true)) ex_fs ex_tree).
  - reflexivity.
  - reflexivity.
  - vm_compute. reflexivity.
Defined.

Lemma unexpanded_symlink_is_a_file_witness :
  entry_action ex_fs_link [] false (ex_join "/r" "l") "l" = EmitFile
  /\ forall expand,
       entry_action ex_fs_link [] expand (ex_join "/r" "l") "l" = Looped ->
       expand = true.
Proof.
  assert (Hwf : forall info,
             lstat ex_fs_link (ex_join "/r" "l") = Some info ->
             FileInfo.isSymlink info = true ->
             FileInfo.isDirectory info = false).
  { intros info [= <-] _. reflexivity. }
  destruct (unexpanded_symlink_is_a_file ex_join ex_relative ex_fs_link "/r"
              [] 1 "/r" "l" Hwf) as [Hfile Hloop].
  split; [|exact Hloop].
  now destruct (Hfile ex_symlink eq_refl eq_refl).
Defined.

(** C3. The walker is asked to follow symbolic links and meets [/a/b/l], a
    link to the directory [/b]. The resolved path [/b] is no prefix of
    [/a/b/l], and entering it re-enters no ancestor; it occurs inside
    [/a/b/l], so [includes] holds, the entry counts as a looped link and the
    walk yields nothing of [/b]. *)
Theorem symlink_outside_the_tree_is_skipped :
  String.prefix "/b" (ex_join "/a/b" "l") = false
  /\ includes (ex_join "/a/b" "l") "/b" = true
  /\ entry_action ex_fs_outside [] true (ex_join "/a/b" "l") "l" = Looped
  /\ walkFiles ex_join ex_relative ex_fs_outside "/a/b" [] 1000 true None
       ex_tree_outside
     = ([], Returned, None).
Proof. repeat split. Qed.

(** C6, the claim as worded fails: the consumer cancels without a reason
    while the walker waits for an entry; the signal throws an [AbortError],
    whose name does not contain [AbortReason], and [start] reports it with
    [console.error]. *)
Lemma cancellation_without_reason_is_logged :
  let final :=
    gather "/" ex_join ex_relative ex_resolve ex_args ex_fs
      (ex_tree_cancelled None) in
  signal final = Some (DOMException "AbortError")
  /\ console final = [[LVal (DOMException "AbortError")]]
  /\ console final <> [].
Proof. repeat split. discriminate. Qed.

Lemma cancellation_ends_the_run_witness :
  (let final :=
     gather_under "/" ex_join ex_relative ex_resolve ex_cancel_buffer
       ex_args ex_fs ex_tree in
   signal final = Some ex_quit
   /\ queue final = []
   /\ console final = [[LVal typeError]])
  /\ (let final :=
        gather_under "/" ex_join ex_relative ex_resolve ex_cancel_mr
          ex_args ex_fs ex_tree in
      signal final = Some ex_quit
      /\ map (fun b => b.1) (queue final) = [FromBuffer]
      /\ console final = [[LVal typeError]])
  /\ (let final :=
        gather_under "/" ex_join ex_relative ex_resolve no_cancels ex_args
          ex_fs ex_tree_cancel_in_entry in
      signal final = Some ex_quit
      /\ map (fun b => map (fun x => path (action x)) b.2) (queue final)
         = [["/x/f.txt"; "/r/a.txt"]; ["/r/b.txt"]; ["/r/x.txt"]]%string
      /\ console final = []).
Proof.
  split; [|split].
  - destruct (cancellation_ends_the_run "/" ex_join ex_relative ex_resolve
                ex_cancel_buffer ex_args ex_fs ex_tree)
      as (_ & HB & _).
    destruct (HB (Some ex_quit)
                (buffer_item ex_relative 1 2 "/r" true
                   (BufInfo.mk 2 true 20 true "/x/f.txt"))
                [buffer_item ex_relative 1 2 "/r" true
                   (BufInfo.mk 1 false 10 true "/r/a.txt")]
                (gatherBuffer ex_relative ex_denops 1 "desc" true true
                   initial_state).2)
      as (Hs & _ & Hq & Hc).
    + reflexivity.
    + reflexivity.
    + vm_compute. reflexivity.
    + now repeat split.
  - destruct (cancellation_ends_the_run "/" ex_join ex_relative ex_resolve
                ex_cancel_mr ex_args ex_fs ex_tree)
      as (_ & _ & HM & _).
    destruct (HM (gather_buffer_under ex_relative None ex_args
                    initial_state).2
                ex_quit (mr_item "mru" true "/r/b.txt") []
                (gatherMr ex_denops "mru" true true
                   (gather_buffer_under ex_relative None ex_args
                      initial_state).2).2)
      as (Hs & _ & Hq & Hc).
    + reflexivity.
    + vm_compute. reflexivity.
    + right. split; [reflexivity|]. now exists (Some ex_quit).
    + vm_compute. reflexivity.
    + split; [exact Hs|]. split; [rewrite Hq; reflexivity|].
      rewrite Hc. reflexivity.
  - destruct (cancellation_ends_the_run "/" ex_join ex_relative ex_resolve
                no_cancels ex_args ex_fs ex_tree_cancel_in_entry)
      as (_ & _ & _ & _ & HW).
    destruct (HW ((gather_buffer_under ex_relative None ex_args ;;
                   gather_mr_under None ex_args) initial_state).2
                [[file_item ex_relative "/r" "/r/x.txt"]]
                (Some ex_quit)
                [EYield [file_item ex_relative "/r" "/r/y.txt"]]
                (Threw ex_quit) (Some ex_quit))
      as (_ & _ & _ & _ & Hs & _ & Hq & Hc).
    + reflexivity.
    + vm_compute. reflexivity.
    + reflexivity.
    + vm_compute. reflexivity.
    + split; [exact Hs|]. split; [rewrite Hq; vm_compute; reflexivity|].
      rewrite Hc. vm_compute. reflexivity.
Defined.

(** C8, the claim as worded fails: with [dedup] and [showSourcePrefix] both
    unset, [/x/f.txt] is delivered by the buffer step and by the MRU step,
    and [/r/a.txt] by the buffer step and by the walk, and no delivered item
    carries a tag. *)
Lemma passthrough_without_tags :
  let p := ex_params false false in
  let st :=
    gather "/" ex_join ex_relative ex_resolve (ex_args_on ex_denops p) ex_fs
      ex_tree in
  map (fun ox => (ox.1, path (action ox.2), display ox.2, highlights ox.2))
    (delivered st)
  = [(FromBuffer, "/x/f.txt", None, None);
     (FromBuffer, "/r/a.txt", None, None);
     (FromMr, "/x/f.txt", None, None);
     (FromMr, "/r/b.txt", None, None);
     (FromFileRec, "/r/a.txt", None, None);
     (FromFileRec, "/r/b.txt", None, None);
     (FromFileRec, "/r/sub/d.txt", None, None)]
  /\ ~ (forall o x, (o, x) ∈ delivered st -> tagged p o x).
Proof.
  split; [reflexivity|].
  intros H.
  destruct (H FromMr (mr_item "mru" false "/x/f.txt")) as [Hd _].
  - vm_compute. do 2 right. now left.
  - discriminate.
Qed.

Lemma dedup_disabled_passthrough_witness :
  let p := ex_params false true in
  let args := ex_args_on ex_denops p in
  let st := gather "/" ex_join ex_relative ex_resolve args ex_fs ex_tree in
  seen st = ∅
  /\ delivered st
     = map (pair FromBuffer) (buffer_items ex_relative args)
       ++ map (pair FromMr) (mr_items args)
       ++ map (pair FromFileRec) (fileRec_items args ex_chunks)
  /\ (forall o x, (o, x) ∈ delivered st -> tagged p o x).
Proof.
  apply (dedup_disabled_passthrough "/" ex_join ex_relative ex_resolve
           (ex_args_on ex_denops (ex_params false true)) ex_fs ex_tree
           ex_chunks None).
  - reflexivity.
  - vm_compute. reflexivity.
  - intros _. vm_compute. reflexivity.
Defined.

(** * The further properties on the example inputs *)

Lemma onInit_defines_every_highlight_group_witness :
  exists h attrs,
    highlights (makeItem "a.txt" "/r/a.txt" "rec" true false) = Some [h]
    /\ ("highlight default " +:+ ItemHighlight.hl_group h +:+ " " +:+ attrs)
       ∈ (onInit (fun _ => Normal tt) []).2.
Proof.
  apply (onInit_defines_every_highlight_group (fun _ => Normal tt) _ eq_refl
           "rec").
  unfold source_tags. set_solver.
Defined.

Lemma ex_fs_has_no_link p info :
  lstat ex_fs p = Some info -> FileInfo.isSymlink info = false.
Proof.
  cbn. destruct (_ || _); now intros [= <-].
Qed.

Lemma undisturbed_walk_yields_every_file_witness :
  map (fun x => path (action x))
    (tree_files ex_join ex_relative ex_fs "/r" [".git"%string] "/r" ex_tree)
  = ["/r/a.txt"; "/r/b.txt"; "/r/sub/d.txt"]%string
  /\ exists evs,
       walkFiles ex_join ex_relative ex_fs "/r" [".git"%string] 2 false None
         ex_tree
       = (evs, Returned, None)
       /\ yielded_items evs
          ≡ₚ tree_files ex_join ex_relative ex_fs "/r" [".git"%string] "/r"
               ex_tree.
Proof.
  split; [vm_compute; reflexivity|].
  apply (undisturbed_walk_yields_every_file ex_join ex_relative ex_fs "/r"
           [".git"%string] 2).
  - intros p info H E. rewrite (ex_fs_has_no_link p info H) in E.
    discriminate E.
  - vm_compute. reflexivity.
Defined.

Lemma expandSymbolicLink_only_matters_for_links_witness :
  walkFiles ex_join ex_relative ex_fs "/r" [".git"%string] 1 true None
    ex_tree
  = walkFiles ex_join ex_relative ex_fs "/r" [".git"%string] 1 false None
      ex_tree.
Proof.
  apply (expandSymbolicLink_only_matters_for_links ex_join ex_relative ex_fs
           "/r" [".git"%string] 1 None ex_tree).
  exact ex_fs_has_no_link.
Defined.

Lemma dangling_link_is_listed_or_skipped_witness :
  readStat ex_fs_dangling "/r/l" false = Some ex_symlink
  /\ entry_action ex_fs_dangling [] false "/r/l" "l" = EmitFile
  /\ readStat ex_fs_dangling "/r/l" true = None
  /\ entry_action ex_fs_dangling [] true "/r/l" "l" = Vanished.
Proof.
  apply (dangling_link_is_listed_or_skipped ex_fs_dangling [] "/r/l" "l"
           ex_symlink); reflexivity.
Defined.

Lemma buffer_items_follow_the_sort_order_witness :
  exists bufs,
    map (buffer_item ex_relative 1 2 "/r" true)
      [BufInfo.mk 2 true 20 true "/x/f.txt";
       BufInfo.mk 1 false 10 true "/r/a.txt"]
    = map (buffer_item ex_relative 1 2 "/r" true) bufs
    /\ StronglySorted (buffer_before "desc" 1) bufs
    /\ Forall
         (fun b =>
            b ∈ buffers ex_buffers
            /\ BufInfo.listed b = true
            /\ buffer_candidate ex_denops b = true)
         bufs.
Proof.
  eapply (buffer_items_follow_the_sort_order ex_relative ex_denops 1 "desc"
            true true initial_state ex_buffers).
  - reflexivity.
  - refine (bool_decide_unpack _ _). vm_compute. exact I.
  - vm_compute. reflexivity.
Defined.

Lemma buffer_failure_ends_the_run_witness :
  let final :=
    gather "/" ex_join ex_relative ex_resolve
      (ex_args_on ex_denops_failing (ex_params true true)) ex_fs ex_tree in
  queue final = []
  /\ console final = [[LVal (ErrorObject "Error")]]
  /\ signal final = None
  /\ closed final = true.
Proof.
  apply (buffer_failure_ends_the_run "/" ex_join ex_relative ex_resolve
           (ex_args_on ex_denops_failing (ex_params true true)) ex_fs
           ex_tree (ErrorObject "Error")).
  reflexivity.
Defined.

Lemma mr_failure_diagnostics_witness :
  gatherMr ex_denops_silent "mru" true true initial_state
  = (Normal [], (console_error [LStr mr_unavailable] initial_state).2).
Proof.
  apply (mr_failure_diagnostics ex_denops_silent "mru" true true
           initial_state).
  reflexivity.
Defined.

Lemma mr_items_follow_the_list_witness :
  exists ps S',
    gatherMr ex_denops "mru" true true initial_state
    = (Normal
         (map (fun p =>
                 makeItem p p "mru" true
                   (bool_decide ("mru"%string ∈ ["mrr"; "mrd"]%string))) ps),
       set_seen S' initial_state)
    /\ ps `sublist_of` ["/x/f.txt"; "/r/b.txt"]%string
    /\ (true = false -> ps = ["/x/f.txt"; "/r/b.txt"]%string).
Proof.
  apply (mr_items_follow_the_list ex_denops "mru" true true initial_state
           ["/x/f.txt"; "/r/b.txt"]%string).
  reflexivity.
Defined.

Lemma walk_batches_are_bounded_witness :
  Forall (fun b : Origin * list Item =>
            b.1 = FromFileRec -> Z.of_nat (length b.2) < 11 * 1)
    (queue (gather "/" ex_join ex_relative ex_resolve ex_args ex_fs ex_tree)).
Proof.
  apply (walk_batches_are_bounded "/" ex_join ex_relative ex_resolve ex_args
           ex_fs ex_tree).
  cbn. lia.
Defined.

Lemma failed_walk_loses_the_buffered_items_witness :
  let args := ex_args_on ex_denops (ex_params false true) in
  let final :=
    gather "/" ex_join ex_relative ex_resolve args ex_fs
      ex_tree_failing_late in
  let st := ((gather_buffer ex_relative args ;; gather_mr args)
               initial_state).2 in
  let chunks := [[file_item ex_relative "/r" "/r/a.txt"];
                 [file_item ex_relative "/r" "/r/b.txt"];
                 [file_item ex_relative "/r" "/r/c.txt"]] in
  let prepared_ := (prepared_chunks (ex_params false true) (seen st)
                      chunks).1 in
  let lost := (chunk_emitter_run 1 0 [] prepared_).1.2 in
  gather_walk "/" ex_join ex_relative ex_resolve args ex_fs
    ex_tree_failing_late None
  = (map EYield chunks, Threw (ErrorObject "Interrupted"), None)
  /\ map (fun b => map (fun x => path (action x)) b.2) (queue final)
     = [["/x/f.txt"; "/r/a.txt"]; ["/x/f.txt"; "/r/b.txt"];
        ["/r/a.txt"]]%string
  /\ map (fun x => path (action x)) lost = ["/r/b.txt"; "/r/c.txt"]%string
  /\ console final = [[LVal (ErrorObject "Interrupted")]]
  /\ closed final = true.
Proof.
  cbv zeta.
  destruct (failed_walk_loses_the_buffered_items "/" ex_join ex_relative
              ex_resolve (ex_args_on ex_denops (ex_params false true))
              ex_fs ex_tree_failing_late
              ((gather_buffer ex_relative
                  (ex_args_on ex_denops (ex_params false true)) ;;
                gather_mr
                  (ex_args_on ex_denops (ex_params false true)))
                 initial_state).2
              [[file_item ex_relative "/r" "/r/a.txt"];
               [file_item ex_relative "/r" "/r/b.txt"];
               [file_item ex_relative "/r" "/r/c.txt"]]
              (ErrorObject "Interrupted") None)
    as (Hq & _ & Hc & Hcl).
  - reflexivity.
  - vm_compute. reflexivity.
  - vm_compute. reflexivity.
  - split; [vm_compute; reflexivity|].
    split; [rewrite Hq; vm_compute; reflexivity|].
    split; [vm_compute; reflexivity|].
    split; [rewrite Hc; vm_compute; reflexivity|exact Hcl].
Defined.

Lemma nonpositive_chunkSize_buffers_nothing_witness :
  let args := ex_args_on ex_denops (ex_params_sized 0) in
  (gather_fileRec "/" ex_join ex_relative ex_resolve args ex_fs ex_tree
     initial_state).1 = Normal tt
  /\ queue
       (gather_fileRec "/" ex_join ex_relative ex_resolve args ex_fs ex_tree
          initial_state).2
     = [] ++ map (pair FromFileRec)
               (prepared_chunks (ex_params_sized 0) ∅ ex_chunks).1.
Proof.
  apply (nonpositive_chunkSize_buffers_nothing "/" ex_join ex_relative
           ex_resolve (ex_args_on ex_denops (ex_params_sized 0)) ex_fs
           ex_tree initial_state ex_chunks None).
  - cbn. lia.
  - reflexivity.
  - reflexivity.
  - vm_compute. reflexivity.
Defined.

Lemma enqueue_after_cancel_reports_a_TypeError_witness :
  let final :=
    gather "/" ex_join ex_relative ex_resolve ex_args ex_fs
      ex_tree_late_cancel in
  console final = [[LVal typeError]]
  /\ signal final = Some ex_quit
  /\ closed final = true.
Proof.
  destruct (enqueue_after_cancel_reports_a_TypeError "/" ex_join ex_relative
              ex_resolve ex_args ex_fs ex_tree_late_cancel
              ((gather_buffer ex_relative ex_args ;; gather_mr ex_args)
                 initial_state).2
              [] (Some ex_quit) [file_item ex_relative "/r" "/r/c.txt"]
              (Threw ex_quit) (Some ex_quit))
    as (_ & Hc & Hs & Hcl).
  - reflexivity.
  - vm_compute. reflexivity.
  - vm_compute. reflexivity.
  - vm_compute. discriminate.
  - split; [|split; [exact Hs|exact Hcl]].
    rewrite Hc. vm_compute. reflexivity.
Defined.

Lemma realPath_failure_ends_the_directory_witness :
  inner_loop ex_join ex_relative ex_fs_unresolved "/r" [] 1 true None "/r"
    [file_item ex_relative "/r" "/r/a.txt"]
    (NextEntry "l" None EndOfDir (NextEntry "b.txt" None EndOfDir EndOfDir))
  = ([], Returned, None).
Proof.
  apply (realPath_failure_ends_the_directory ex_join ex_relative
           ex_fs_unresolved "/r" [] 1 "/r"
           [file_item ex_relative "/r" "/r/a.txt"] "l" EndOfDir
           (NextEntry "b.txt" None EndOfDir EndOfDir) ex_symlink ex_dir
           PermissionDenied); try reflexivity.
  set_solver.
Defined.
